(** * NTSA inlist handlers: a shallow embedding and its verified properties

    Sources embedded here:
    - [src/util_tools/inlist_handler/inlist_handler.py]  (class [InlistHandler])
    - [src/util_tools/inlist_handler/toml_inlist_handler.py]
      (class [TomlInlistHandler])

    Python strings are modelled as [string] (one [ascii] per character),
    dictionaries of the custom format as [gmap string value], the
    dictionaries of a TOML tree as the lists of their items in insertion
    order, exceptions as an explicit error type threaded through a small
    error monad. *)

From Stdlib Require Import ZArith QArith Ascii String List Bool Lia.
From stdpp Require Import base option list strings gmap.

Local Open Scope string_scope.
Local Open Scope Z_scope.

(* ===================================================================== *)
(** ** Exceptions and the error monad *)
(* ===================================================================== *)

(** The exception classes that the modelled code can meet. *)
Inductive exn : Type :=
  | ValueError
  | SyntaxError
  | NameError
  | TypeError
  | OSError
  | RecursionError
  | SystemExit.

(** Outcome of a Python call: a returned value or a raised exception. *)
Inductive result (A : Type) : Type :=
  | Return (a : A)
  | Raise (e : exn).
Arguments Return {A} a.
Arguments Raise {A} e.

#[global] Instance result_ret : MRet result := fun A a => Return a.
#[global] Instance result_bind : MBind result := fun A B k r =>
  match r with
  | Return a => k a
  | Raise e => Raise e
  end.
#[global] Instance result_fmap : FMap result := fun A B f r =>
  match r with
  | Return a => Return (f a)
  | Raise e => Raise e
  end.

(** Truth value of an optional object ([None] is false, a match object is
    true). *)
Definition truthy {A : Type} (o : option A) : bool :=
  match o with Some _ => true | None => false end.

(* ===================================================================== *)
(** ** Python string primitives *)
(* ===================================================================== *)

Module PyStr.

Definition chr_eqb (a b : ascii) : bool := Ascii.eqb a b.

(** [s.startswith(p)] *)
Fixpoint startswith (p s : string) : bool :=
  match p, s with
  | EmptyString, _ => true
  | String a p', String b s' => chr_eqb a b && startswith p' s'
  | String _ _, EmptyString => false
  end.

(** [sub in s] on strings: substring membership. *)
Fixpoint str_in (sub s : string) : bool :=
  startswith sub s ||
  match s with
  | EmptyString => false
  | String _ s' => str_in sub s'
  end.

(** [s.lstrip(c)] for a one-character argument. *)
Fixpoint lstrip (c : ascii) (s : string) : string :=
  match s with
  | String a s' => if chr_eqb a c then lstrip c s' else s
  | EmptyString => EmptyString
  end.

(** [s.rstrip(c)] for a one-character argument. *)
Fixpoint rstrip (c : ascii) (s : string) : string :=
  match s with
  | EmptyString => EmptyString
  | String a s' =>
      match rstrip c s' with
      | EmptyString => if chr_eqb a c then EmptyString else String a EmptyString
      | r => String a r
      end
  end.

(** [s.strip(c)] for a one-character argument. *)
Definition strip (c : ascii) (s : string) : string := rstrip c (lstrip c s).

(** Membership of a character in a string used as a character set
    ([c in "..."] with [c] of length one). *)
Fixpoint chr_in (c : ascii) (set : string) : bool :=
  match set with
  | EmptyString => false
  | String a set' => chr_eqb c a || chr_in c set'
  end.

Definition is_digit (c : ascii) : bool :=
  let n := nat_of_ascii c in (48 <=? n)%nat && (n <=? 57)%nat.

Definition digit_val (c : ascii) : Z := Z.of_nat (nat_of_ascii c) - 48.

End PyStr.
Import PyStr.

Definition dquote : ascii := Ascii.ascii_of_nat 34.
Definition squote : ascii := Ascii.ascii_of_nat 39.
Definition newline : ascii := Ascii.ascii_of_nat 10.
Definition str1 (c : ascii) : string := String c EmptyString.

(* ===================================================================== *)
(** ** Typed values of the custom inlist format *)
(* ===================================================================== *)

(** What [_typer] can return.  A float is represented by the exact rational
    denoted by its literal (rounding to binary64 is not modelled).
    [VOther] stands for literal values outside this list (bytes, complex
    numbers, sets, dictionaries). *)
#[warnings="-register-all"]
Inductive value : Type :=
  | VStr (s : string)
  | VBool (b : bool)
  | VNone
  | VInt (z : Z)
  | VFloat (q : Q)
  | VList (l : list value)
  | VTuple (l : list value)
  | VOther (src : string).

(* ===================================================================== *)
(** ** Python's [int(str)] on ASCII text *)
(* ===================================================================== *)

Module PyInt.

(** The characters below 256 that [int] strips from both ends of its
    argument: tab to carriage return, the space, NEL and the no-break
    space. *)
Definition is_space (c : ascii) : bool :=
  let n := nat_of_ascii c in
  ((9 <=? n)%nat && (n <=? 13)%nat) || (n =? 32)%nat
  || (n =? 133)%nat || (n =? 160)%nat.

Fixpoint lstrip_space (s : string) : string :=
  match s with
  | String a s' => if is_space a then lstrip_space s' else s
  | EmptyString => EmptyString
  end.

Fixpoint rstrip_space (s : string) : string :=
  match s with
  | EmptyString => EmptyString
  | String a s' =>
      match rstrip_space s' with
      | EmptyString => if is_space a then EmptyString else String a EmptyString
      | r => String a r
      end
  end.

(** Digits with single underscores allowed between two digits.
    [prev] tells whether the previous character was a digit. *)
Fixpoint digits_acc (acc : Z) (prev : bool) (s : string) : option Z :=
  match s with
  | EmptyString => if prev then Some acc else None
  | String c s' =>
      if is_digit c then digits_acc (10 * acc + digit_val c) true s'
      else if chr_eqb c "_" && prev then digits_acc acc false s'
      else None
  end.

Definition signed_digits (s : string) : option Z :=
  match s with
  | String "-" s' => Z.opp <$> digits_acc 0 false s'
  | String "+" s' => digits_acc 0 false s'
  | _ => digits_acc 0 false s
  end.

(** The default of [sys.get_int_max_str_digits()]: the conversion of a
    text with more decimal digits than this is refused. *)
Definition int_max_str_digits : nat := 4300.

(** The number of digits of a text, as the conversion counts them: every
    digit character, leading zeros included; signs and underscores are not
    counted. *)
Fixpoint count_digits (s : string) : nat :=
  match s with
  | EmptyString => O
  | String c s' => ((if is_digit c then 1 else 0) + count_digits s')%nat
  end.

(** [int(s)]: base-10, [ValueError] on anything that is not an integer
    literal, and on an integer literal with more digits than the limit. *)
Definition int (s : string) : result Z :=
  let t := rstrip_space (lstrip_space s) in
  match signed_digits t with
  | Some z =>
      if (count_digits t <=? int_max_str_digits)%nat then Return z
      else Raise ValueError
  | None => Raise ValueError
  end.

End PyInt.

(* ===================================================================== *)
(** ** [InlistHandler]: the typing checks *)
(* ===================================================================== *)

(** [InlistHandler._multi_check_method] *)
Definition _multi_check_method (value_string : string)
    (check_values : list string) (any_check all_check : bool) : result bool :=
  if any_check then
    Return (existsb (fun _check_value => str_in _check_value value_string)
                    check_values)
  else if all_check then
    Return (forallb (fun _check_value => str_in _check_value value_string)
                    check_values)
  else Raise SystemExit.

(** The [partialmethod] instances. *)
Definition string_check (value_string : string) : result bool :=
  _multi_check_method value_string [str1 squote; str1 dquote] true false.
Definition bool_check (value_string : string) : result bool :=
  _multi_check_method value_string ["False"; "FALSE"; "True"; "TRUE"] true false.
Definition bool_false_check (value_string : string) : result bool :=
  _multi_check_method value_string ["False"; "FALSE"] true false.
Definition list_check (value_string : string) : result bool :=
  _multi_check_method value_string ["["; "]"] false true.
Definition tuple_check (value_string : string) : result bool :=
  _multi_check_method value_string ["("; ")"] false true.
Definition none_check (value_string : string) : result bool :=
  _multi_check_method value_string ["None"] false true.
Definition float_check (value_string : string) : result bool :=
  _multi_check_method value_string ["."] false true.

(* ===================================================================== *)
(** ** Regular expressions of the class *)
(* ===================================================================== *)

(** Python's [re] is a backtracking matcher.  The two patterns of the class
    are built from greedy repetition of a character class and literal
    characters; each combinator takes the continuation that matches the
    remainder of the pattern, and a greedy repetition offers its longest
    run first and gives characters back while the continuation fails. *)
Module Re.

Section Combinators.
Context {A : Type}.

(** [cls*] followed by [k], which receives the run consumed and the
    rest of the text. *)
Fixpoint star (cls : ascii -> bool) (k : string -> string -> option A)
    (s : string) : option A :=
  match s with
  | String c s' =>
      if cls c then
        match star cls (fun m r => k (String c m) r) s' with
        | Some a => Some a
        | None => k EmptyString s
        end
      else k EmptyString s
  | EmptyString => k EmptyString EmptyString
  end.

(** [cls+] followed by [k]. *)
Definition plus (cls : ascii -> bool) (k : string -> string -> option A)
    (s : string) : option A :=
  match s with
  | String c s' =>
      if cls c then star cls (fun m r => k (String c m) r) s' else None
  | EmptyString => None
  end.

(** One character of the class [cls], then [k]. *)
Definition one (cls : ascii -> bool) (k : string -> option A)
    (s : string) : option A :=
  match s with
  | String c s' => if cls c then k s' else None
  | EmptyString => None
  end.
End Combinators.

(** [.] without DOTALL: any character but the newline. *)
Definition dot (c : ascii) : bool := negb (chr_eqb c newline).
(** [\d] on ASCII text. *)
Definition digit (c : ascii) : bool := is_digit c.
Definition lit (a : ascii) (c : ascii) : bool := chr_eqb c a.
Definition e_or_E (c : ascii) : bool := chr_eqb c "e" || chr_eqb c "E".

End Re.

(** [compiled_float_regex]: one or more digits, [e] or [E], any number of
    [-], one or more digits; used through [.match], which anchors the start
    of the text only. *)
Definition compiled_float_regex_match (s : string) : option unit :=
  Re.plus Re.digit (fun _ r1 =>
  Re.one Re.e_or_E (fun r2 =>
  Re.star (Re.lit "-") (fun _ r3 =>
  Re.plus Re.digit (fun _ _ => Some tt) r3) r2) r1) s.

(** [compiled_regex_defaults]: a captured greedy any-run (group 1), a
    slash, a greedy any-run, a slash, a captured greedy any-run (group 2),
    a literal dot, a greedy any-run; used through [.match].  The result
    holds [group(1)] and [group(2)]. *)
Definition compiled_regex_defaults_match (s : string)
    : option (string * string) :=
  Re.star Re.dot (fun g1 r1 =>
  Re.one (Re.lit "/") (fun r2 =>
  Re.star Re.dot (fun _ r3 =>
  Re.one (Re.lit "/") (fun r4 =>
  Re.star Re.dot (fun g2 r5 =>
  Re.one (Re.lit ".") (fun r6 =>
  Re.star Re.dot (fun _ _ => Some (g1, g2)) r6) r5) r4) r3) r2) r1) s.

(* ===================================================================== *)
(** ** [InlistHandler._typer] *)
(* ===================================================================== *)

Section Typer.

(** [ast.literal_eval] of the Python standard library, on a string. *)
Variable literal_eval : string -> result value.

(** [InlistHandler._typer] *)
Definition _typer (value_string : string) : result value :=
  is_string ← string_check value_string;
  if is_string : bool then
    is_list ← list_check value_string;
    if is_list : bool then literal_eval value_string
    else
      let _de_quoted_string := strip squote (strip dquote value_string) in
      Return (VStr _de_quoted_string)
  else
    is_bool ← bool_check value_string;
    if is_bool : bool then
      is_false ← bool_false_check value_string;
      if is_false : bool then Return (VBool false) else Return (VBool true)
    else
      is_none ← none_check value_string;
      if is_none : bool then Return VNone
      else
        is_list ← list_check value_string;
        if is_list : bool then literal_eval value_string
        else
          is_tuple ← tuple_check value_string;
          if is_tuple : bool then literal_eval value_string
          else
            is_float ← float_check value_string;
            if (is_float : bool)
               || truthy (compiled_float_regex_match value_string)
            then literal_eval value_string
            else VInt <$> PyInt.int value_string.

End Typer.

(* ===================================================================== *)
(** ** The lexer: [shlex.shlex] in its default (non-POSIX) mode *)
(* ===================================================================== *)

Module Shlex.

(** [self.state]: [None] at the end of the text, [' '] between tokens,
    ['a'] inside a word, or the quote character of an open quotation. *)
Inductive lex_state : Type :=
  | St_eof
  | St_ws
  | St_word
  | St_quote (q : ascii).

(** The lexer object: the unread text, the pushed-back tokens, the state
    and the settings that [_parse_inlist] assigns. *)
Record shlex : Type := mk_shlex {
  instream : string;
  pushback : list string;
  state : lex_state;
  commenters : string;
  wordchars : string;
  whitespace : string;
  quotes : string;
  escape : string
}.

Definition tab : ascii := Ascii.ascii_of_nat 9.
Definition cr : ascii := Ascii.ascii_of_nat 13.

(** [shlex.shlex(text)]: the defaults of the constructor. *)
Definition new (text : string) : shlex :=
  {| instream := text;
     pushback := [];
     state := St_ws;
     commenters := "#";
     wordchars :=
       "abcdfeghijklmnopqrstuvwxyzABCDEFGHIJKLMNOPQRSTUVWXYZ0123456789_";
     whitespace := String " " (String tab (String cr (String newline EmptyString)));
     quotes := String squote (String dquote EmptyString);
     escape := "\" |}.

Definition set_stream (lx : shlex) (s : string) (pb : list string)
    (st : lex_state) : shlex :=
  {| instream := s; pushback := pb; state := st;
     commenters := commenters lx; wordchars := wordchars lx;
     whitespace := whitespace lx; quotes := quotes lx;
     escape := escape lx |}.

Definition nonempty (s : string) : bool :=
  match s with EmptyString => false | String _ _ => true end.

(** The loop of [read_token], one character of the text per step.
    [in_comment] unrolls [self.instream.readline()] into the same loop:
    while it is set the characters up to and including the next newline
    are dropped.  The branches guarded by [self.posix],
    [self.punctuation_chars] and [self.whitespace_split] are off in this
    mode and left out.  The result is the token and the lexer after it. *)
Fixpoint read_loop (lx : shlex) (in_comment : bool) (st : lex_state)
    (token : string) (pb : list string) (s : string)
    : result (string * shlex) :=
  match s with
  | EmptyString =>
      match st with
      | St_eof => Return (EmptyString, set_stream lx EmptyString pb St_eof)
      | St_ws => Return (token, set_stream lx EmptyString pb St_eof)
      | St_quote _ => Raise ValueError
      | St_word => Return (token, set_stream lx EmptyString pb St_eof)
      end
  | String nextchar s' =>
      if in_comment then
        read_loop lx (negb (chr_eqb nextchar newline)) st token pb s'
      else
        match st with
        | St_eof => Return (EmptyString, set_stream lx s' pb St_eof)
        | St_ws =>
            if chr_in nextchar (whitespace lx) then
              if nonempty token then Return (token, set_stream lx s' pb St_ws)
              else read_loop lx false St_ws token pb s'
            else if chr_in nextchar (commenters lx) then
              read_loop lx true St_ws token pb s'
            else if chr_in nextchar (wordchars lx) then
              read_loop lx false St_word (str1 nextchar) pb s'
            else if chr_in nextchar (quotes lx) then
              read_loop lx false (St_quote nextchar) (str1 nextchar) pb s'
            else
              Return (str1 nextchar, set_stream lx s' pb St_ws)
        | St_quote q =>
            if chr_eqb nextchar q then
              Return (token ++ str1 nextchar, set_stream lx s' pb St_ws)
            else
              read_loop lx false (St_quote q) (token ++ str1 nextchar) pb s'
        | St_word =>
            if chr_in nextchar (whitespace lx) then
              if nonempty token then Return (token, set_stream lx s' pb St_ws)
              else read_loop lx false St_ws token pb s'
            else if chr_in nextchar (commenters lx) then
              read_loop lx true St_word token pb s'
            else if chr_in nextchar (wordchars lx)
                    || chr_in nextchar (quotes lx) then
              read_loop lx false St_word (token ++ str1 nextchar) pb s'
            else
              if nonempty token then
                Return (token, set_stream lx s' (str1 nextchar :: pb) St_ws)
              else
                read_loop lx false St_ws token (str1 nextchar :: pb) s'
        end
  end.

(** [shlex.read_token] *)
Definition read_token (lx : shlex) : result (string * shlex) :=
  read_loop lx false (state lx) EmptyString (pushback lx) (instream lx).

(** [self.eof] in non-POSIX mode. *)
Definition eof : string := EmptyString.

(** [shlex.get_token]; there is no file stack and no [source] keyword, so
    an end-of-file token is returned as it is. *)
Definition get_token (lx : shlex) : result (string * shlex) :=
  match pushback lx with
  | tok :: pb => Return (tok, set_stream lx (instream lx) pb (state lx))
  | [] => read_token lx
  end.

End Shlex.

(* ===================================================================== *)
(** ** Text files *)
(* ===================================================================== *)

Module PyFile.

(** [f.readlines()] on the text of a file: the lines, each with its
    terminating newline (the last one may lack it). *)
Fixpoint readlines_acc (cur : string) (s : string) : list string :=
  match s with
  | EmptyString => if Shlex.nonempty cur then [cur] else []
  | String c s' =>
      if chr_eqb c newline then (cur ++ str1 c) :: readlines_acc EmptyString s'
      else readlines_acc (cur ++ str1 c) s'
  end.

Definition readlines (s : string) : list string := readlines_acc EmptyString s.

(** [sep.join(l)] *)
Fixpoint join (sep : string) (l : list string) : string :=
  match l with
  | [] => EmptyString
  | [x] => x
  | x :: l' => x ++ sep ++ join sep l'
  end.

End PyFile.

(* ===================================================================== *)
(** ** [InlistHandler]: parsing, defaults and the entry point *)
(* ===================================================================== *)

Section InlistHandler.

(** [ast.literal_eval] of the Python standard library. *)
Variable literal_eval : string -> result value.

(** The file system: the text that [open(path)] and [readlines] give, as
    Python reads it in text mode, or the exception that they raise. *)
Variable fs : string -> result string.

(** The settings assigned to the lexer in [_parse_inlist]. *)
Definition configure (_lex : Shlex.shlex) : Shlex.shlex :=
  {| Shlex.instream := Shlex.instream _lex;
     Shlex.pushback := Shlex.pushback _lex;
     Shlex.state := Shlex.state _lex;
     Shlex.commenters := "%";
     Shlex.wordchars :=
       ((((((Shlex.wordchars _lex ++ ".") ++ "-") ++ "[") ++ "]") ++ ",")
          ++ "(") ++ ")";
     Shlex.whitespace := Shlex.whitespace _lex;
     Shlex.quotes := String squote (String dquote EmptyString);
     Shlex.escape := str1 newline |}.

(** The [for _i in _lex] loop of [_parse_inlist].  Every round reads at
    least one token, so the loop is bounded by the text that is left;
    [fuel] is that bound and [None] means it ran out. *)
Fixpoint parse_loop (fuel : nat) (_lex : Shlex.shlex)
    (dictionary_inlist : gmap string value)
    : option (result (gmap string value)) :=
  match fuel with
  | O => None
  | S fuel' =>
      match Shlex.get_token _lex with
      | Raise e => Some (Raise e)
      | Return (_i, lex1) =>
          if Shlex.nonempty _i then
            let _keyword := _i in
            match Shlex.get_token lex1 with
            | Raise e => Some (Raise e)
            | Return (_, lex2) =>
                match Shlex.get_token lex2 with
                | Raise e => Some (Raise e)
                | Return (tok, lex3) =>
                    match _typer literal_eval tok with
                    | Raise e => Some (Raise e)
                    | Return _value =>
                        parse_loop fuel' lex3
                          (<[_keyword := _value]> dictionary_inlist)
                    end
                end
            end
          else Some (Return dictionary_inlist)
      end
  end.

(** The bound handed to [parse_loop]. *)
Definition lex_fuel (_lex : Shlex.shlex) : nat :=
  S (String.length (Shlex.instream _lex) + length (Shlex.pushback _lex)).

(** The [try] block of [_parse_inlist]. *)
Definition parse_body (inlist_path : string)
    (dictionary_inlist : gmap string value)
    : option (result (gmap string value)) :=
  match fs inlist_path with
  | Raise e => Some (Raise e)
  | Return text =>
      let _lex :=
        configure (Shlex.new (PyFile.join (str1 newline) (PyFile.readlines text))) in
      parse_loop (lex_fuel _lex) _lex dictionary_inlist
  end.

(** [InlistHandler._parse_inlist]: [NameError] and [TypeError] raised in
    the [try] block are logged and the method then returns [None]
    (here [Return None]); other exceptions propagate. *)
Definition _parse_inlist (inlist_path : string)
    (dictionary_inlist : option (gmap string value))
    : option (result (option (gmap string value))) :=
  let d := match dictionary_inlist with Some d => d | None => ∅ end in
  r ← parse_body inlist_path d;
  Some match r with
       | Raise NameError => Return None
       | Raise TypeError => Return None
       | Raise e => Raise e
       | Return d' => Return (Some d')
       end.

(** [InlistHandler._get_default_inlist_values] *)
Definition _get_default_inlist_values (inlist_path : string)
    : option (result (option (gmap string value))) :=
  match compiled_regex_defaults_match inlist_path with
  | None => Some (Raise NameError)
  | Some (g1, g2) =>
      _parse_inlist (g1 ++ "/defaults/" ++ g2 ++ ".defaults") None
  end.

(** [InlistHandler.get_inlist_values] *)
Definition get_inlist_values (inlist_path : string)
    : option (result (option (gmap string value))) :=
  r0 ← _get_default_inlist_values inlist_path;
  match r0 with
  | Raise e => Some (Raise e)
  | Return _dictionary_inlist_default =>
      r ← _parse_inlist inlist_path _dictionary_inlist_default;
      Some match r with
           | Raise NameError => Return None
           | Raise e => Raise e
           | Return dictionary_inlist => Return dictionary_inlist
           end
  end.

End InlistHandler.

(* ===================================================================== *)
(** ** A model of [ast.literal_eval] *)
(* ===================================================================== *)

(** [ast.literal_eval] belongs to the Python standard library, not to this
    repository.  The general theorems below hold for every literal
    evaluator; this model is used where a concrete one is needed.  It covers
    decimal integers, decimal and exponent floats, a sign in front of a
    number, quoted strings without escapes, [True], [False], [None], lists
    and tuples (nested, with an optional trailing comma, a tuple also
    without parentheses).  A bare name is rejected with [ValueError], as
    Python does.  Text outside this grammar is rejected by the model with
    [SyntaxError]; Python accepts some of it (bytes, complex numbers, sets,
    dictionaries, other bases, digits grouped by underscores, escapes in
    strings, adjacent strings, a sign before a parenthesised number) and
    rejects some of it with [ValueError] instead.  An integer literal with
    more digits than [PyInt.int_max_str_digits] is a [SyntaxError], as in
    Python, unless it writes zero. *)
Module LiteralEval.

Definition is_blank (c : ascii) : bool := chr_eqb c " " || chr_eqb c Shlex.tab.

Fixpoint skip_blank (s : string) : string :=
  match s with
  | String c s' => if is_blank c then skip_blank s' else s
  | EmptyString => EmptyString
  end.

Definition is_ident_start (c : ascii) : bool :=
  let n := nat_of_ascii c in
  ((65 <=? n)%nat && (n <=? 90)%nat) || ((97 <=? n)%nat && (n <=? 122)%nat)
  || chr_eqb c "_".

Definition is_ident_char (c : ascii) : bool := is_ident_start c || is_digit c.

(** Leading digits: their value, their number and the rest. *)
Fixpoint take_digits (acc : Z) (n : nat) (s : string) : Z * nat * string :=
  match s with
  | String c s' =>
      if is_digit c then take_digits (10 * acc + digit_val c) (S n) s'
      else (acc, n, s)
  | EmptyString => (acc, n, EmptyString)
  end.

Fixpoint take_ident (s : string) : string * string :=
  match s with
  | String c s' =>
      if is_ident_char c then
        let '(i, r) := take_ident s' in (String c i, r)
      else (EmptyString, s)
  | EmptyString => (EmptyString, EmptyString)
  end.

(** The text of a quoted string up to the closing quote [q]. *)
Fixpoint take_quoted (q : ascii) (s : string) : option (string * string) :=
  match s with
  | EmptyString => None
  | String c s' =>
      if chr_eqb c q then Some (EmptyString, s')
      else if chr_eqb c "\" || chr_eqb c newline then None
      else '(t, r) ← take_quoted q s'; Some (String c t, r)
  end.

Definition pow10 (e : Z) : Q := Qpower (inject_Z 10) e.

(** An optional exponent part: [e] or [E], an optional sign, digits. *)
Definition take_exponent (s : string) : option (Z * string) :=
  match s with
  | String c s' =>
      if Re.e_or_E c then
        let '(neg, s'') :=
          match s' with
          | String "-" t => (true, t)
          | String "+" t => (false, t)
          | _ => (false, s')
          end in
        let '(e, n, r) := take_digits 0 0 s'' in
        match n with
        | O => None
        | S _ => Some (if neg then - e else e, r)
        end
      else None
  | EmptyString => None
  end.

Definition starts_with_zero (s : string) : bool :=
  match s with String "0" _ => true | _ => false end.

(** A number literal at the head of [s]. *)
Definition parse_number (s : string) : result (value * string) :=
  let '(ip, ni, r1) := take_digits 0 0 s in
  match r1 with
  | String "." r2 =>
      let '(fp, nf, r3) := take_digits 0 0 r2 in
      match ni, nf with
      | O, O => Raise SyntaxError
      | _, _ =>
          let m := (inject_Z (ip * 10 ^ Z.of_nat nf + fp)
                    * pow10 (- Z.of_nat nf))%Q in
          match take_exponent r3 with
          | Some (e, r4) => Return (VFloat (Qred (m * pow10 e)), r4)
          | None => Return (VFloat (Qred m), r3)
          end
      end
  | _ =>
      match ni with
      | O => Raise SyntaxError
      | S _ =>
          match take_exponent r1 with
          | Some (e, r4) => Return (VFloat (Qred (inject_Z ip * pow10 e)), r4)
          | None =>
              if starts_with_zero s && negb (ip =? 0) then Raise SyntaxError
              else if (PyInt.int_max_str_digits <? ni)%nat && negb (ip =? 0)
              then Raise SyntaxError
              else Return (VInt ip, r1)
          end
      end
  end.

Definition negate (v : value) : result value :=
  match v with
  | VInt z => Return (VInt (- z))
  | VFloat q => Return (VFloat (Qred (- q)))
  | _ => Raise ValueError
  end.

Definition closes (close : option ascii) (c : ascii) : bool :=
  match close with Some k => chr_eqb c k | None => false end.

(** A parenthesised or top-level sequence: one item without a comma is
    that item, anything else is a tuple. *)
Definition tuple_or_item (l : list value) (comma : bool) : value :=
  match l, comma with
  | [v], false => v
  | _, _ => VTuple l
  end.

(** [parse_expr]: one expression at the head of the text;
    [parse_seq close]: comma-separated expressions up to the closing
    character ([None]: up to the end of the text), with the flag telling
    whether a comma was seen.  [fuel] bounds the nesting. *)
Fixpoint parse_expr (fuel : nat) (s : string) : result (value * string) :=
  match fuel with
  | O => Raise SyntaxError
  | S fuel' =>
      match skip_blank s with
      | EmptyString => Raise SyntaxError
      | String c r =>
          if chr_eqb c "[" then
            '(l, _, r') ← parse_seq fuel' (Some "]"%char) r;
            Return (VList l, r')
          else if chr_eqb c "(" then
            '(l, comma, r') ← parse_seq fuel' (Some ")"%char) r;
            Return (tuple_or_item l comma, r')
          else if chr_eqb c squote || chr_eqb c dquote then
            match take_quoted c r with
            | Some (t, r') => Return (VStr t, r')
            | None => Raise SyntaxError
            end
          else if chr_eqb c "-" then
            '(v, r') ← parse_number (skip_blank r);
            v' ← negate v; Return (v', r')
          else if chr_eqb c "+" then parse_number (skip_blank r)
          else if is_digit c || chr_eqb c "." then parse_number (String c r)
          else if is_ident_start c then
            let '(i, r') := take_ident (String c r) in
            if String.eqb i "True" then Return (VBool true, r')
            else if String.eqb i "False" then Return (VBool false, r')
            else if String.eqb i "None" then Return (VNone, r')
            else Raise ValueError
          else Raise SyntaxError
      end
  end
with parse_seq (fuel : nat) (close : option ascii) (s : string)
    : result (list value * bool * string) :=
  match fuel with
  | O => Raise SyntaxError
  | S fuel' =>
      match skip_blank s with
      | EmptyString =>
          match close with
          | None => Return ([], false, EmptyString)
          | Some _ => Raise SyntaxError
          end
      | String c r =>
          if closes close c then Return ([], false, r)
          else
            '(v, r1) ← parse_expr fuel' (String c r);
            match skip_blank r1 with
            | EmptyString =>
                match close with
                | None => Return ([v], false, EmptyString)
                | Some _ => Raise SyntaxError
                end
            | String c1 r2 =>
                if chr_eqb c1 "," then
                  '(l, _, r3) ← parse_seq fuel' close r2;
                  Return (v :: l, true, r3)
                else if closes close c1 then Return ([v], false, r2)
                else Raise SyntaxError
            end
      end
  end.

(** [ast.literal_eval(s)] on the grammar above. *)
Definition literal_eval (s : string) : result value :=
  '(l, comma, _) ← parse_seq (2 + String.length s) None s;
  match l with
  | [] => Raise SyntaxError
  | _ => Return (tuple_or_item l comma)
  end.

End LiteralEval.

(* ===================================================================== *)
(** ** The fixture of [tests/inlist_handler/test_inlist_handler.py] *)
(* ===================================================================== *)

Module Fixture.

Definition nl : string := str1 newline.
Definition indent : string := "        ".
Definition ln (s : string) : string := indent ++ s ++ nl.

(** [my_text] of the [inlist_file] fixture. *)
Definition my_text : string :=
  nl
  ++ ln "% Test inlist"
  ++ ln "% Author: John Doe"
  ++ ln EmptyString
  ++ ln "%%%%%%%%%%%%%%%%%%%%%%%%%"
  ++ ln "% set of test arguments %"
  ++ ln "%%%%%%%%%%%%%%%%%%%%%%%%%"
  ++ ln "% bool load checks"
  ++ ln "my_bool = True"
  ++ ln "my_capital_bool = FALSE"
  ++ ln "% int load check"
  ++ ln "my_int = 8"
  ++ ln "% list load check"
  ++ ln "my_list = [2,1,1,1,2]"
  ++ ln "my_list_second = [8.0,7.0,6.0]"
  ++ ln "% string load check"
  ++ ln "my_string = 'this is a string'"
  ++ ln "my_string_second = '/path/to/somewhere'"
  ++ ln "% float load check"
  ++ ln "my_float = 8.0"
  ++ ln "% generic comment load check"
  ++ ln "my_comment_load = 8%7%6"
  ++ indent.

(** The paths that the fixture writes, for the base temporary directory
    of the test session: [mktemp('my_data') / 'test.in'] and
    [getbasetemp() / 'defaults' / 'test.defaults']. *)
Definition my_path (base : string) : string := base ++ "/my_data0/test.in".
Definition my_path_default (base : string) : string :=
  base ++ "/defaults/test.defaults".

(** The file system after the fixture has run. *)
Definition fs (base : string) (path : string) : result string :=
  if String.eqb path (my_path base) then Return my_text
  else if String.eqb path (my_path_default base) then Return my_text
  else Raise OSError.

(** A base temporary directory as pytest names it. *)
Definition tmp : string := "/tmp/pytest-of-user/pytest-0".

(** [expected_output] of the test class. *)
Definition expected_output : gmap string value :=
  <["my_bool" := VBool true]>
  (<["my_capital_bool" := VBool false]>
  (<["my_int" := VInt 8]>
  (<["my_list" := VList [VInt 2; VInt 1; VInt 1; VInt 1; VInt 2]]>
  (<["my_list_second" := VList [VFloat (8 # 1); VFloat (7 # 1); VFloat (6 # 1)]]>
  (<["my_string" := VStr "this is a string"]>
  (<["my_string_second" := VStr "/path/to/somewhere"]>
  (<["my_float" := VFloat (8 # 1)]>
  (<["my_comment_load" := VInt 8]> ∅)))))))).

End Fixture.

(* ===================================================================== *)
(** ** [TomlInlistHandler] *)
(* ===================================================================== *)

(** The tree that [tomllib.load] returns: strings, integers, floats,
    booleans, dates and times (kept as their text), arrays and tables.
    [TNone] is Python's [None], which only the normalisation introduces.
    A table is a Python dictionary: the list of its items in insertion
    order, the order in which [items()] yields them. *)
#[warnings="-register-all"]
Inductive toml : Type :=
  | TStr (s : string)
  | TInt (z : Z)
  | TFloat (q : Q)
  | TBool (b : bool)
  | TDate (s : string)
  | TNone
  | TList (l : list toml)
  | TTable (d : list (string * toml)).

Module Toml.

(** A dictionary with its items in insertion order.  The keys of a
    dictionary are distinct, so assigning under the key of the item at hand
    rewrites that item where it stands. *)
Definition dict : Type := list (string * toml).

(** [d.get(key)] *)
Fixpoint get (key : string) (d : dict) : option toml :=
  match d with
  | [] => None
  | (k, val) :: d' => if String.eqb k key then Some val else get key d'
  end.

(** [val == {}] *)
Definition eq_empty_dict (val : toml) : bool :=
  match val with
  | TTable [] => true
  | _ => false
  end.

(** The [for key, val in parsed_dict.items()] loop.  [body key val] gives
    the value that the dictionary holds under [key] after the body has run
    and tells whether the body returned or raised; an exception ends the
    loop and leaves the items that follow as they are. *)
Fixpoint for_items (body : string -> toml -> toml * result unit)
    (items : dict) : dict * result unit :=
  match items with
  | [] => ([], Return tt)
  | (key, val) :: rest =>
      match body key val with
      | (val', Return _) =>
          let '(rest', r) := for_items body rest in ((key, val') :: rest', r)
      | (val', Raise e) => ((key, val') :: rest, Raise e)
      end
  end.

(** Python raises [RecursionError] when a call finds the stack of the
    interpreter exhausted.  Where that happens depends on the depth at which
    the method itself is called and on the interpreter, not on this code,
    so it is a parameter: [stack_overflow ks] tells whether the stack is
    exhausted when the entry at the position [ks] (the keys from the
    dictionary of the call downwards) is handled, be it in the comparison
    with [{}], in the instance check or on entering the recursive call, none
    of which has changed the entry yet; [stack_overflow []] is the call
    itself.

    [adjust_entry] is the body of the loop of [_adjust_for_none] for one
    entry, with the recursive call on a nested dictionary unfolded into it:
    the value that the dictionary holds under the key afterwards (the source
    mutates the nested dictionaries in place; a parse tree shares no
    sub-tables, so the mutation is the rebuilt tree), and the outcome. *)
Fixpoint adjust_entry (stack_overflow : list string -> bool) (val : toml)
    : toml * result unit :=
  if stack_overflow [] then (val, Raise RecursionError)
  else if eq_empty_dict val then (TNone, Return tt)
  else
    match val with
    | TTable d =>
        let '(d', r) :=
          for_items (fun key v =>
                       adjust_entry (fun ks => stack_overflow (key :: ks)) v) d in
        (TTable d', r)
    | _ => (val, Return tt)
    end.

(** [TomlInlistHandler._adjust_for_none]: the dictionary after the call
    and the outcome of the call. *)
Definition _adjust_for_none (stack_overflow : list string -> bool)
    (parsed_dict : dict) : dict * result unit :=
  if stack_overflow [] then (parsed_dict, Raise RecursionError)
  else
    for_items (fun key val =>
                 adjust_entry (fun ks => stack_overflow (key :: ks)) val)
              parsed_dict.

Section Loader.
(** [tomllib.load] on the file at a path: the parsed tree or the
    exception raised by [open] or by the parser. *)
Variable tomllib_load : string -> result dict.
(** The stack that the call of [_adjust_for_none] finds. *)
Variable stack_overflow : list string -> bool.

(** [TomlInlistHandler._parse_toml_inlist] *)
Definition _parse_toml_inlist (inlist_path : string) : result dict :=
  tomllib_load inlist_path.

(** [TomlInlistHandler.get_inlist_values] *)
Definition get_inlist_values (inlist_path : string) : result dict :=
  toml_input_data ← _parse_toml_inlist inlist_path;
  let '(toml_input_data, r) := _adjust_for_none stack_overflow toml_input_data in
  _ ← r; Return toml_input_data.
End Loader.

(** A position in a tree: through the entry of a table or through the
    element of an array. *)
Inductive step : Type :=
  | Key (k : string)
  | Idx (i : nat).

Fixpoint lookup_pos (p : list step) (v : toml) : option toml :=
  match p with
  | [] => Some v
  | Key k :: p' =>
      match v with
      | TTable d => get k d ≫= lookup_pos p'
      | _ => None
      end
  | Idx i :: p' =>
      match v with
      | TList l => l !! i ≫= lookup_pos p'
      | _ => None
      end
  end.

(** A position reached through tables only. *)
Definition keys (ks : list string) : list step := Key <$> ks.

End Toml.


(* ===================================================================== *)
(** ** Vocabulary of the statements *)
(* ===================================================================== *)

(** A quote character of either kind. *)
Definition is_quote (c : ascii) : bool := chr_eqb c squote || chr_eqb c dquote.

(** The first (last) character of a text satisfies [p]; false on the empty
    text. *)
Definition first_is (p : ascii -> bool) (s : string) : bool :=
  match s with
  | String c _ => p c
  | EmptyString => false
  end.

Fixpoint last_is (p : ascii -> bool) (s : string) : bool :=
  match s with
  | EmptyString => false
  | String c EmptyString => p c
  | String _ s' => last_is p s'
  end.

(** The text [inner] wrapped in the quote character [q]. *)
Definition quoted (q : ascii) (inner : string) : string :=
  String q (inner ++ str1 q).

(** Every character of a text satisfies [p]. *)
Fixpoint all_chars (p : ascii -> bool) (s : string) : bool :=
  match s with
  | EmptyString => true
  | String c s' => p c && all_chars p s'
  end.

(** What [compiled_float_regex.match] accepts, said without the matcher:
    the text starts with one or more digits, then [e] or [E], then any
    number of [-] (none included), then one or more digits; anything may
    follow. *)
Definition float_prefix (s : string) : Prop :=
  exists (ds : string) (c : ascii) (ms ds' rest : string),
    s = ds ++ String c (ms ++ ds' ++ rest)
    /\ ds <> EmptyString /\ all_chars is_digit ds = true
    /\ Re.e_or_E c = true
    /\ all_chars (Re.lit "-") ms = true
    /\ ds' <> EmptyString /\ all_chars is_digit ds' = true.

Module SpecC9.

Fixpoint drop_while (p : ascii -> bool) (s : string) : string :=
  match s with
  | String c s' => if p c then drop_while p s' else s
  | EmptyString => EmptyString
  end.

(** The exponent pattern in the words of C9: the whole token is one or
    more digits, [e] or [E], an optional single [-], one or more digits. *)
Definition whole_exponent_pattern (s : string) : bool :=
  first_is is_digit s &&
  match drop_while is_digit s with
  | String c r =>
      Re.e_or_E c &&
      (let r' := match r with String "-" t => t | _ => r end in
       first_is is_digit r' && all_chars is_digit r')
  | EmptyString => false
  end.

(** The Float condition in the words of C9. *)
Definition is_float (s : string) : bool :=
  str_in "." s || whole_exponent_pattern s.

End SpecC9.

(** Number of occurrences of a character in a text. *)
Fixpoint count_char (c : ascii) (s : string) : nat :=
  match s with
  | EmptyString => O
  | String a s' => (if chr_eqb a c then 1 else 0) + count_char c s'
  end.

(** What [compiled_regex_defaults.match] accepts, said without the matcher:
    before its first newline the path holds a slash, later a second slash
    and later still a dot. *)
Definition defaults_shape (path : string) : Prop :=
  exists a b c d : string,
    path = a ++ String "/" (b ++ String "/" (c ++ String "." d))
    /\ all_chars Re.dot a = true /\ all_chars Re.dot b = true
    /\ all_chars Re.dot c = true.

Module SpecC6.

(** The segments of a path between its slashes. *)
Fixpoint split_slash (cur : string) (s : string) : list string :=
  match s with
  | EmptyString => [cur]
  | String c s' =>
      if chr_eqb c "/" then cur :: split_slash EmptyString s'
      else split_slash (cur ++ str1 c) s'
  end.

(** A file name cut at its last dot: the name and the extension. *)
Fixpoint split_ext (s : string) : option (string * string) :=
  match s with
  | EmptyString => None
  | String c s' =>
      match split_ext s' with
      | Some (n, e) => Some (String c n, e)
      | None => if chr_eqb c "." then Some (EmptyString, s') else None
      end
  end.

(** The defaults path in the words of C6: the path is
    [<dir>/<subdir>/<name>.<ext>], with [<dir>] everything up to two path
    segments back and [<name>] the base file name without its extension;
    [None] when the path has not this shape. *)
Definition defaults_path (path : string) : option string :=
  match rev (split_slash EmptyString path) with
  | file :: _subdir :: dir_rev =>
      match split_ext file with
      | Some (name, _) =>
          Some (PyFile.join "/" (rev dir_rev) ++ "/defaults/" ++ name
                ++ ".defaults")
      | None => None
      end
  | _ => None
  end.

End SpecC6.

(** What is left for the lexer to hand out: the unread characters and the
    pushed-back tokens. *)
Definition lex_measure (lx : Shlex.shlex) : nat :=
  (String.length (Shlex.instream lx) + length (Shlex.pushback lx))%nat.

Definition b2n (b : bool) : nat := if b then 1%nat else 0%nat.

(** A small run: the defaults file sets [a] and [b], the run file sets [b]
    and [c]. *)
Module Overlay.

Definition run_path : string := "work/runs/case.in".
Definition defaults_path : string := "work/defaults/case.defaults".

Definition fs (path : string) : result string :=
  if String.eqb path run_path then
    Return ("b = 3" ++ str1 newline ++ "c = 4" ++ str1 newline)
  else if String.eqb path defaults_path then
    Return ("a = 1" ++ str1 newline ++ "b = 2" ++ str1 newline)
  else Raise OSError.

Definition defaults : gmap string value :=
  <["a" := VInt 1]> (<["b" := VInt 2]> ∅).
Definition entries : gmap string value :=
  <["b" := VInt 3]> (<["c" := VInt 4]> ∅).
Definition merged : gmap string value :=
  <["a" := VInt 1]> (<["b" := VInt 3]> (<["c" := VInt 4]> ∅)).

End Overlay.

(** The lexer that [_parse_inlist] sets up for the text of a file. *)
Definition lexer_for (text : string) : Shlex.shlex :=
  configure (Shlex.new (PyFile.join (str1 newline) (PyFile.readlines text))).

(** The word characters of the lexer as [_parse_inlist] sets it up. *)
Definition inlist_wordchars : string :=
  Shlex.wordchars (configure (Shlex.new EmptyString)).

(** A character that can stand inside a word token. *)
Definition is_token_char (c : ascii) : bool :=
  chr_in c inlist_wordchars || is_quote c.

(** The texts that the lexer of [_parse_inlist] can hand out as a token:
    at most one character, or a word (word and quote characters only), or a
    quotation (a quote character, a text without it, the same quote
    character). *)
Definition token_shape (s : string) : Prop :=
  (String.length s <= 1)%nat
  \/ all_chars is_token_char s = true
  \/ exists q t, is_quote q = true /\ count_char q t = O /\ s = quoted q t.

(** The lexer between two tokens, with the settings of [_parse_inlist]. *)
Definition lexer_ok (lx : Shlex.shlex) : Prop :=
  Shlex.wordchars lx = inlist_wordchars
  /\ Shlex.quotes lx = String squote (String dquote EmptyString)
  /\ (Shlex.state lx = Shlex.St_ws \/ Shlex.state lx = Shlex.St_eof)
  /\ Forall (fun t => (String.length t <= 1)%nat) (Shlex.pushback lx).

(** What the token under construction looks like in each state. *)
Definition acc_ok (st : Shlex.lex_state) (token : string) : Prop :=
  match st with
  | Shlex.St_eof => True
  | Shlex.St_ws => token = EmptyString
  | Shlex.St_word => all_chars is_token_char token = true
  | Shlex.St_quote q =>
      is_quote q = true
      /\ exists t, token = String q t /\ count_char q t = O
  end.

(** The nesting depth of tables in a tree (arrays are not descended, as
    [_adjust_for_none] does not descend them). *)
Fixpoint table_depth (v : toml) : nat :=
  match v with
  | TTable d => S (foldr (fun kv acc => Nat.max (table_depth kv.2) acc) O d)
  | _ => O
  end.

(** A stack that is exhausted at every position [n] or more keys down, and
    nowhere else. *)
Definition depth_limit (n : nat) (ks : list string) : bool :=
  (n <=? length ks)%nat.

(** The tree in which every empty table reached through tables is Null. *)
Fixpoint normalised (v : toml) : toml :=
  match v with
  | TTable [] => TNone
  | TTable d => TTable (map (fun kv => (kv.1, normalised kv.2)) d)
  | _ => v
  end.

(** The number written by a text of decimal digits, most significant
    first. *)
Fixpoint decimal_acc (acc : Z) (s : string) : Z :=
  match s with
  | EmptyString => acc
  | String c s' => decimal_acc (10 * acc + digit_val c) s'
  end.

Definition decimal_value (s : string) : Z := decimal_acc 0 s.

(** The text made of [n] times the character [c]. *)
Fixpoint repeat_char (c : ascii) (n : nat) : string :=
  match n with
  | O => EmptyString
  | S n' => String c (repeat_char c n')
  end.

(** A decimal digit or the minus sign. *)
Definition digit_or_minus (c : ascii) : bool := is_digit c || chr_eqb c "-".

(** A text with every newline doubled, except a newline that is its last
    character. *)
Fixpoint double_nl (s : string) : string :=
  match s with
  | EmptyString => EmptyString
  | String c s' =>
      if chr_eqb c newline then
        match s' with
        | EmptyString => str1 newline
        | String _ _ => String newline (String newline (double_nl s'))
        end
      else String c (double_nl s')
  end.

(* ===================================================================== *)
(** ** Files written line by line *)
(* ===================================================================== *)

(** The vocabulary for stating what [_parse_inlist] does on a file made of
    entry lines, comment lines and blank lines. *)
Module Lines.

(** A blank inside a line: a space or a tab. *)
Definition is_pad (c : ascii) : bool := chr_eqb c " " || chr_eqb c Shlex.tab.

(** A word character of the lexer of [_parse_inlist]. *)
Definition is_word_char (c : ascii) : bool := chr_in c inlist_wordchars.

(** The lexer of [_parse_inlist] before any text. *)
Definition base_lexer : Shlex.shlex := lexer_for EmptyString.

(** The whitespace and the comment character of that lexer. *)
Definition is_ws (c : ascii) : bool := chr_in c (Shlex.whitespace base_lexer).
Definition is_cmt (c : ascii) : bool := chr_in c (Shlex.commenters base_lexer).

(** The lexer at the start of a token, with the text [s] left to read, and
    the lexer at the end of the text. *)
Definition at_text (s : string) : Shlex.shlex :=
  Shlex.set_stream base_lexer s [] Shlex.St_ws.
Definition at_eof : Shlex.shlex :=
  Shlex.set_stream base_lexer EmptyString [] Shlex.St_eof.

(** A keyword or a value as it is written: a word, or a quotation. *)
Inductive tokn : Type :=
  | Word (w : string)
  | Quoted (q : ascii) (t : string).

Definition token_text (t : tokn) : string :=
  match t with
  | Word w => w
  | Quoted q t => quoted q t
  end.

(** A word starts with a word character and goes on with word or quote
    characters; a quotation holds neither its quote character nor a
    newline. *)
Definition wf_token (t : tokn) : Prop :=
  match t with
  | Word w => first_is is_word_char w = true /\ all_chars is_token_char w = true
  | Quoted q t =>
      is_quote q = true /\ count_char q t = O /\ count_char newline t = O
  end.

(** The end of a line: nothing, or [%] and the text of a comment. *)
Definition comment_text (c : option string) : string :=
  match c with
  | Some c => String "%" c
  | None => EmptyString
  end.

Definition wf_comment (c : option string) : Prop :=
  match c with
  | Some c => count_char newline c = O
  | None => True
  end.

(** A line of the file, without its newline: an entry
    [<ind><key><s1>=<s2><value><pad>] with an optional comment, or a line
    without entry ([<ind>] and an optional comment). *)
Inductive line : Type :=
  | Entry (ind : string) (key : tokn) (s1 s2 : string) (value : tokn)
          (pad : string) (comment : option string)
  | NoEntry (ind : string) (comment : option string).

Definition line_text (l : line) : string :=
  match l with
  | Entry ind key s1 s2 value pad comment =>
      ind ++ token_text key ++ s1 ++ String "=" (s2 ++ token_text value
        ++ pad ++ comment_text comment)
  | NoEntry ind comment => ind ++ comment_text comment
  end.

Definition wf_line (l : line) : Prop :=
  match l with
  | Entry ind key s1 s2 value pad comment =>
      all_chars is_pad ind = true /\ wf_token key
      /\ all_chars is_pad s1 = true /\ all_chars is_pad s2 = true
      /\ wf_token value /\ all_chars is_pad pad = true /\ wf_comment comment
  | NoEntry ind comment => all_chars is_pad ind = true /\ wf_comment comment
  end.

(** The text of a file: every line followed by a newline. *)
Fixpoint render (ls : list line) : string :=
  match ls with
  | [] => EmptyString
  | l :: ls' => line_text l ++ String newline (render ls')
  end.

(** The text that reaches the lexer for the lines [ls] followed by the
    text [rest] (itself as it reaches the lexer): a newline is doubled
    when something follows it. *)
Fixpoint stream (ls : list line) (rest : string) : string :=
  match ls with
  | [] => rest
  | l :: ls' =>
      line_text l
      ++ String newline
           match ls' with
           | [] => if Shlex.nonempty rest then String newline rest
                   else EmptyString
           | _ :: _ => String newline (stream ls' rest)
           end
  end.

(** What the lexer still has to read after the newline of a line. *)
Definition rest_after (ls : list line) (rest : string) : string :=
  match ls with
  | [] => if Shlex.nonempty rest then String newline rest else EmptyString
  | _ :: _ => String newline (stream ls rest)
  end.

(** The entries of a file in the order of its lines: the text of the
    keyword and the text of the value. *)
Fixpoint entries (ls : list line) : list (string * string) :=
  match ls with
  | [] => []
  | Entry _ key _ _ value _ _ :: ls' =>
      (token_text key, token_text value) :: entries ls'
  | NoEntry _ _ :: ls' => entries ls'
  end.

(** What follows a first stage that may have failed. *)
Definition and_then {A : Type} (r : option (result A))
    (k : A -> option (result A)) : option (result A) :=
  match r with
  | Some (Return a) => k a
  | _ => r
  end.

(** Typing and storing the entries one after the other, stopping at the
    first value that [_typer] rejects. *)
Fixpoint load_entries (lit : string -> result value)
    (es : list (string * string)) (d : gmap string value)
    : option (result (gmap string value)) :=
  match es with
  | [] => Some (Return d)
  | (k, v) :: es' =>
      match _typer lit v with
      | Return x => load_entries lit es' (<[k := x]> d)
      | Raise e => Some (Raise e)
      end
  end.

End Lines.

(* ===================================================================== *)
(** ** Files as token streams *)
(* ===================================================================== *)

(** The vocabulary for stating what [_parse_inlist] does on any file,
    without its loop: the token stream of the text and its load. *)
Module Tokens.

(** The tokens that the lexer hands out, one call of [get_token] after
    the other, up to the empty token that marks the end of the text or up
    to the error of the lexer, and how the stream ends.  [fuel] bounds the
    number of calls; [None] means it ran out. *)
Fixpoint read_all (fuel : nat) (lx : Shlex.shlex)
    : option (list string * result unit) :=
  match fuel with
  | O => None
  | S fuel' =>
      match Shlex.get_token lx with
      | Raise e => Some ([], Raise e)
      | Return (tok, lx') =>
          if Shlex.nonempty tok then
            '(toks, fin) ← read_all fuel' lx'; Some (tok :: toks, fin)
          else Some ([], Return tt)
      end
  end.

(** The tokens of the text of a file, cut by the lexer that
    [_parse_inlist] sets up; the bound is enough for every text. *)
Definition of_text (text : string) : option (list string * result unit) :=
  read_all (lex_fuel (lexer_for text)) (lexer_for text).

(** The tokens taken three by three, keyword, sign and value: the
    entries, and the tokens left over at the end (none, a keyword, or a
    keyword and a sign). *)
Fixpoint triples (toks : list string) : list (string * string) * list string :=
  match toks with
  | k :: _ :: v :: rest =>
      let '(es, rest') := triples rest in ((k, v) :: es, rest')
  | _ => ([], toks)
  end.

(** The end of a token stream: the error of the lexer if it ended on
    one; otherwise a keyword left without value gets the empty token of the
    end of the text as its value. *)
Definition finish (lit : string -> result value) (fin : result unit)
    (rest : list string) (d : gmap string value)
    : option (result (gmap string value)) :=
  match fin with
  | Raise e => Some (Raise e)
  | Return _ =>
      match rest with
      | [] => Some (Return d)
      | k :: _ => Lines.load_entries lit [(k, EmptyString)] d
      end
  end.

(** Loading a token stream: the entries typed and stored one after the
    other, then the end of the stream; the first error met, in reading
    order, is the outcome. *)
Definition load (lit : string -> result value) (toks : list string)
    (fin : result unit) (d : gmap string value)
    : option (result (gmap string value)) :=
  let '(es, rest) := triples toks in
  Lines.and_then (Lines.load_entries lit es d) (finish lit fin rest).

(** Loading a file: the error of opening it, or the load of its
    tokens. *)
Definition load_file (lit : string -> result value)
    (fs : string -> result string) (path : string) (d : gmap string value)
    : option (result (gmap string value)) :=
  match fs path with
  | Raise e => Some (Raise e)
  | Return text => '(toks, fin) ← of_text text; load lit toks fin d
  end.

End Tokens.

(** The lexer between two tokens, with only non-empty tokens pushed
    back. *)
Definition lexer_between (lx : Shlex.shlex) : Prop :=
  (Shlex.state lx = Shlex.St_ws \/ Shlex.state lx = Shlex.St_eof)
  /\ Forall (fun t => Shlex.nonempty t = true) (Shlex.pushback lx).

(** The lexer after it has handed out the end of the text. *)
Definition lexer_at_end (lx : Shlex.shlex) : Prop :=
  Shlex.state lx = Shlex.St_eof /\ Shlex.pushback lx = [].

(** A small run whose run file holds, between two good entries, a value
    that is no literal of any kind. *)
Module Rejected.

Definition run_path : string := "work/runs/case.in".
Definition defaults_path : string := "work/defaults/case.defaults".

Definition fs (path : string) : result string :=
  if String.eqb path run_path then
    Return ("b = 3" ++ str1 newline ++ "c = x1" ++ str1 newline
            ++ "d = 5" ++ str1 newline)
  else if String.eqb path defaults_path then
    Return ("a = 1" ++ str1 newline)
  else Raise OSError.

End Rejected.


(* ===================================================================== *)
(** * Properties *)
(* ===================================================================== *)

(** ** The embedded functions on concrete inputs *)

Example float_regex_1 : compiled_float_regex_match "1e5" = Some tt.
Proof. reflexivity. Qed.

Example float_regex_2 : compiled_float_regex_match "12E--5x" = Some tt.
Proof. reflexivity. Qed.

Example float_regex_3 : compiled_float_regex_match "e5" = None.
Proof. reflexivity. Qed.

Example defaults_regex_1 :
  compiled_regex_defaults_match "/tmp/base/my_data0/test.in"
  = Some ("/tmp/base", "test").
Proof. reflexivity. Qed.

Example defaults_regex_2 :
  compiled_regex_defaults_match "x/a/b.c/d" = Some ("x", "b").
Proof. reflexivity. Qed.

Example defaults_regex_3 : compiled_regex_defaults_match "a/test.in" = None.
Proof. reflexivity. Qed.

Example literal_eval_1 :
  LiteralEval.literal_eval "[2,1,1,1,2]"
  = Return (VList [VInt 2; VInt 1; VInt 1; VInt 1; VInt 2]).
Proof. reflexivity. Qed.

Example literal_eval_2 :
  LiteralEval.literal_eval "[8.0,7.0,6.0]"
  = Return (VList [VFloat (8 # 1); VFloat (7 # 1); VFloat (6 # 1)]).
Proof. reflexivity. Qed.

Example literal_eval_3 :
  LiteralEval.literal_eval "1e5,2" = Return (VTuple [VFloat (100000 # 1); VInt 2]).
Proof. reflexivity. Qed.

Example literal_eval_4 : LiteralEval.literal_eval "1.2.3" = Raise SyntaxError.
Proof. reflexivity. Qed.

Example literal_eval_5 : LiteralEval.literal_eval "1e--5" = Raise SyntaxError.
Proof. reflexivity. Qed.

Example literal_eval_6 :
  LiteralEval.literal_eval "(-2.5e-1,['a',(None)],)"
  = Return (VTuple [VFloat (-1 # 4); VList [VStr "a"; VNone]]).
Proof. reflexivity. Qed.

Example toml_fixture :
  Toml._adjust_for_none (depth_limit 1000)
    [("my-table", TTable [("my-version", TStr "3.11");
                          ("my-implementation", TStr "TEST");
                          ("my-none", TTable [])])]
  = ([("my-table", TTable [("my-version", TStr "3.11");
                           ("my-implementation", TStr "TEST");
                           ("my-none", TNone)])], Return tt).
Proof. vm_compute. reflexivity. Qed.

(** A call that finds the stack exhausted two keys down stops there and
    leaves the empty table in place. *)
Example toml_overflow :
  Toml._adjust_for_none (depth_limit 2) [("a", TTable [("b", TTable [])])]
  = ([("a", TTable [("b", TTable [])])], Raise RecursionError).
Proof. vm_compute. reflexivity. Qed.

(** ** Unfolding the typing checks *)

Lemma string_check_eq (s : string) :
  string_check s = Return (str_in (str1 squote) s || str_in (str1 dquote) s).
Proof. unfold string_check, _multi_check_method; simpl. by rewrite orb_false_r. Qed.

Lemma bool_check_eq (s : string) :
  bool_check s
  = Return (str_in "False" s || str_in "FALSE" s
            || str_in "True" s || str_in "TRUE" s).
Proof.
  unfold bool_check, _multi_check_method; simpl.
  by rewrite orb_false_r, !orb_assoc.
Qed.

Lemma bool_false_check_eq (s : string) :
  bool_false_check s = Return (str_in "False" s || str_in "FALSE" s).
Proof. unfold bool_false_check, _multi_check_method; simpl. by rewrite orb_false_r. Qed.

Lemma list_check_eq (s : string) :
  list_check s = Return (str_in "[" s && str_in "]" s).
Proof. unfold list_check, _multi_check_method; simpl. by rewrite andb_true_r. Qed.

Lemma tuple_check_eq (s : string) :
  tuple_check s = Return (str_in "(" s && str_in ")" s).
Proof. unfold tuple_check, _multi_check_method; simpl. by rewrite andb_true_r. Qed.

Lemma none_check_eq (s : string) : none_check s = Return (str_in "None" s).
Proof. unfold none_check, _multi_check_method; simpl. by rewrite andb_true_r. Qed.

Lemma float_check_eq (s : string) : float_check s = Return (str_in "." s).
Proof. unfold float_check, _multi_check_method; simpl. by rewrite andb_true_r. Qed.

(** [_typer] as one chain of tests on the text. *)
Lemma _typer_unfold (lit : string -> result value) (s : string) :
  _typer lit s =
  if str_in (str1 squote) s || str_in (str1 dquote) s then
    if str_in "[" s && str_in "]" s then lit s
    else Return (VStr (strip squote (strip dquote s)))
  else if str_in "False" s || str_in "FALSE" s
          || str_in "True" s || str_in "TRUE" s then
    Return (VBool (negb (str_in "False" s || str_in "FALSE" s)))
  else if str_in "None" s then Return VNone
  else if str_in "[" s && str_in "]" s then lit s
  else if str_in "(" s && str_in ")" s then lit s
  else if str_in "." s || truthy (compiled_float_regex_match s) then lit s
  else VInt <$> PyInt.int s.
Proof.
  unfold _typer.
  rewrite string_check_eq, bool_check_eq, bool_false_check_eq, list_check_eq,
    tuple_check_eq, none_check_eq, float_check_eq.
  cbn [mbind result_bind].
  repeat (case_match; try reflexivity).
Qed.

(** ** Booleans and the null token *)

(** C4. For a token without a quote character that contains one of
    [False], [FALSE], [True], [TRUE] as a substring, [_typer] returns a
    Boolean: [False] when the token contains [False] or [FALSE] (whatever
    else it contains), [True] otherwise.  In particular ["FALSE"] gives
    [False] and ["True"] gives [True]. *)
Theorem C4_boolean_substring_rule (lit : string -> result value) :
  (forall s : string,
      str_in (str1 squote) s = false ->
      str_in (str1 dquote) s = false ->
      str_in "False" s || str_in "FALSE" s
        || str_in "True" s || str_in "TRUE" s = true ->
      _typer lit s
      = Return (VBool (negb (str_in "False" s || str_in "FALSE" s))))
  /\ _typer lit "FALSE" = Return (VBool false)
  /\ _typer lit "True" = Return (VBool true).
Proof.
  split; [|split; reflexivity].
  intros s Hs Hd Hb. rewrite _typer_unfold, Hs, Hd, Hb. reflexivity.
Qed.

Lemma C4_boolean_substring_rule_witness :
  _typer LiteralEval.literal_eval "NotTrueButFalse" = Return (VBool false).
Proof.
  apply (proj1 (C4_boolean_substring_rule LiteralEval.literal_eval)
           "NotTrueButFalse"); reflexivity.
Defined.

(** C5, as stated, fails: the null rule is a substring test, so the token
    [None1], which has no quote character and no boolean substring and is
    not the text [None], is typed as Null. *)
Lemma C5_counterexample :
  str_in (str1 squote) "None1" = false
  /\ str_in (str1 dquote) "None1" = false
  /\ str_in "False" "None1" || str_in "FALSE" "None1"
       || str_in "True" "None1" || str_in "TRUE" "None1" = false
  /\ "None1" <> "None"
  /\ _typer LiteralEval.literal_eval "None1" = Return VNone.
Proof. repeat split; try reflexivity. discriminate. Qed.

(** C5, amended. For a token without a quote character and without a
    boolean substring, [_typer] returns Null whenever the token contains
    [None] as a substring; for a token that does not contain it, the null
    rule does not apply and the result is Null only if the literal
    evaluator, to which lists, tuples and floats are handed, returns Null
    itself. *)
Theorem C5_null_is_substring_rule (lit : string -> result value) (s : string) :
  str_in (str1 squote) s = false ->
  str_in (str1 dquote) s = false ->
  str_in "False" s || str_in "FALSE" s
    || str_in "True" s || str_in "TRUE" s = false ->
  (str_in "None" s = true -> _typer lit s = Return VNone)
  /\ (str_in "None" s = false ->
      _typer lit s = Return VNone -> lit s = Return VNone).
Proof.
  intros Hs Hd Hb. rewrite _typer_unfold, Hs, Hd, Hb. cbn [orb].
  split; intros Hn; rewrite Hn; [reflexivity|].
  repeat case_match; try done.
  destruct (PyInt.int s); discriminate.
Qed.

Lemma C5_null_is_substring_rule_witness :
  _typer LiteralEval.literal_eval "None1" = Return VNone.
Proof.
  apply (C5_null_is_substring_rule LiteralEval.literal_eval "None1");
    reflexivity.
Defined.

(** ** TOML: empty tables become Null *)

Section TomlFacts.
Import Toml.
Implicit Types (so : list string -> bool) (d : dict) (v w : toml)
  (body : string -> toml -> toml * result unit).

(** Induction on a tree along its tables. *)
Lemma toml_table_ind (P : toml -> Prop) :
  (forall v, (forall d, v <> TTable d) -> P v) ->
  (forall d, Forall (fun kv => P kv.2) d -> P (TTable d)) ->
  forall v, P v.
Proof.
  intros Hs Ht. fix IH 1. intros [s|z|q|b|s| |l|d]; try (apply Hs; discriminate).
  apply Ht. induction d as [|[k v] d IHd]; constructor; [apply IH|apply IHd].
Qed.

Lemma for_items_cons body (key : string) v d :
  for_items body ((key, v) :: d)
  = match body key v with
    | (val', Return _) =>
        ((key, val') :: (for_items body d).1, (for_items body d).2)
    | (val', Raise e) => ((key, val') :: d, Raise e)
    end.
Proof.
  cbn [for_items]. destruct (body key v) as [val' [[]|e]]; [|reflexivity].
  by destruct (for_items body d).
Qed.

(** The loop keeps the keys and their order. *)
Lemma for_items_keys body d : (for_items body d).1.*1 = d.*1.
Proof.
  induction d as [|[k v] d IH]; [reflexivity|]. rewrite for_items_cons.
  destruct (body k v) as [val' [[]|e]]; cbn; [by rewrite IH|reflexivity].
Qed.

(** Under a key the loop leaves the value as it was, or what the body
    made of it. *)
Lemma for_items_get body d (k : string) :
  get k (for_items body d).1 = get k d
  \/ get k (for_items body d).1 = (fun u => (body k u).1) <$> get k d.
Proof.
  induction d as [|[k0 v0] d IH]; [by left|]. rewrite for_items_cons.
  destruct (body k0 v0) as [val' r] eqn:Hb.
  assert (get k ((k0, val') :: d) = get k ((k0, v0) :: d)
          \/ get k ((k0, val') :: d)
             = (fun u => (body k u).1) <$> get k ((k0, v0) :: d)) as Hstop.
  { cbn [get]. destruct (String.eqb k0 k) eqn:Hk; [|by left].
    apply String.eqb_eq in Hk as ->. right. cbn. by rewrite Hb. }
  destruct r as [[]|e]; [|exact Hstop]. cbn [fst get].
  destruct (String.eqb k0 k) eqn:Hk; [|exact IH].
  apply String.eqb_eq in Hk as ->. right. cbn. by rewrite Hb.
Qed.

(** When the loop runs to its end every value is what the body made of
    it. *)
Lemma for_items_Return body d :
  (for_items body d).2 = Return tt ->
  (for_items body d).1 = (fun kv => (kv.1, (body kv.1 kv.2).1)) <$> d
  /\ Forall (fun kv => (body kv.1 kv.2).2 = Return tt) d.
Proof.
  induction d as [|[k v] d IH]; [done|]. rewrite for_items_cons.
  destruct (body k v) as [val' [[]|e]] eqn:Hb; [|done]. cbn [fst snd].
  intros [-> HF]%IH. split; [cbn; by rewrite Hb|].
  constructor; [cbn; by rewrite Hb|done].
Qed.

Lemma for_items_all_Return body d :
  Forall (fun kv => (body kv.1 kv.2).2 = Return tt) d ->
  (for_items body d).2 = Return tt.
Proof.
  induction 1 as [|[k v] d Hkv _ IH]; [done|]. rewrite for_items_cons.
  cbn in Hkv. destruct (body k v) as [val' r]. cbn in Hkv. subst r. exact IH.
Qed.

(** A body that changes no value makes a loop that changes none,
    wherever it stops. *)
Lemma for_items_id body d :
  Forall (fun kv => (body kv.1 kv.2).1 = kv.2) d -> (for_items body d).1 = d.
Proof.
  induction 1 as [|[k v] d Hkv _ IH]; [done|]. rewrite for_items_cons.
  cbn in Hkv. destruct (body k v) as [val' [[]|e]]; cbn in *; subst val';
    [by rewrite IH|done].
Qed.

(** The loop raises what its body raises. *)
Lemma for_items_raise body d (e : exn) :
  (for_items body d).2 = Raise e ->
  exists k v, (body k v).2 = Raise e.
Proof.
  induction d as [|[k v] d IH]; [done|]. rewrite for_items_cons.
  destruct (body k v) as [val' [[]|e']] eqn:Hb; cbn [snd].
  - exact IH.
  - intros [= ->]. exists k, v. by rewrite Hb.
Qed.

(** If the body raises on the value under a key, the loop raises. *)
Lemma for_items_raise_at body d (k : string) (u : toml) :
  get k d = Some u -> (exists e, (body k u).2 = Raise e) ->
  exists e, (for_items body d).2 = Raise e.
Proof.
  intros Hk Hu. induction d as [|[k0 v0] d IH]; [done|].
  rewrite for_items_cons. cbn [get] in Hk.
  destruct (body k0 v0) as [val' [[]|e']] eqn:Hb; [|by eexists].
  destruct (String.eqb k0 k) eqn:Hk0.
  - apply String.eqb_eq in Hk0 as ->. injection Hk as ->.
    destruct Hu as [e He]. rewrite Hb in He. done.
  - cbn [snd]. by apply IH.
Qed.

Lemma adjust_entry_unfold so v :
  adjust_entry so v
  = if so [] then (v, Raise RecursionError)
    else if eq_empty_dict v then (TNone, Return tt)
    else
      match v with
      | TTable d =>
          (TTable (_adjust_for_none so d).1, (_adjust_for_none so d).2)
      | _ => (v, Return tt)
      end.
Proof.
  destruct v; cbn [adjust_entry]; try reflexivity.
  unfold _adjust_for_none. destruct (so []) eqn:Hso; [reflexivity|].
  destruct (eq_empty_dict (TTable d)); [reflexivity|].
  by destruct (for_items _ d).
Qed.

Lemma adjust_entry_not_table so v :
  (forall d, v <> TTable d) -> (adjust_entry so v).1 = v.
Proof.
  intros Hv. rewrite adjust_entry_unfold. destruct (so []); [done|].
  destruct v; try reflexivity. by destruct (Hv d).
Qed.

(** The only exception is [RecursionError]. *)
Lemma adjust_entry_raise v :
  forall so (e : exn), (adjust_entry so v).2 = Raise e -> e = RecursionError.
Proof.
  induction v as [v Hv|d IH] using toml_table_ind; intros so e.
  - rewrite adjust_entry_unfold. destruct (so []); [by intros [= <-]|].
    destruct v; try done. by destruct (Hv d).
  - rewrite adjust_entry_unfold. destruct (so []); [by intros [= <-]|].
    destruct (eq_empty_dict (TTable d)); [done|]. cbn [snd].
    unfold _adjust_for_none. destruct (so []); [by intros [= <-]|].
    revert IH. induction d as [|[k v] d IHd]; [done|].
    intros [Hv Hd]%Forall_cons. rewrite for_items_cons. cbv beta.
    cbn [snd] in Hv. specialize (Hv (fun ks => so (k :: ks))).
    destruct (adjust_entry (fun ks => so (k :: ks)) v) as [val' [[]|e']]; cbn [snd].
    + by apply IHd.
    + intros [= ->]. by apply Hv.
Qed.

Lemma _adjust_for_none_raise so d (e : exn) :
  (_adjust_for_none so d).2 = Raise e -> e = RecursionError.
Proof.
  unfold _adjust_for_none. destruct (so []); [by intros [= <-]|].
  intros (k & v & H)%for_items_raise. by eapply adjust_entry_raise.
Qed.

Lemma _adjust_for_none_keys so d : (_adjust_for_none so d).1.*1 = d.*1.
Proof.
  unfold _adjust_for_none. destruct (so []); [done|]. apply for_items_keys.
Qed.

(** What one entry looks like afterwards. *)
Lemma adjust_entry_shape so v :
  (adjust_entry so v).1 = v
  \/ (v = TTable [] /\ (adjust_entry so v).1 = TNone)
  \/ (exists d d', v = TTable d /\ d <> [] /\ (adjust_entry so v).1 = TTable d'
                   /\ d'.*1 = d.*1).
Proof.
  rewrite adjust_entry_unfold. destruct (so []); [by left|].
  destruct v as [s|z|q|b|s| |l|d]; try by left.
  destruct d as [|kv d]; [right; by left|]. cbn [eq_empty_dict fst].
  right; right. eexists _, _. split; [done|]. split; [done|]. split; [done|].
  apply _adjust_for_none_keys.
Qed.

(** Reading the tree after the call at a position reached through tables
    gives the value that was there, or what the body of the loop made of
    it. *)
Lemma lookup_keys_adjust_entry (ks : list string) :
  forall so v,
    lookup_pos (keys ks) (adjust_entry so v).1 = lookup_pos (keys ks) v
    \/ exists so',
         lookup_pos (keys ks) (adjust_entry so v).1
         = (fun w => (adjust_entry so' w).1) <$> lookup_pos (keys ks) v.
Proof.
  induction ks as [|k ks IH]; intros so v; [right; by exists so|].
  rewrite adjust_entry_unfold. destruct (so []) eqn:Hso; [by left|].
  destruct v as [s|z|q|b|s| |l|d]; try by left.
  destruct d as [|kv d]; [by left|]. cbn [eq_empty_dict fst].
  cbn [keys fmap list_fmap lookup_pos]. unfold _adjust_for_none. rewrite Hso.
  destruct (for_items_get
              (fun key val => adjust_entry (fun ks => so (key :: ks)) val)
              (kv :: d) k) as [-> | ->]; [by left|].
  destruct (get k (kv :: d)) as [u|]; [|by left]. cbn.
  apply IH.
Qed.

Lemma lookup_keys_adjust (ks : list string) so d :
  ks <> [] ->
  lookup_pos (keys ks) (TTable (_adjust_for_none so d).1)
  = lookup_pos (keys ks) (TTable d)
  \/ exists so',
       lookup_pos (keys ks) (TTable (_adjust_for_none so d).1)
       = (fun w => (adjust_entry so' w).1) <$> lookup_pos (keys ks) (TTable d).
Proof.
  intros Hne. destruct ks as [|k ks]; [done|].
  cbn [keys fmap list_fmap lookup_pos]. unfold _adjust_for_none.
  destruct (so []); [by left|].
  destruct (for_items_get
              (fun key val => adjust_entry (fun ks => so (key :: ks)) val)
              d k) as [-> | ->]; [by left|].
  destruct (get k d) as [u|]; [|by left]. cbn.
  apply lookup_keys_adjust_entry.
Qed.

End TomlFacts.

Section TomlRuns.
Import Toml.
Implicit Types (so : list string -> bool) (d : dict) (v w : toml).

Lemma table_depth_in (k : string) v d :
  (k, v) ∈ d -> (table_depth v < table_depth (TTable d))%nat.
Proof.
  cbn [table_depth]. intros Hin. apply Nat.lt_succ_r.
  induction d as [|kv d IH]; [by apply elem_of_nil in Hin|].
  apply elem_of_cons in Hin as [<-|Hin]; cbn [foldr snd]; [lia|].
  specialize (IH Hin). lia.
Qed.

Lemma normalised_not_table v : (forall d, v <> TTable d) -> normalised v = v.
Proof. intros Hv. destruct v; try reflexivity. by destruct (Hv d). Qed.

Lemma normalised_table d :
  d <> [] -> normalised (TTable d) = TTable ((fun kv => (kv.1, normalised kv.2)) <$> d).
Proof. by destruct d. Qed.

(** A call that returns has normalised the whole tree. *)
Lemma adjust_entry_Return v :
  forall so, (adjust_entry so v).2 = Return tt ->
             (adjust_entry so v).1 = normalised v.
Proof.
  induction v as [v Hv|d IH] using toml_table_ind; intros so.
  - intros _. by rewrite adjust_entry_not_table, normalised_not_table.
  - rewrite adjust_entry_unfold. destruct (so []) eqn:Hso; [done|].
    destruct d as [|kv d]; [done|]. cbn [eq_empty_dict fst snd].
    unfold _adjust_for_none. rewrite Hso.
    intros [-> HF]%for_items_Return. rewrite normalised_table by done.
    f_equal. apply list_fmap_ext. intros i [k u] Hi. cbn [fst snd]. f_equal.
    rewrite Forall_lookup in IH. rewrite Forall_lookup in HF.
    apply (IH i _ Hi). apply (HF i _ Hi).
Qed.

Lemma _adjust_for_none_Return so d :
  (_adjust_for_none so d).2 = Return tt ->
  (_adjust_for_none so d).1 = (fun kv => (kv.1, normalised kv.2)) <$> d.
Proof.
  unfold _adjust_for_none. destruct (so []); [done|].
  intros [-> HF]%for_items_Return.
  apply list_fmap_ext. intros i [k u] Hi. cbn [fst snd]. f_equal.
  rewrite Forall_lookup in HF. apply adjust_entry_Return, (HF i _ Hi).
Qed.

(** With room on the stack for the depth of the tree the call returns. *)
Lemma adjust_entry_room v :
  forall so,
    (forall ks, (length ks <= table_depth v)%nat -> so ks = false) ->
    (adjust_entry so v).2 = Return tt.
Proof.
  induction v as [v Hv|d IH] using toml_table_ind; intros so Hso.
  - rewrite adjust_entry_unfold, (Hso []) by (cbn; lia).
    destruct v; try done. by destruct (Hv d).
  - rewrite adjust_entry_unfold, (Hso []) by (cbn; lia).
    destruct (eq_empty_dict (TTable d)); [done|]. cbn [snd].
    unfold _adjust_for_none. rewrite (Hso []) by (cbn; lia).
    apply for_items_all_Return. rewrite Forall_forall in IH.
    apply Forall_forall. intros [k u] Hin. cbn [fst snd].
    apply (IH _ Hin). intros ks Hks. apply Hso.
    pose proof (table_depth_in k u d Hin). cbn [snd] in Hks. cbn [length]. lia.
Qed.

Lemma _adjust_for_none_room so d :
  (forall ks, (length ks <= table_depth (TTable d))%nat -> so ks = false) ->
  (_adjust_for_none so d).2 = Return tt.
Proof.
  intros Hso. pose proof (adjust_entry_room (TTable d) so Hso) as H.
  rewrite adjust_entry_unfold in H. unfold _adjust_for_none in *.
  destruct (so []); [done|]. destruct d; [done|]. exact H.
Qed.

(** An exhausted stack at a position of the tree stops the call. *)
Lemma adjust_entry_overflow (ks : list string) :
  forall so v w,
    lookup_pos (keys ks) v = Some w -> so ks = true ->
    (adjust_entry so v).2 = Raise RecursionError.
Proof.
  induction ks as [|k ks IH]; intros so v w Hw Hso.
  - rewrite adjust_entry_unfold. by rewrite Hso.
  - enough (exists e, (adjust_entry so v).2 = Raise e) as [e He].
    { by rewrite He, (adjust_entry_raise _ _ _ He). }
    rewrite adjust_entry_unfold. destruct (so []) eqn:Hso0; [by eexists|].
    destruct v as [s|z|q|b|s| |l|d]; try done.
    cbn [keys fmap list_fmap lookup_pos] in Hw.
    destruct (get k d) as [u|] eqn:Hk; [|done]. cbn in Hw.
    destruct d as [|kv d]; [done|]. cbn [eq_empty_dict snd].
    unfold _adjust_for_none. rewrite Hso0.
    apply (for_items_raise_at _ _ k u Hk). eexists. by eapply IH.
Qed.

Lemma _adjust_for_none_overflow (ks : list string) so d w :
  lookup_pos (keys ks) (TTable d) = Some w -> so ks = true ->
  (_adjust_for_none so d).2 = Raise RecursionError.
Proof.
  intros Hw Hso. pose proof (adjust_entry_overflow ks so _ w Hw Hso) as H.
  rewrite adjust_entry_unfold in H. unfold _adjust_for_none in *.
  destruct (so []) eqn:Hso0; [done|]. destruct d as [|kv d]; [|exact H].
  destruct ks as [|k ks]; [congruence|done].
Qed.

(** On a normalised tree the call changes nothing, wherever it stops. *)
Lemma adjust_normalised v :
  forall so, (adjust_entry so (normalised v)).1 = normalised v.
Proof.
  induction v as [v Hv|d IH] using toml_table_ind; intros so.
  - rewrite normalised_not_table by done. by apply adjust_entry_not_table.
  - destruct d as [|kv d]; [by apply adjust_entry_not_table|].
    rewrite normalised_table by done. rewrite adjust_entry_unfold.
    destruct (so []) eqn:Hso; [done|].
    destruct ((fun kv0 => (kv0.1, normalised kv0.2)) <$> kv :: d)
      as [|p l] eqn:E; [done|].
    cbn [eq_empty_dict fst]. rewrite <- E. f_equal.
    unfold _adjust_for_none. rewrite Hso.
    apply for_items_id. apply Forall_fmap. eapply Forall_impl; [exact IH|].
    intros [k u] Hu. cbn. apply Hu.
Qed.

Lemma get_fmap (f : toml -> toml) (k : string) d :
  get k ((fun kv => (kv.1, f kv.2)) <$> d) = f <$> get k d.
Proof.
  induction d as [|[k0 v0] d IH]; [done|]. cbn [fmap list_fmap get fst snd].
  destruct (String.eqb k0 k); [done|exact IH].
Qed.

Lemma lookup_keys_normalised (ks : list string) :
  forall v, lookup_pos (keys ks) (normalised v)
            = normalised <$> lookup_pos (keys ks) v.
Proof.
  induction ks as [|k ks IH]; intros v; [done|].
  destruct v as [s|z|q|b|s| |l|d]; try done.
  destruct d as [|kv d]; [done|]. rewrite normalised_table by done.
  change (keys (k :: ks)) with (Key k :: keys ks). cbn [lookup_pos].
  rewrite get_fmap. destruct (get k (kv :: d)) as [u|]; [|done]. cbn.
  apply IH.
Qed.

Lemma lookup_keys_normalised_dict (ks : list string) d :
  ks <> [] ->
  lookup_pos (keys ks) (TTable ((fun kv => (kv.1, normalised kv.2)) <$> d))
  = normalised <$> lookup_pos (keys ks) (TTable d).
Proof.
  intros Hne. destruct d as [|kv d].
  - destruct ks; done.
  - rewrite <- lookup_keys_normalised. by rewrite normalised_table.
Qed.

Lemma normalised_not_empty_table v : normalised v <> TTable [].
Proof. destruct v as [s|z|q|b|s| |l|d]; try done. by destruct d. Qed.

Lemma same_keys_nonempty (d d' : dict) : d'.*1 = d.*1 -> d <> [] -> d' <> [].
Proof. by destruct d, d'. Qed.

End TomlRuns.

(** C8, as stated, fails for a table inside an array.  The tree of the TOML
    text [a = [{b = {}}]] has the entry [b], whose value is an empty table,
    at the position [a], element 0, [b]; [get_inlist_values] returns the
    tree with that entry still an empty table, because [_adjust_for_none]
    descends through tables only. *)
Lemma C8_counterexample :
  let tree : Toml.dict := [("a", TList [TTable [("b", TTable [])]])] in
  let pos := [Toml.Key "a"; Toml.Idx 0; Toml.Key "b"] in
  Toml.lookup_pos pos (TTable tree) = Some (TTable [])
  /\ exists out,
       Toml.get_inlist_values (fun _ => Return tree) (depth_limit 1000)
         "run.toml" = Return out
       /\ Toml.lookup_pos pos (TTable out) = Some (TTable [])
       /\ Toml.lookup_pos pos (TTable out) <> Some TNone.
Proof.
  split; [reflexivity|]. eexists. split; [vm_compute; reflexivity|].
  split; [vm_compute; reflexivity|]. vm_compute. discriminate.
Qed.

(** C8, amended. When the stack has room for the nesting of the parsed
    tree, [TomlInlistHandler.get_inlist_values] returns the tree in which,
    at every position reached through nested tables: an entry whose value
    was an empty table is Null; an entry whose value was a non-empty table
    is still a table with the same keys; an entry with any other value (a
    scalar or an array, empty or not, with whatever it contains) is
    unchanged.  When the stack is exhausted at a position of the tree, the
    call raises [RecursionError] and returns nothing. *)
Theorem C8_empty_tables_become_null
    (tomllib_load : string -> result Toml.dict)
    (stack_overflow : list string -> bool)
    (inlist_path : string) (tree : Toml.dict) :
  tomllib_load inlist_path = Return tree ->
  ((forall ks, (length ks <= table_depth (TTable tree))%nat ->
               stack_overflow ks = false) ->
   exists out : Toml.dict,
     Toml.get_inlist_values tomllib_load stack_overflow inlist_path = Return out
     /\ forall (ks : list string) (v : toml),
          ks <> [] ->
          Toml.lookup_pos (Toml.keys ks) (TTable tree) = Some v ->
          (v = TTable [] ->
           Toml.lookup_pos (Toml.keys ks) (TTable out) = Some TNone)
          /\ (forall d, v = TTable d -> d <> [] ->
              exists d', Toml.lookup_pos (Toml.keys ks) (TTable out)
                         = Some (TTable d')
                         /\ d'.*1 = d.*1)
          /\ ((forall d, v <> TTable d) ->
              Toml.lookup_pos (Toml.keys ks) (TTable out) = Some v))
  /\ (forall (ks : list string) (v : toml),
        Toml.lookup_pos (Toml.keys ks) (TTable tree) = Some v ->
        stack_overflow ks = true ->
        Toml.get_inlist_values tomllib_load stack_overflow inlist_path
        = Raise RecursionError).
Proof.
  intros Hload. unfold Toml.get_inlist_values, Toml._parse_toml_inlist.
  rewrite Hload. cbn [mbind result_bind]. split.
  - intros Hroom. pose proof (_adjust_for_none_room _ _ Hroom) as Hret.
    pose proof (_adjust_for_none_Return _ _ Hret) as Hout.
    destruct (Toml._adjust_for_none stack_overflow tree) as [out r].
    cbn [fst snd] in *. subst r out. eexists. split; [reflexivity|].
    intros ks v Hne Hv. rewrite lookup_keys_normalised_dict, Hv by done.
    cbn [fmap option_fmap option_map]. split; [|split].
    + by intros ->.
    + intros d -> Hd. rewrite normalised_table by done.
      eexists. split; [reflexivity|]. by rewrite <- list_fmap_compose.
    + intros Hnt. by rewrite normalised_not_table.
  - intros ks v Hv Hso.
    pose proof (_adjust_for_none_overflow ks _ _ v Hv Hso) as Hr.
    destruct (Toml._adjust_for_none stack_overflow tree) as [out r].
    cbn [snd] in Hr. by subst r.
Qed.

Lemma C8_empty_tables_become_null_witness :
  (exists out : Toml.dict,
     Toml.get_inlist_values
       (fun _ => Return [("my-table", TTable [("my-none", TTable [])])])
       (depth_limit 1000) "test.toml" = Return out
     /\ Toml.lookup_pos (Toml.keys ["my-table"; "my-none"]) (TTable out)
        = Some TNone)
  /\ Toml.get_inlist_values
       (fun _ => Return [("my-table", TTable [("my-none", TTable [])])])
       (depth_limit 2) "test.toml" = Raise RecursionError.
Proof.
  split.
  - destruct (proj1 (C8_empty_tables_become_null
                (fun _ => Return [("my-table", TTable [("my-none", TTable [])])])
                (depth_limit 1000) "test.toml" _ eq_refl))
      as (out & Hout & H).
    { intros ks Hks. cbn in Hks. unfold depth_limit. apply Nat.leb_gt. lia. }
    exists out. split; [exact Hout|].
    apply (H ["my-table"; "my-none"] (TTable []));
      [discriminate|reflexivity|reflexivity].
  - apply (proj2 (C8_empty_tables_become_null
                (fun _ => Return [("my-table", TTable [("my-none", TTable [])])])
                (depth_limit 2) "test.toml" _ eq_refl)
             ["my-table"; "my-none"] (TTable [])); reflexivity.
Defined.

(** C10. The normalisation judges emptiness on the value before the call:
    a table that is non-empty in the parsed tree, at any position reached
    through tables (the root included), is a table with the same keys
    afterwards, never Null, even when every one of its entries becomes Null,
    and also when the call stops with [RecursionError].  In particular
    [{a = {b = {}}}] becomes [{a: {b: None}}]. *)
Theorem C10_nonempty_table_stays_table :
  (forall (stack_overflow : list string -> bool) (tree : Toml.dict)
          (ks : list string) (d : Toml.dict),
      Toml.lookup_pos (Toml.keys ks) (TTable tree) = Some (TTable d) ->
      d <> [] ->
      exists d',
        Toml.lookup_pos (Toml.keys ks)
          (TTable (Toml._adjust_for_none stack_overflow tree).1)
        = Some (TTable d')
        /\ d'.*1 = d.*1 /\ d' <> [])
  /\ (forall stack_overflow : list string -> bool,
        stack_overflow [] = false -> stack_overflow ["a"] = false ->
        stack_overflow ["a"; "b"] = false ->
        Toml._adjust_for_none stack_overflow [("a", TTable [("b", TTable [])])]
        = ([("a", TTable [("b", TNone)])], Return tt)).
Proof.
  split.
  - intros so tree ks d Hd Hne.
    enough (exists d', Toml.lookup_pos (Toml.keys ks)
                         (TTable (Toml._adjust_for_none so tree).1)
                       = Some (TTable d') /\ d'.*1 = d.*1) as (d' & ? & ?).
    { exists d'. split; [done|]. split; [done|]. by eapply same_keys_nonempty. }
    destruct ks as [|k ks].
    + cbn in Hd. injection Hd as ->. eexists. split; [reflexivity|].
      apply _adjust_for_none_keys.
    + destruct (lookup_keys_adjust (k :: ks) so tree ltac:(done)) as [->|[so' ->]].
      { by exists d. }
      rewrite Hd. cbn [fmap option_fmap option_map].
      destruct (adjust_entry_shape so' (TTable d))
        as [->|[[[= ->] _]|(d0 & d' & [= <-] & _ & -> & Hk)]];
        [by exists d|done|by exists d'].
  - intros so H0 H1 H2. unfold Toml._adjust_for_none. rewrite H0.
    cbn [Toml.for_items Toml.adjust_entry Toml.eq_empty_dict]. by rewrite H1, H2.
Qed.

Lemma C10_nonempty_table_stays_table_witness :
  exists d',
    Toml.lookup_pos (Toml.keys ["a"])
      (TTable (Toml._adjust_for_none (depth_limit 1000)
                 [("a", TTable [("b", TTable [])])]).1)
    = Some (TTable d')
    /\ d'.*1 = ["b"] /\ d' <> [].
Proof.
  apply (proj1 C10_nonempty_table_stays_table (depth_limit 1000)
           [("a", TTable [("b", TTable [])])] ["a"] [("b", TTable [])]).
  - reflexivity.
  - discriminate.
Defined.

(** ** Quoted strings *)

Lemma sapp_nil (r : string) : EmptyString ++ r = r.
Proof. reflexivity. Qed.

Lemma sapp_cons (c : ascii) (m r : string) :
  String c m ++ r = String c (m ++ r).
Proof. reflexivity. Qed.

Section StripFacts.

Lemma chr_eqb_refl (c : ascii) : chr_eqb c c = true.
Proof. apply Ascii.eqb_refl. Qed.

Lemma lstrip_id (c : ascii) (s : string) :
  first_is (fun a => chr_eqb a c) s = false -> lstrip c s = s.
Proof. destruct s as [|a s]; simpl; [done|]. by intros ->. Qed.

Lemma last_is_app_one (p : ascii -> bool) (s : string) (c : ascii) :
  last_is p (s ++ str1 c) = p c.
Proof.
  induction s as [|a s IH]; [reflexivity|].
  change (String a s ++ str1 c) with (String a (s ++ str1 c)).
  destruct s; [reflexivity|]. exact IH.
Qed.

Lemma rstrip_id (c : ascii) (s : string) :
  last_is (fun a => chr_eqb a c) s = false -> rstrip c s = s.
Proof.
  induction s as [|a s IH]; [reflexivity|]. intros H.
  destruct s as [|b s].
  - simpl in *. by rewrite H.
  - change (rstrip c (String a (String b s)))
      with (match rstrip c (String b s) with
            | EmptyString =>
                if chr_eqb a c then EmptyString else String a EmptyString
            | r => String a r
            end).
    rewrite IH by exact H. reflexivity.
Qed.

Lemma rstrip_app_one (c : ascii) (s : string) :
  last_is (fun a => chr_eqb a c) s = false -> rstrip c (s ++ str1 c) = s.
Proof.
  induction s as [|a s IH]; intros H.
  - simpl. by rewrite chr_eqb_refl.
  - change (rstrip c (String a s ++ str1 c))
      with (match rstrip c (s ++ str1 c) with
            | EmptyString =>
                if chr_eqb a c then EmptyString else String a EmptyString
            | r => String a r
            end).
    destruct s as [|b s].
    + simpl in *. by rewrite chr_eqb_refl, H.
    + rewrite IH by exact H. reflexivity.
Qed.

(** Stripping [c] from a text wrapped in [c] whose inner text neither
    starts nor ends with [c] leaves the inner text. *)
Lemma strip_quoted (c : ascii) (t : string) :
  first_is (fun a => chr_eqb a c) t = false ->
  last_is (fun a => chr_eqb a c) t = false ->
  strip c (quoted c t) = t.
Proof.
  intros Hf Hl. unfold strip, quoted. simpl. rewrite chr_eqb_refl.
  destruct t as [|a t].
  - simpl. by rewrite chr_eqb_refl.
  - change (String a t ++ str1 c) with (String a (t ++ str1 c)).
    rewrite lstrip_id by exact Hf.
    change (String a (t ++ str1 c)) with (String a t ++ str1 c).
    by apply rstrip_app_one.
Qed.

(** Stripping a character that is not the wrapping one leaves a wrapped
    text as it is. *)
Lemma strip_quoted_other (c q : ascii) (t : string) :
  chr_eqb q c = false -> strip c (quoted q t) = quoted q t.
Proof.
  intros Hq. unfold strip. rewrite lstrip_id by (simpl; exact Hq).
  apply rstrip_id. unfold quoted.
  change (String q (t ++ str1 q)) with (String q t ++ str1 q).
  by rewrite last_is_app_one.
Qed.

Lemma strip_id (c : ascii) (t : string) :
  first_is (fun a => chr_eqb a c) t = false ->
  last_is (fun a => chr_eqb a c) t = false ->
  strip c t = t.
Proof. intros Hf Hl. unfold strip. by rewrite lstrip_id, rstrip_id. Qed.

Lemma rstrip_cons (c a : ascii) (s : string) :
  rstrip c (String a s)
  = match rstrip c s with
    | EmptyString => if chr_eqb a c then EmptyString else String a EmptyString
    | r => String a r
    end.
Proof. reflexivity. Qed.

(** A trailing [c] is stripped whatever comes before it. *)
Lemma rstrip_app_c (c : ascii) (s : string) :
  rstrip c (s ++ str1 c) = rstrip c s.
Proof.
  induction s as [|a s IH].
  - rewrite sapp_nil. unfold str1. rewrite rstrip_cons. cbn [rstrip].
    by rewrite chr_eqb_refl.
  - by rewrite sapp_cons, !rstrip_cons, IH.
Qed.

(** Stripping [c] from a text wrapped in [c] is stripping it from the
    inner text. *)
Lemma strip_quoted_inner (c : ascii) (t : string) :
  strip c (quoted c t) = strip c t.
Proof.
  unfold strip, quoted. cbn [lstrip]. rewrite chr_eqb_refl.
  induction t as [|a t IH].
  - rewrite sapp_nil. unfold str1. cbn [lstrip]. by rewrite chr_eqb_refl.
  - rewrite sapp_cons. cbn [lstrip]. destruct (chr_eqb a c); [exact IH|].
    change (String a (t ++ str1 c)) with (String a t ++ str1 c).
    apply rstrip_app_c.
Qed.

Lemma lstrip_length (c : ascii) (s : string) :
  (String.length (lstrip c s) <= String.length s)%nat.
Proof.
  induction s as [|a s IH]; [done|]. cbn [lstrip].
  destruct (chr_eqb a c); cbn [String.length]; lia.
Qed.

Lemma rstrip_length (c : ascii) (s : string) :
  (String.length (rstrip c s) <= String.length s)%nat.
Proof.
  induction s as [|a s IH]; [done|]. rewrite rstrip_cons.
  destruct (rstrip c s); [destruct (chr_eqb a c)|]; cbn [String.length] in *; lia.
Qed.

Lemma lstrip_shorter (c : ascii) (s : string) :
  first_is (fun a => chr_eqb a c) s = true ->
  (String.length (lstrip c s) < String.length s)%nat.
Proof.
  destruct s as [|a s]; [done|]. cbn [first_is lstrip]. intros ->.
  pose proof (lstrip_length c s). cbn [String.length]. lia.
Qed.

Lemma rstrip_shorter (c : ascii) (s : string) :
  last_is (fun a => chr_eqb a c) s = true ->
  (String.length (rstrip c s) < String.length s)%nat.
Proof.
  induction s as [|a s IH]; [done|]. intros H. rewrite rstrip_cons.
  destruct s as [|b s].
  - cbn in H. cbn. rewrite H. cbn. lia.
  - specialize (IH H).
    destruct (rstrip c (String b s)); [destruct (chr_eqb a c)|];
      cbn [String.length] in *; lia.
Qed.

(** Stripping leaves a text as it is, or makes it shorter. *)
Lemma strip_fix_or_shorter (c : ascii) (t : string) :
  (first_is (fun a => chr_eqb a c) t = false
   /\ last_is (fun a => chr_eqb a c) t = false /\ strip c t = t)
  \/ ((first_is (fun a => chr_eqb a c) t = true
       \/ last_is (fun a => chr_eqb a c) t = true)
      /\ (String.length (strip c t) < String.length t)%nat).
Proof.
  destruct (first_is (fun a => chr_eqb a c) t) eqn:Hf.
  - right. split; [by left|]. unfold strip.
    pose proof (lstrip_shorter c t Hf). pose proof (rstrip_length c (lstrip c t)).
    lia.
  - destruct (last_is (fun a => chr_eqb a c) t) eqn:Hl.
    + right. split; [by right|]. unfold strip. rewrite lstrip_id by done.
      by apply rstrip_shorter.
    + left. by rewrite strip_id.
Qed.

Lemma strip_fix (c : ascii) (t : string) :
  strip c t = t
  <-> first_is (fun a => chr_eqb a c) t = false
      /\ last_is (fun a => chr_eqb a c) t = false.
Proof.
  split.
  - intros H. destruct (strip_fix_or_shorter c t) as [(?&?&_)|[_ Hlt]]; [done|].
    rewrite H in Hlt. lia.
  - intros [??]. by apply strip_id.
Qed.

Lemma strip_length (c : ascii) (t : string) :
  (String.length (strip c t) <= String.length t)%nat.
Proof.
  unfold strip. pose proof (lstrip_length c t).
  pose proof (rstrip_length c (lstrip c t)). lia.
Qed.

End StripFacts.

(** C3, as stated, fails: [strip] removes every leading and trailing quote
    character, not one.  The token made of a double quote, the three
    characters ['a'] and a double quote contains no bracket, and its inner
    text is ['a'] with the single quotes; [_typer] returns [a]. *)
Lemma C3_counterexample :
  let inner := quoted squote "a" in
  let token := quoted dquote inner in
  str_in "[" token = false /\ str_in "]" token = false
  /\ _typer LiteralEval.literal_eval token = Return (VStr "a")
  /\ _typer LiteralEval.literal_eval token <> Return (VStr inner).
Proof. repeat split; try reflexivity. vm_compute. discriminate. Qed.

(** C3, amended. For a token wrapped in matching quote characters that does
    not hold both [[] and []], [_typer] returns a String: the inner text
    without its leading and trailing single quotes, and, when the token is
    wrapped in double quotes, without its leading and trailing double quotes
    first.  It is the inner text, verbatim, exactly when the inner text
    neither starts nor ends with a single quote and, for a token wrapped in
    double quotes, neither starts nor ends with a double quote. *)
Theorem C3_quoted_string (lit : string -> result value) (q : ascii)
    (inner : string) :
  q = squote \/ q = dquote ->
  str_in "[" (quoted q inner) && str_in "]" (quoted q inner) = false ->
  _typer lit (quoted q inner)
  = Return (VStr (strip squote
                    (if chr_eqb q dquote then strip dquote inner else inner)))
  /\ (_typer lit (quoted q inner) = Return (VStr inner)
      <-> first_is (fun a => chr_eqb a squote) inner = false
          /\ last_is (fun a => chr_eqb a squote) inner = false
          /\ (q = dquote ->
              first_is (fun a => chr_eqb a dquote) inner = false
              /\ last_is (fun a => chr_eqb a dquote) inner = false)).
Proof.
  intros Hq Hl.
  assert (Hin : str_in (str1 squote) (quoted q inner)
                || str_in (str1 dquote) (quoted q inner) = true).
  { assert (Hself : str_in (str1 q) (quoted q inner) = true).
    { unfold quoted. simpl. by rewrite chr_eqb_refl. }
    destruct Hq as [-> | ->]; rewrite Hself; [reflexivity|apply orb_true_r]. }
  assert (Hres : _typer lit (quoted q inner)
                 = Return (VStr (strip squote
                     (if chr_eqb q dquote then strip dquote inner else inner)))).
  { rewrite _typer_unfold, Hl, Hin. do 2 f_equal.
    destruct Hq as [-> | ->].
    - rewrite strip_quoted_other by reflexivity.
      change (chr_eqb squote dquote) with false. cbv match.
      apply strip_quoted_inner.
    - rewrite chr_eqb_refl. by rewrite strip_quoted_inner. }
  split; [exact Hres|]. rewrite Hres. split.
  - intros [= H]. destruct Hq as [-> | ->].
    + change (chr_eqb squote dquote) with false in H. cbv match in H.
      apply strip_fix in H as [Hf Hla]. split; [done|]. split; [done|].
      intros Hsq. vm_compute in Hsq. discriminate.
    + rewrite chr_eqb_refl in H.
      destruct (strip_fix_or_shorter dquote inner) as [(Hf & Hla & He)|[_ Hlt]].
      * rewrite He in H. apply strip_fix in H as [??]. done.
      * pose proof (strip_length squote (strip dquote inner)) as Hle.
        rewrite H in Hle. lia.
  - intros (Hf & Hla & Hd). destruct Hq as [-> | ->].
    + change (chr_eqb squote dquote) with false. cbv match.
      by rewrite strip_id.
    + rewrite chr_eqb_refl. destruct (Hd eq_refl) as [??].
      rewrite (strip_id dquote inner) by done. by rewrite strip_id.
Qed.

Lemma C3_quoted_string_witness :
  _typer LiteralEval.literal_eval (quoted squote (quoted dquote "a b"))
  = Return (VStr (quoted dquote "a b")).
Proof.
  apply (proj2 (C3_quoted_string LiteralEval.literal_eval squote
                  (quoted dquote "a b") (or_introl eq_refl) eq_refl)).
  split; [reflexivity|]. split; [reflexivity|].
  intros Hsq. vm_compute in Hsq. discriminate.
Defined.

(** ** The backtracking matcher *)

Section ReFacts.
Context {A : Type}.
Implicit Types (cls : ascii -> bool) (k : string -> string -> option A).

(** A successful greedy repetition has split the text into a run of the
    class and a rest accepted by the continuation. *)
Lemma star_Some_inv cls k (s : string) (a : A) :
  Re.star cls k s = Some a ->
  exists m r, s = m ++ r /\ all_chars cls m = true /\ k m r = Some a.
Proof.
  revert k. induction s as [|c s IH]; intros k H; simpl in H.
  - by exists EmptyString, EmptyString.
  - destruct (cls c) eqn:Hc.
    + destruct (Re.star cls (fun m r => k (String c m) r) s) as [a'|] eqn:Hs.
      * injection H as ->. apply IH in Hs as (m & r & -> & Hm & Hk).
        exists (String c m), r. simpl. by rewrite Hc, Hm.
      * by exists EmptyString, (String c s).
    + by exists EmptyString, (String c s).
Qed.

(** A failed greedy repetition has tried every split. *)
Lemma star_None_inv cls k (s : string) :
  Re.star cls k s = None ->
  forall m r, s = m ++ r -> all_chars cls m = true -> k m r = None.
Proof.
  revert k. induction s as [|c s IH]; intros k H m r Hs Hm; simpl in H.
  - destruct m; [|discriminate]. rewrite sapp_nil in Hs. by subst r.
  - destruct m as [|c' m].
    + rewrite sapp_nil in Hs. subst r. destruct (cls c); [|done].
      by destruct (Re.star cls (fun m r => k (String c m) r) s).
    + rewrite sapp_cons in Hs. simpl in Hm. injection Hs as <- ->.
      apply andb_true_iff in Hm as [Hc Hm]. rewrite Hc in H.
      destruct (Re.star cls (fun m r => k (String c m) r) (m ++ r)) eqn:Hst;
        [done|].
      by apply (IH _ Hst m r).
Qed.

Lemma star_None_intro cls k (s : string) :
  (forall m r, s = m ++ r -> all_chars cls m = true -> k m r = None) ->
  Re.star cls k s = None.
Proof.
  intros H. destruct (Re.star cls k s) as [a|] eqn:Hs; [|done].
  apply star_Some_inv in Hs as (m & r & Hsplit & Hm & Hk).
  by rewrite (H m r Hsplit Hm) in Hk.
Qed.

(** The repetition is greedy: it answers with the longest run that the
    continuation accepts. *)
Lemma star_longest cls k (m r : string) (a : A) :
  all_chars cls m = true ->
  k m r = Some a ->
  (forall m' r', m ++ r = m' ++ r' -> all_chars cls m' = true ->
                 (String.length m < String.length m')%nat -> k m' r' = None) ->
  Re.star cls k (m ++ r) = Some a.
Proof.
  revert k. induction m as [|c m IH]; intros k Hm Hk Hlong.
  - rewrite sapp_nil. destruct r as [|c r]; [exact Hk|]. simpl.
    destruct (cls c) eqn:Hc; [|exact Hk].
    rewrite star_None_intro; [exact Hk|].
    intros m' r' Hs Hm'. apply Hlong.
    + by rewrite sapp_nil, sapp_cons, <- Hs.
    + simpl. by rewrite Hc, Hm'.
    + simpl. lia.
  - simpl in Hm. apply andb_true_iff in Hm as [Hc Hm].
    rewrite sapp_cons. simpl. rewrite Hc.
    rewrite (IH (fun m r => k (String c m) r)); [done|done|done|].
    intros m' r' Hs Hm' Hlen. apply Hlong.
    + by rewrite !sapp_cons, Hs.
    + simpl. by rewrite Hc, Hm'.
    + simpl. lia.
Qed.

Lemma star_is_Some cls k (m r : string) :
  all_chars cls m = true -> is_Some (k m r) -> is_Some (Re.star cls k (m ++ r)).
Proof.
  intros Hm [a Hk]. destruct (Re.star cls k (m ++ r)) eqn:Hs; [done|].
  by rewrite (star_None_inv _ _ _ Hs m r eq_refl Hm) in Hk.
Qed.

Lemma plus_Some_inv cls k (s : string) (a : A) :
  Re.plus cls k s = Some a ->
  exists m r, s = m ++ r /\ m <> EmptyString
              /\ all_chars cls m = true /\ k m r = Some a.
Proof.
  destruct s as [|c s]; simpl; [done|].
  destruct (cls c) eqn:Hc; [|done]. intros H.
  apply star_Some_inv in H as (m & r & -> & Hm & Hk).
  exists (String c m), r. simpl. by rewrite Hc, Hm.
Qed.

Lemma plus_is_Some cls k (m r : string) :
  m <> EmptyString -> all_chars cls m = true -> is_Some (k m r) ->
  is_Some (Re.plus cls k (m ++ r)).
Proof.
  destruct m as [|c m]; [done|]. intros _ Hm Hk. simpl in *.
  apply andb_true_iff in Hm as [-> Hm].
  by apply (star_is_Some cls (fun m r => k (String c m) r)).
Qed.

Lemma one_Some_inv cls (k1 : string -> option A) (s : string) (a : A) :
  Re.one cls k1 s = Some a ->
  exists c r, s = String c r /\ cls c = true /\ k1 r = Some a.
Proof.
  destruct s as [|c s]; simpl; [done|].
  destruct (cls c) eqn:Hc; [|done]. intros H. by exists c, s.
Qed.

End ReFacts.

(** ** Floats and integers *)

(** The float pattern accepts exactly the texts with a [float_prefix]. *)
Lemma float_regex_spec (s : string) :
  truthy (compiled_float_regex_match s) = true <-> float_prefix s.
Proof.
  unfold compiled_float_regex_match. split.
  - destruct (Re.plus _ _ s) as [[]|] eqn:H; [intros _|done].
    apply plus_Some_inv in H as (ds & r1 & -> & Hds & Hd & H).
    apply one_Some_inv in H as (c & r2 & -> & Hc & H).
    apply star_Some_inv in H as (ms & r3 & -> & Hms & H).
    apply plus_Some_inv in H as (ds' & rest & -> & Hds' & Hd' & _).
    by exists ds, c, ms, ds', rest.
  - intros (ds & c & ms & ds' & rest & -> & Hds & Hd & Hc & Hms & Hds' & Hd').
    match goal with |- truthy ?o = true => enough (is_Some o) as [? ->] by done end.
    apply (plus_is_Some Re.digit); [done|done|].
    simpl. rewrite Hc.
    apply (star_is_Some (Re.lit "-")); [done|].
    by apply (plus_is_Some Re.digit).
Qed.

(** C9, as stated, fails in three ways.  The pattern is tried at the start
    of the token only: [1e5,2] is handed to the literal evaluator, which
    returns a tuple, where C9 has it parsed as an integer (and fail).  The
    pattern takes any number of [-]: [1e--5] is handed to the literal
    evaluator (whose syntax error is raised), not to the integer parser.
    And a token with a dot need not evaluate to a Float: [1.2.3] raises. *)
Lemma C9_counterexample :
  (SpecC9.is_float "1e5,2" = false
   /\ _typer LiteralEval.literal_eval "1e5,2"
      = Return (VTuple [VFloat (100000 # 1); VInt 2])
   /\ VInt <$> PyInt.int "1e5,2" = Raise ValueError)
  /\ (SpecC9.is_float "1e--5" = false
      /\ _typer LiteralEval.literal_eval "1e--5" = Raise SyntaxError
      /\ VInt <$> PyInt.int "1e--5" = Raise ValueError)
  /\ (SpecC9.is_float "1.2.3" = true
      /\ _typer LiteralEval.literal_eval "1.2.3" = Raise SyntaxError).
Proof. repeat split; reflexivity. Qed.

(** C9, amended. A token that reaches the last two rules (no quote
    character, no boolean substring, no [None], not both [[] and []], not
    both [(] and [)]) is handed to the literal evaluator exactly when it
    contains a [.] or starts with one or more digits, [e] or [E], any
    number of [-] and one or more digits; the result is whatever the
    literal evaluator returns or raises.  Any other token is parsed as a
    base-10 integer, and [ValueError] is raised if the text is not an
    integer literal or has more digits than the limit of the conversion
    ([PyInt.int_max_str_digits]). *)
Theorem C9_float_or_integer (lit : string -> result value) (s : string) :
  str_in (str1 squote) s = false ->
  str_in (str1 dquote) s = false ->
  str_in "False" s || str_in "FALSE" s
    || str_in "True" s || str_in "TRUE" s = false ->
  str_in "None" s = false ->
  str_in "[" s && str_in "]" s = false ->
  str_in "(" s && str_in ")" s = false ->
  (str_in "." s = true \/ float_prefix s -> _typer lit s = lit s)
  /\ (str_in "." s = false -> ~ float_prefix s ->
      _typer lit s
      = match PyInt.signed_digits
                (PyInt.rstrip_space (PyInt.lstrip_space s)) with
        | Some z =>
            if (PyInt.count_digits (PyInt.rstrip_space (PyInt.lstrip_space s))
                <=? PyInt.int_max_str_digits)%nat
            then Return (VInt z)
            else Raise ValueError
        | None => Raise ValueError
        end).
Proof.
  intros Hs Hd Hb Hn Hl Ht. rewrite _typer_unfold, Hs, Hd, Hb, Hn, Hl, Ht.
  cbn [orb]. split.
  - intros [Hdot | Hpre].
    + by rewrite Hdot.
    + apply float_regex_spec in Hpre. rewrite Hpre. by rewrite orb_true_r.
  - intros Hdot Hpre. rewrite Hdot. cbn [orb].
    destruct (truthy (compiled_float_regex_match s)) eqn:Hm.
    + by apply float_regex_spec in Hm.
    + unfold PyInt.int. by repeat case_match.
Qed.

Lemma C9_float_or_integer_witness :
  _typer LiteralEval.literal_eval "12E-5x" = LiteralEval.literal_eval "12E-5x"
  /\ _typer LiteralEval.literal_eval "-8" = Return (VInt (-8)).
Proof.
  split.
  - apply (C9_float_or_integer LiteralEval.literal_eval "12E-5x");
      try reflexivity.
    right. exists "12", "E"%char, "-", "5", "x".
    repeat split; (reflexivity || discriminate).
  - apply (C9_float_or_integer LiteralEval.literal_eval "-8");
      try reflexivity.
    intros Hpre%float_regex_spec. discriminate.
Defined.

(** ** Resolving the defaults file *)

Section DefaultsFacts.

Lemma count_char_app (c : ascii) (a b : string) :
  count_char c (a ++ b) = (count_char c a + count_char c b)%nat.
Proof.
  induction a as [|x a IH]; [reflexivity|].
  rewrite sapp_cons. simpl. rewrite IH. lia.
Qed.

(** A text without the character [c] does not start with it. *)
Lemma one_None_count {A : Type} (c : ascii) (k : string -> option A)
    (r : string) :
  count_char c r = O -> Re.one (Re.lit c) k r = None.
Proof.
  destruct r as [|a r]; [done|]. simpl. unfold Re.lit.
  by destruct (chr_eqb a c).
Qed.

(** When a text is cut in two places, the later cut leaves a suffix of
    what the earlier cut left. *)
Lemma app_split_longer (x y m r : string) :
  x ++ y = m ++ r -> (String.length x < String.length m)%nat ->
  exists z, z <> EmptyString /\ y = z ++ r.
Proof.
  revert m. induction x as [|a x IH]; intros m H Hlen.
  - rewrite sapp_nil in H. exists m. split; [|done].
    destruct m; [simpl in Hlen; lia | done].
  - destruct m as [|b m]; [simpl in Hlen; lia|].
    rewrite !sapp_cons in H. injection H as _ H.
    apply (IH m H). simpl in Hlen. lia.
Qed.

Lemma lit_refl (c : ascii) : Re.lit c c = true.
Proof. apply chr_eqb_refl. Qed.

Lemma star_const {A : Type} (cls : ascii -> bool) (a : A) (s : string) :
  Re.star cls (fun _ _ => Some a) s = Some a.
Proof.
  induction s as [|c s IH]; [reflexivity|]. simpl.
  destruct (cls c); [|reflexivity]. by rewrite IH.
Qed.

(** The groups that the pattern captures on a path of the conventional
    shape. *)
Lemma defaults_match_shape (dir sub name ext : string) :
  all_chars Re.dot dir = true ->
  all_chars Re.dot sub = true ->
  all_chars Re.dot name = true ->
  count_char "/" sub = O ->
  count_char "/" name = O ->
  count_char "/" ext = O ->
  count_char "." ext = O ->
  compiled_regex_defaults_match
    (dir ++ String "/" (sub ++ String "/" (name ++ String "." ext)))
  = Some (dir, name).
Proof.
  intros Hdir Hsub Hname Hs1 Hs2 Hs3 Hdot.
  unfold compiled_regex_defaults_match.
  assert (Hfile : count_char "/" (name ++ String "." ext) = O).
  { rewrite count_char_app. simpl. lia. }
  apply star_longest; [done| |].
  - (* the first slash, then the sub-directory *)
    cbn [Re.one]. rewrite lit_refl.
    apply star_longest; [done| |].
    + cbn [Re.one]. rewrite lit_refl.
      apply star_longest; [done| |].
      * cbn [Re.one]. rewrite lit_refl. apply star_const.
      * intros m' r' Hsplit _ Hlen.
        apply app_split_longer in Hsplit as (z & Hz & Hy); [|done].
        destruct z as [|a z]; [done|]. rewrite sapp_cons in Hy.
        injection Hy as _ ->. rewrite count_char_app in Hdot.
        apply one_None_count. lia.
    + intros m' r' Hsplit _ Hlen.
      apply app_split_longer in Hsplit as (z & Hz & Hy); [|done].
      destruct z as [|a z]; [done|]. rewrite sapp_cons in Hy.
      injection Hy as _ Hy. rewrite Hy, count_char_app in Hfile.
      apply one_None_count. lia.
  - (* a longer first group leaves at most one slash *)
    intros m' r' Hsplit _ Hlen.
    apply app_split_longer in Hsplit as (z & Hz & Hy); [|done].
    destruct z as [|a z]; [done|]. rewrite sapp_cons in Hy.
    injection Hy as _ Hy.
    assert (Hone : count_char "/" (z ++ r') = 1%nat).
    { rewrite <- Hy, count_char_app. simpl. lia. }
    rewrite count_char_app in Hone.
    destruct r' as [|b r']; [reflexivity|].
    cbn [Re.one]. destruct (Re.lit "/" b) eqn:Hb; [|reflexivity].
    unfold Re.lit in Hb. simpl in Hone. rewrite Hb in Hone.
    apply star_None_intro. intros m2 r2 -> _.
    rewrite count_char_app in Hone. apply one_None_count. lia.
Qed.

(** The pattern accepts exactly the paths of [defaults_shape]. *)
Lemma defaults_match_spec (path : string) :
  is_Some (compiled_regex_defaults_match path) <-> defaults_shape path.
Proof.
  unfold compiled_regex_defaults_match. split.
  - intros [[g1 g2] H].
    apply star_Some_inv in H as (a & r1 & -> & Ha & H).
    apply one_Some_inv in H as (c1 & r2 & -> & Hc1 & H).
    apply star_Some_inv in H as (b & r3 & -> & Hb & H).
    apply one_Some_inv in H as (c2 & r4 & -> & Hc2 & H).
    apply star_Some_inv in H as (c & r5 & -> & Hc & H).
    apply one_Some_inv in H as (c3 & r6 & -> & Hc3 & H).
    unfold Re.lit, chr_eqb in Hc1, Hc2, Hc3.
    apply Ascii.eqb_eq in Hc1 as ->. apply Ascii.eqb_eq in Hc2 as ->.
    apply Ascii.eqb_eq in Hc3 as ->.
    by exists a, b, c, r6.
  - intros (a & b & c & d & -> & Ha & Hb & Hc).
    apply (star_is_Some Re.dot); [done|].
    cbn [Re.one]. rewrite lit_refl.
    apply (star_is_Some Re.dot); [done|].
    cbn [Re.one]. rewrite lit_refl.
    apply (star_is_Some Re.dot); [done|].
    cbn [Re.one]. rewrite lit_refl.
    by rewrite star_const.
Qed.

Lemma defaults_shape_two_slashes (path : string) :
  defaults_shape path -> (2 <= count_char "/" path)%nat.
Proof.
  intros (a & b & c & d & -> & _).
  rewrite count_char_app. simpl. rewrite count_char_app. simpl. lia.
Qed.

End DefaultsFacts.

Lemma _parse_inlist_not_NameError (lit : string -> result value)
    (fs : string -> result string) (path : string)
    (d : option (gmap string value)) :
  _parse_inlist lit fs path d <> Some (Raise NameError).
Proof.
  unfold _parse_inlist. destruct (parse_body lit fs path _) as [[m|e]|]; simpl;
    [done| |done].
  by destruct e.
Qed.

(** C6, as stated, fails: the pattern is not tied to the last two path
    segments.  For [x/a/b.c/d] the base file name [d] has no extension, so
    the path has not the shape [<dir>/<subdir>/<name>.<ext>]; the code
    does not fail but reads [x/defaults/b.defaults], taking [<name>] from
    the directory [b.c] (on a file system that holds only that file, the
    call returns its entries). *)
Lemma C6_counterexample :
  let fs := fun p : string =>
              if String.eqb p "x/defaults/b.defaults" then Return "k = 1"
              else Raise OSError in
  SpecC6.defaults_path "x/a/b.c/d" = None
  /\ SpecC6.defaults_path "x/a/b/d.in" = Some "x/a/defaults/d.defaults"
  /\ compiled_regex_defaults_match "x/a/b.c/d" = Some ("x", "b")
  /\ _get_default_inlist_values LiteralEval.literal_eval fs "x/a/b.c/d"
     = Some (Return (Some {[ "k" := VInt 1 ]})).
Proof. repeat split; vm_compute; reflexivity. Qed.

(** C6, amended. Defaults resolution raises [NameError] if and only if the
    path does not match the pattern, that is, unless the path holds, before
    its first newline, a slash, later a second slash and later still a dot;
    a path with fewer than two slashes always fails.  For a path
    [<dir>/<subdir>/<name>.<ext>] whose last two segments hold no further
    slash, whose [<ext>] holds no dot and which has no newline before
    [<ext>], the file parsed is [<dir>/defaults/<name>.defaults]. *)
Theorem C6_defaults_resolution (lit : string -> result value)
    (fs : string -> result string) :
  (forall path : string,
      _get_default_inlist_values lit fs path = Some (Raise NameError)
      <-> ~ defaults_shape path)
  /\ (forall path : string,
        (count_char "/" path < 2)%nat ->
        _get_default_inlist_values lit fs path = Some (Raise NameError))
  /\ (forall dir sub name ext : string,
        all_chars Re.dot dir = true ->
        all_chars Re.dot sub = true ->
        all_chars Re.dot name = true ->
        count_char "/" sub = O ->
        count_char "/" name = O ->
        count_char "/" ext = O ->
        count_char "." ext = O ->
        _get_default_inlist_values lit fs
          (dir ++ "/" ++ sub ++ "/" ++ name ++ "." ++ ext)
        = _parse_inlist lit fs (dir ++ "/defaults/" ++ name ++ ".defaults") None).
Proof.
  assert (Hiff : forall path,
             _get_default_inlist_values lit fs path = Some (Raise NameError)
             <-> ~ defaults_shape path).
  { intros path. rewrite <- defaults_match_spec. unfold _get_default_inlist_values.
    destruct (compiled_regex_defaults_match path) as [[g1 g2]|].
    - split; [intros H; by apply _parse_inlist_not_NameError in H|].
      intros H. destruct H. by eexists.
    - split; [|done]. intros _ [? ?]. discriminate. }
  split; [exact Hiff|]. split.
  - intros path Hcount. apply Hiff. intros Hshape%defaults_shape_two_slashes. lia.
  - intros dir sub name ext Hdir Hsub Hname Hs1 Hs2 Hs3 Hdot.
    unfold _get_default_inlist_values.
    change (dir ++ "/" ++ sub ++ "/" ++ name ++ "." ++ ext)
      with (dir ++ String "/" (sub ++ String "/" (name ++ String "." ext))).
    by rewrite defaults_match_shape.
Qed.

Lemma C6_defaults_resolution_witness :
  _get_default_inlist_values LiteralEval.literal_eval (Fixture.fs Fixture.tmp)
    (Fixture.tmp ++ "/" ++ "my_data0" ++ "/" ++ "test" ++ "." ++ "in")
  = _parse_inlist LiteralEval.literal_eval (Fixture.fs Fixture.tmp)
      (Fixture.tmp ++ "/defaults/" ++ "test" ++ ".defaults") None
  /\ _get_default_inlist_values LiteralEval.literal_eval
       (Fixture.fs Fixture.tmp) "test.in"
     = Some (Raise NameError).
Proof.
  split.
  - apply (proj2 (proj2 (C6_defaults_resolution LiteralEval.literal_eval (Fixture.fs Fixture.tmp))));
      reflexivity.
  - apply (proj1 (proj2 (C6_defaults_resolution LiteralEval.literal_eval (Fixture.fs Fixture.tmp)))).
    vm_compute. lia.
Defined.

(** ** The lexer consumes its input *)

Section LexerFacts.
Import Shlex.

Lemma nonempty_app_one (t : string) (c : ascii) : nonempty (t ++ str1 c) = true.
Proof. by destruct t. Qed.

(** What is left never grows, and it shrinks when the loop answers with
    a non-empty token that it built itself. *)
Lemma read_loop_measure (lx : shlex) (s : string) :
  forall (in_comment : bool) (st : lex_state) (token : string)
         (pb : list string) (tok : string) (lx' : shlex),
    read_loop lx in_comment st token pb s = Return (tok, lx') ->
    (lex_measure lx' + b2n (nonempty tok)
     <= String.length s + length pb + b2n (nonempty token))%nat.
Proof.
  induction s as [|c s IH]; intros ic st token pb tok lx' H.
  - simpl in H. destruct st; simplify_eq; unfold lex_measure; simpl; lia.
  - simpl in H. change (String.length (String c s)) with (S (String.length s)).
    destruct ic; [apply IH in H; lia|].
    destruct st; repeat case_match; simplify_eq; try (apply IH in H);
      rewrite ?nonempty_app_one in *; unfold lex_measure, b2n in *;
      simpl in *; repeat case_match; lia.
Qed.

Lemma get_token_measure (lx : shlex) (tok : string) (lx' : shlex) :
  get_token lx = Return (tok, lx') ->
  (lex_measure lx' + b2n (nonempty tok) <= lex_measure lx)%nat.
Proof.
  unfold get_token. destruct (pushback lx) as [|t pb] eqn:Hpb.
  - intros H%read_loop_measure. unfold lex_measure in *. rewrite Hpb in *.
    simpl in *. lia.
  - intros [= <- <-]. unfold lex_measure. rewrite Hpb. simpl.
    destruct (nonempty t); simpl; lia.
Qed.

(** The lexer raises nothing but [ValueError] (an open quotation at the
    end of the text). *)
Lemma read_loop_raise (lx : shlex) (s : string) :
  forall (in_comment : bool) (st : lex_state) (token : string)
         (pb : list string) (e : exn),
    read_loop lx in_comment st token pb s = Raise e -> e = ValueError.
Proof.
  induction s as [|c s IH]; intros ic st token pb e H; simpl in H.
  - by destruct st; simplify_eq.
  - repeat case_match; simplify_eq; by eapply IH.
Qed.

Lemma get_token_raise (lx : shlex) (e : exn) :
  get_token lx = Raise e -> e = ValueError.
Proof.
  unfold get_token, read_token. destruct (pushback lx); [|done].
  apply read_loop_raise.
Qed.

End LexerFacts.

(** ** The shape of the tokens *)

Section TokenFacts.
Import Shlex.

Lemma all_chars_app (p : ascii -> bool) (a b : string) :
  all_chars p (a ++ b) = all_chars p a && all_chars p b.
Proof.
  induction a as [|c a IH]; [reflexivity|].
  rewrite sapp_cons. simpl. by rewrite IH, andb_assoc.
Qed.

Lemma nonempty_false (t : string) : nonempty t = false -> t = EmptyString.
Proof. by destruct t. Qed.

Lemma chr_in_quotes (c : ascii) :
  chr_in c (String squote (String dquote EmptyString)) = is_quote c.
Proof. unfold is_quote. simpl. by rewrite orb_false_r. Qed.

(** From a well-formed accumulator the loop answers with a token of the
    expected shape and leaves the lexer between two tokens. *)
Lemma read_loop_shape (lx : shlex) (s : string) :
  wordchars lx = inlist_wordchars ->
  quotes lx = String squote (String dquote EmptyString) ->
  forall (in_comment : bool) (st : lex_state) (token : string)
         (pb : list string) (tok : string) (lx' : shlex),
    Forall (fun t => (String.length t <= 1)%nat) pb ->
    acc_ok st token ->
    read_loop lx in_comment st token pb s = Return (tok, lx') ->
    token_shape tok /\ lexer_ok lx'.
Proof.
  intros Hw Hq.
  assert (Hok : forall s' pb' st',
             Forall (fun t => (String.length t <= 1)%nat) pb' ->
             st' = St_ws \/ st' = St_eof ->
             lexer_ok (set_stream lx s' pb' st')).
  { intros. by repeat split. }
  induction s as [|c s IH]; intros ic st token pb tok lx' Hpb Hacc H.
  - simpl in H. destruct st; simpl in Hacc; simplify_eq.
    + split; [left; cbv [String.length str1]; lia|apply Hok; auto].
    + split; [left; cbv [String.length str1]; lia|apply Hok; auto].
    + split; [by right; left|apply Hok; auto].
  - simpl in H. destruct ic; [by eapply IH|].
    destruct st; simpl in Hacc.
    + simplify_eq. split; [left; cbv [String.length str1]; lia|apply Hok; auto].
    + subst token. simpl in H.
      destruct (chr_in c (whitespace lx)); [by eapply (IH false St_ws)|].
      destruct (chr_in c (commenters lx)); [by eapply (IH true St_ws)|].
      destruct (chr_in c (wordchars lx)) eqn:Hc.
      { eapply (IH false St_word); [done| |done]. simpl.
        unfold is_token_char. by rewrite <- Hw, Hc. }
      destruct (chr_in c (quotes lx)) eqn:Hcq.
      { eapply (IH false (St_quote c)); [done| |done]. simpl.
        rewrite Hq, chr_in_quotes in Hcq. split; [done|]. by exists EmptyString. }
      simplify_eq. split; [left; cbv [String.length str1]; lia|apply Hok; auto].
    + destruct (chr_in c (whitespace lx)).
      { destruct (nonempty token) eqn:Hne.
        - simplify_eq. split; [by right; left|apply Hok; auto].
        - eapply (IH false St_ws); [done| |done]. by apply nonempty_false. }
      destruct (chr_in c (commenters lx)); [by eapply (IH true St_word)|].
      destruct (chr_in c (wordchars lx) || chr_in c (quotes lx)) eqn:Hc.
      { eapply (IH false St_word); [done| |done]. simpl.
        rewrite all_chars_app, Hacc. simpl. rewrite andb_true_r.
        unfold is_token_char. by rewrite <- Hw, <- chr_in_quotes, <- Hq. }
      destruct (nonempty token) eqn:Hne.
      * simplify_eq. split; [by right; left|].
        apply Hok; [|auto]. constructor; [cbv [String.length str1]; lia|done].
      * eapply (IH false St_ws); [|by apply nonempty_false|done].
        constructor; [cbv [String.length str1]; lia|done].
    + destruct Hacc as (Hqq & t & -> & Hcount).
      destruct (chr_eqb c q) eqn:Hc.
      * simplify_eq. apply Ascii.eqb_eq in Hc as ->.
        split; [|apply Hok; auto]. right; right. by exists q, t.
      * eapply (IH false (St_quote q)); [done| |done]. simpl.
        split; [done|]. exists (t ++ str1 c). split; [done|].
        rewrite count_char_app, Hcount. simpl. by rewrite Hc.
Qed.

Lemma get_token_shape (lx : shlex) (tok : string) (lx' : shlex) :
  lexer_ok lx -> get_token lx = Return (tok, lx') ->
  token_shape tok /\ lexer_ok lx'.
Proof.
  intros (Hw & Hq & Hst & Hpb). unfold get_token, read_token.
  destruct (pushback lx) as [|t pb] eqn:Hp.
  - apply read_loop_shape; [done|done|constructor|].
    by destruct Hst as [-> | ->].
  - intros [= <- <-]. inversion Hpb; subst. split; [by left|].
    by repeat split.
Qed.

Lemma lexer_for_ok (text : string) : lexer_ok (lexer_for text).
Proof. repeat split; auto. Qed.

End TokenFacts.

(** ** The parsing loop *)

Section ParseFacts.
Variable lit : string -> result value.
Variable fs : string -> result string.

(** The loop ends within its bound. *)
Lemma parse_loop_total (fuel : nat) :
  forall (lx : Shlex.shlex) (d : gmap string value),
    (lex_measure lx < fuel)%nat -> is_Some (parse_loop lit fuel lx d).
Proof.
  induction fuel as [|fuel IH]; intros lx d Hlt; [lia|]. simpl.
  destruct (Shlex.get_token lx) as [[i lx1]|e] eqn:H1; [|done].
  destruct (Shlex.nonempty i) eqn:Hi; [|done].
  destruct (Shlex.get_token lx1) as [[? lx2]|e] eqn:H2; [|done].
  destruct (Shlex.get_token lx2) as [[tok lx3]|e] eqn:H3; [|done].
  destruct (_typer lit tok) as [v|e]; [|done].
  apply IH.
  apply get_token_measure in H1, H2, H3. rewrite Hi in H1. simpl in H1. lia.
Qed.

Lemma parse_body_total (path : string) (d : gmap string value) :
  is_Some (parse_body lit fs path d).
Proof.
  unfold parse_body. destruct (fs path) as [text|e]; [|done].
  apply parse_loop_total. unfold lex_fuel, lex_measure. simpl. lia.
Qed.

(** Parsing on top of a dictionary is parsing from the empty dictionary
    and then overlaying the entries read: the loop only ever inserts. *)
Lemma parse_loop_union (fuel : nat) :
  forall (lx : Shlex.shlex) (d0 d : gmap string value),
    parse_loop lit fuel lx (d0 ∪ d)
    = (fun r : result (gmap string value) => (fun m => m ∪ d) <$> r)
        <$> parse_loop lit fuel lx d0.
Proof.
  induction fuel as [|fuel IH]; intros lx d0 d; [reflexivity|]. simpl.
  destruct (Shlex.get_token lx) as [[i lx1]|e]; [|reflexivity].
  destruct (Shlex.nonempty i); [|reflexivity].
  destruct (Shlex.get_token lx1) as [[? lx2]|e]; [|reflexivity].
  destruct (Shlex.get_token lx2) as [[tok lx3]|e]; [|reflexivity].
  destruct (_typer lit tok) as [v|e]; [|reflexivity].
  rewrite insert_union_l. apply IH.
Qed.

Lemma parse_body_union (path : string) (d : gmap string value) :
  parse_body lit fs path d
  = (fun r : result (gmap string value) => (fun m => m ∪ d) <$> r)
      <$> parse_body lit fs path ∅.
Proof.
  unfold parse_body. destruct (fs path) as [text|e]; [|reflexivity].
  rewrite <- parse_loop_union. by rewrite (left_id_L ∅ (∪)).
Qed.

(** [_typer] raises what the literal evaluator raises, or [ValueError]
    from the integer parser. *)
Lemma _typer_raise (s : string) (e : exn) :
  _typer lit s = Raise e -> e = ValueError \/ lit s = Raise e.
Proof.
  rewrite _typer_unfold. repeat case_match; try done; try by right.
  unfold PyInt.int. repeat case_match; try done; intros [= <-]; by left.
Qed.

Lemma parse_loop_raise (fuel : nat) :
  forall (lx : Shlex.shlex) (d : gmap string value) (e : exn),
    lexer_ok lx ->
    parse_loop lit fuel lx d = Some (Raise e) ->
    e = ValueError \/ exists s, token_shape s /\ lit s = Raise e.
Proof.
  induction fuel as [|fuel IH]; intros lx d e Hlx H; [done|]. simpl in H.
  destruct (Shlex.get_token lx) as [[i lx1]|e1] eqn:H1;
    [|injection H as ->; left; by eapply get_token_raise].
  apply get_token_shape in H1 as [_ Hlx1]; [|done].
  destruct (Shlex.nonempty i); [|done].
  destruct (Shlex.get_token lx1) as [[? lx2]|e2] eqn:H2;
    [|injection H as ->; left; by eapply get_token_raise].
  apply get_token_shape in H2 as [_ Hlx2]; [|done].
  destruct (Shlex.get_token lx2) as [[tok lx3]|e3] eqn:H3;
    [|injection H as ->; left; by eapply get_token_raise].
  apply get_token_shape in H3 as [Htok Hlx3]; [|done].
  destruct (_typer lit tok) as [v|e4] eqn:H4.
  - by eapply IH.
  - injection H as ->. apply _typer_raise in H4 as [->|H4]; [by left|].
    right. by exists tok.
Qed.

Lemma parse_body_raise (path : string) (d : gmap string value) (e : exn) :
  parse_body lit fs path d = Some (Raise e) ->
  e = ValueError \/ fs path = Raise e
  \/ exists s, token_shape s /\ lit s = Raise e.
Proof.
  unfold parse_body. destruct (fs path) as [text|e1].
  - intros [->|H]%parse_loop_raise; auto. apply lexer_for_ok.
  - intros [= ->]. auto.
Qed.

End ParseFacts.

(** ** Defaults and overlay *)

Lemma _parse_inlist_Return_inv (lit : string -> result value)
    (fs : string -> result string) (path : string)
    (d0 : option (gmap string value)) (m : gmap string value) :
  _parse_inlist lit fs path d0 = Some (Return (Some m)) ->
  parse_body lit fs path (default ∅ d0) = Some (Return m).
Proof.
  unfold _parse_inlist.
  replace (match d0 with Some d => d | None => ∅ end) with (default ∅ d0)
    by by destruct d0.
  destruct (parse_body lit fs path (default ∅ d0)) as [[m'|e]|]; simpl;
    [by intros [= ->]| |done].
  by destruct e.
Qed.

(** C2. When the defaults file parses to the mapping [D] and the run file,
    parsed on its own, gives the entries [E], [get_inlist_values] returns
    the overlay of [E] on [D]: a key of [E] has its value from [E], a key of
    [D] alone keeps its value from [D], and values are never merged. *)
Theorem C2_defaults_overlay (lit : string -> result value)
    (fs : string -> result string) (inlist_path : string)
    (D E : gmap string value) :
  _get_default_inlist_values lit fs inlist_path = Some (Return (Some D)) ->
  _parse_inlist lit fs inlist_path None = Some (Return (Some E)) ->
  get_inlist_values lit fs inlist_path = Some (Return (Some (E ∪ D)))
  /\ (forall k v, E !! k = Some v -> (E ∪ D) !! k = Some v)
  /\ (forall k, E !! k = None -> (E ∪ D) !! k = D !! k).
Proof.
  intros HD HE. split; [|split].
  - unfold get_inlist_values. rewrite HD. simpl.
    apply _parse_inlist_Return_inv in HE. simpl in HE.
    unfold _parse_inlist. rewrite parse_body_union, HE. reflexivity.
  - intros k v Hk. by apply lookup_union_Some_l.
  - intros k Hk. by apply lookup_union_r.
Qed.

Lemma C2_defaults_overlay_witness :
  get_inlist_values LiteralEval.literal_eval Overlay.fs Overlay.run_path
  = Some (Return (Some (Overlay.entries ∪ Overlay.defaults)))
  /\ Overlay.entries ∪ Overlay.defaults = Overlay.merged.
Proof.
  split; [|vm_compute; reflexivity].
  apply (C2_defaults_overlay LiteralEval.literal_eval Overlay.fs
           Overlay.run_path Overlay.defaults Overlay.entries);
    vm_compute; reflexivity.
Defined.

(** ** The token stream of a file *)

Section EndOfText.
Import Shlex.

Lemma read_loop_end (lx : shlex) (s : string) :
  forall (in_comment : bool) (st : lex_state) (token tok : string) (lx' : shlex),
    (st = St_ws -> token = EmptyString) ->
    (st = St_word -> nonempty token = true) ->
    read_loop lx in_comment st token [] s = Return (tok, lx') ->
    lexer_between lx' /\ (nonempty tok = false -> lexer_at_end lx').
Proof.
  assert (Hset : forall s' st', st' = St_ws \/ st' = St_eof ->
                   lexer_between (set_stream lx s' [] st')).
  { intros s' st' Hst. split; [exact Hst|constructor]. }
  assert (Hend : forall s', lexer_at_end (set_stream lx s' [] St_eof)) by done.
  induction s as [|c s IH]; intros ic st token tok lx' Hws Hword H.
  - simpl in H. destruct st; simplify_eq; (split; [apply Hset; auto|auto]).
  - simpl in H. destruct ic; [by apply IH in H|].
    destruct st.
    + simplify_eq. split; [apply Hset; auto|auto].
    + rewrite (Hws eq_refl) in H. simpl in H.
      destruct (chr_in c (whitespace lx)); [by apply IH in H|].
      destruct (chr_in c (commenters lx)); [by apply IH in H|].
      destruct (chr_in c (wordchars lx)); [by apply IH in H|].
      destruct (chr_in c (quotes lx)); [by apply IH in H|].
      simplify_eq. split; [apply Hset; auto|done].
    + rewrite (Hword eq_refl) in H.
      destruct (chr_in c (whitespace lx)).
      { simplify_eq. split; [apply Hset; auto|]. by rewrite Hword. }
      destruct (chr_in c (commenters lx)); [by apply IH in H|].
      destruct (chr_in c (wordchars lx) || chr_in c (quotes lx)).
      { apply IH in H; [done|done|]. intros _. apply nonempty_app_one. }
      simplify_eq. split; [|by rewrite Hword].
      split; [by left|]. by repeat constructor.
    + destruct (chr_eqb c q).
      * simplify_eq. split; [apply Hset; auto|]. by rewrite nonempty_app_one.
      * by apply IH in H.
Qed.

Lemma get_token_between (lx : shlex) (tok : string) (lx' : shlex) :
  lexer_between lx -> get_token lx = Return (tok, lx') ->
  lexer_between lx' /\ (nonempty tok = false -> lexer_at_end lx').
Proof.
  intros [Hst Hpb]. unfold get_token, read_token.
  destruct (pushback lx) as [|t pb] eqn:Hp.
  - apply read_loop_end.
    + done.
    + intros Hw. destruct Hst; congruence.
  - intros [= <- <-]. inversion Hpb as [|?? Ht Hpb']; subst.
    split; [by split|]. by rewrite Ht.
Qed.

Lemma get_token_at_end (lx : shlex) :
  lexer_at_end lx ->
  exists lx', get_token lx = Return (EmptyString, lx') /\ lexer_at_end lx'.
Proof.
  intros [Hst Hpb]. unfold get_token, read_token. rewrite Hpb, Hst.
  destruct (instream lx); simpl; eexists; split; try reflexivity; by split.
Qed.

Lemma lexer_for_between (text : string) : lexer_between (lexer_for text).
Proof. split; [by left|constructor]. Qed.

End EndOfText.

Section TokenStream.
Variable lit : string -> result value.
Variable fs : string -> result string.

Lemma load_nil (fin : result unit) (d : gmap string value) :
  Tokens.load lit [] fin d = Tokens.finish lit fin [] d.
Proof. reflexivity. Qed.

Lemma load_one (k : string) (fin : result unit) (d : gmap string value) :
  Tokens.load lit [k] fin d = Tokens.finish lit fin [k] d.
Proof. reflexivity. Qed.

Lemma load_two (k s : string) (fin : result unit) (d : gmap string value) :
  Tokens.load lit [k; s] fin d = Tokens.finish lit fin [k; s] d.
Proof. reflexivity. Qed.

Lemma load_three (k s v : string) (toks : list string) (fin : result unit)
    (d : gmap string value) :
  Tokens.load lit (k :: s :: v :: toks) fin d
  = match _typer lit v with
    | Return x => Tokens.load lit toks fin (<[k := x]> d)
    | Raise e => Some (Raise e)
    end.
Proof.
  unfold Tokens.load. cbn [Tokens.triples].
  destruct (Tokens.triples toks) as [es rest]. cbn [Lines.load_entries].
  by destruct (_typer lit v).
Qed.

(** After the end of the text the loop reads the empty token as a value
    and stops at the next round. *)
Lemma parse_loop_at_end (fuel : nat) (lx : Shlex.shlex) (k : string)
    (d : gmap string value) :
  lexer_at_end lx ->
  (match _typer lit EmptyString with
   | Return x => parse_loop lit (S fuel) lx (<[k := x]> d)
   | Raise e => Some (Raise e)
   end)
  = Lines.load_entries lit [(k, EmptyString)] d.
Proof.
  intros Hend. cbn [Lines.load_entries].
  destruct (_typer lit EmptyString) as [x|e]; [|done].
  destruct (get_token_at_end lx Hend) as (lx' & Hg & _).
  cbn [parse_loop]. by rewrite Hg.
Qed.

Lemma parse_loop_tokens (f1 : nat) :
  forall (lx : Shlex.shlex) (d : gmap string value) (f2 : nat),
    lexer_between lx ->
    (lex_measure lx < f1)%nat -> (lex_measure lx < f2)%nat ->
    exists toks fin,
      Tokens.read_all f2 lx = Some (toks, fin)
      /\ parse_loop lit f1 lx d = Tokens.load lit toks fin d.
Proof.
  induction f1 as [|f1 IH]; intros lx d f2 Hlx H1 H2; [lia|].
  destruct f2 as [|f2]; [lia|]. cbn [parse_loop Tokens.read_all].
  destruct (Shlex.get_token lx) as [[k lx1]|e] eqn:G1; [|by eexists _, _].
  pose proof (get_token_measure _ _ _ G1) as M1.
  apply get_token_between in G1 as [Hlx1 _]; [|done].
  destruct (Shlex.nonempty k) eqn:Hk; [|by eexists _, _].
  cbn [b2n] in M1.
  destruct f2 as [|f2]; [lia|]. cbn [Tokens.read_all].
  destruct (Shlex.get_token lx1) as [[s lx2]|e] eqn:G2; [|by eexists _, _].
  pose proof (get_token_measure _ _ _ G2) as M2.
  apply get_token_between in G2 as [Hlx2 Hend2]; [|done].
  destruct (Shlex.nonempty s) eqn:Hs.
  - cbn [b2n] in M2. destruct f2 as [|f2]; [lia|]. cbn [Tokens.read_all].
    destruct (Shlex.get_token lx2) as [[v lx3]|e] eqn:G3; [|by eexists _, _].
    pose proof (get_token_measure _ _ _ G3) as M3.
    apply get_token_between in G3 as [Hlx3 Hend3]; [|done].
    destruct (Shlex.nonempty v) eqn:Hv.
    + cbn [b2n] in M3.
      destruct (_typer lit v) as [x|e] eqn:Hty.
      * destruct (IH lx3 (<[k := x]> d) f2 Hlx3) as (toks & fin & -> & ->);
          [lia|lia|].
        eexists _, _. split; [reflexivity|]. by rewrite load_three, Hty.
      * destruct (IH lx3 d f2 Hlx3) as (toks & fin & -> & _); [lia|lia|].
        eexists _, _. split; [reflexivity|]. by rewrite load_three, Hty.
    + apply nonempty_false in Hv as ->.
      eexists _, _. split; [reflexivity|]. rewrite load_two.
      cbn [Tokens.finish]. destruct f1 as [|f1]; [lia|].
      by apply parse_loop_at_end, Hend3.
  - apply nonempty_false in Hs as ->. specialize (Hend2 eq_refl).
    destruct (get_token_at_end lx2 Hend2) as (lx3 & -> & Hend3).
    eexists _, _. split; [reflexivity|]. rewrite load_one.
    cbn [Tokens.finish]. destruct f1 as [|f1]; [lia|].
    by apply parse_loop_at_end.
Qed.

(** The [try] block of [_parse_inlist] loads the token stream of the
    file. *)
Lemma parse_body_tokens (path : string) (d : gmap string value) :
  parse_body lit fs path d = Tokens.load_file lit fs path d.
Proof.
  unfold parse_body, Tokens.load_file, Tokens.of_text.
  destruct (fs path) as [text|e]; [|done].
  fold (lexer_for text).
  destruct (parse_loop_tokens (lex_fuel (lexer_for text)) (lexer_for text) d
              (lex_fuel (lexer_for text)) (lexer_for_between text))
    as (toks & fin & -> & ->); [unfold lex_fuel, lex_measure; lia..|].
  reflexivity.
Qed.

End TokenStream.

(** ** The exceptions of the literal evaluator model *)

Section LiteralEvalFacts.
Import LiteralEval.

Lemma parse_number_raise (s : string) (e : exn) :
  parse_number s = Raise e -> e = SyntaxError.
Proof.
  unfold parse_number. repeat case_match; intros; by simplify_eq.
Qed.

Lemma negate_raise (v : value) (e : exn) :
  negate v = Raise e -> e = ValueError.
Proof. destruct v; simpl; intros; by simplify_eq. Qed.

Lemma parse_raise (fuel : nat) :
  (forall s e, parse_expr fuel s = Raise e ->
               e = SyntaxError \/ e = ValueError)
  /\ (forall close s e, parse_seq fuel close s = Raise e ->
                        e = SyntaxError \/ e = ValueError).
Proof.
  induction fuel as [|fuel [IHe IHs]].
  { split; simpl; intros; simplify_eq; by left. }
  split.
  - intros s e H. simpl in H. unfold mbind, result_bind in H.
    repeat (case_match; simplify_eq); eauto;
      try (left; by eapply parse_number_raise);
      try (right; by eapply negate_raise).
  - intros close s e H. simpl in H. unfold mbind, result_bind in H.
    repeat (case_match; simplify_eq); eauto.
Qed.

Lemma literal_eval_raise (s : string) (e : exn) :
  literal_eval s = Raise e -> e = SyntaxError \/ e = ValueError.
Proof.
  unfold literal_eval, mbind, result_bind.
  destruct (parse_seq _ None s) as [[[l c] r]|e'] eqn:H.
  - destruct l; intros; simplify_eq; by left.
  - intros [= ->]. by eapply (proj2 (parse_raise _)).
Qed.

Lemma literal_eval_not_caught (s : string) :
  literal_eval s <> Raise NameError /\ literal_eval s <> Raise TypeError.
Proof. split; intros [?|?]%literal_eval_raise; discriminate. Qed.

End LiteralEvalFacts.

(** ** Errors abort the load *)

Section Propagation.
Variable lit : string -> result value.
Variable fs : string -> result string.
Hypothesis lit_not_caught :
  forall s, token_shape s ->
            lit s <> Raise NameError /\ lit s <> Raise TypeError.
Hypothesis fs_not_caught :
  forall p, fs p <> Raise NameError /\ fs p <> Raise TypeError.

(** No exception of the two classes that [_parse_inlist] catches is
    raised inside its [try] block. *)
Lemma parse_body_not_caught (path : string) (d : gmap string value) (e : exn) :
  parse_body lit fs path d = Some (Raise e) -> e <> NameError /\ e <> TypeError.
Proof.
  intros [->|[H|(s & Hs & H)]]%parse_body_raise; [done| |].
  - destruct (fs_not_caught path). split; by intros ->.
  - destruct (lit_not_caught s Hs). split; by intros ->.
Qed.

(** So [_parse_inlist] hands on the outcome of its [try] block. *)
Lemma _parse_inlist_passes (path : string) (d0 : option (gmap string value)) :
  _parse_inlist lit fs path d0
  = (fun r : result (gmap string value) => Some <$> r)
      <$> parse_body lit fs path (default ∅ d0).
Proof.
  unfold _parse_inlist.
  replace (match d0 with Some d => d | None => ∅ end) with (default ∅ d0)
    by by destruct d0.
  destruct (parse_body lit fs path (default ∅ d0)) as [[m|e]|] eqn:H;
    [reflexivity| |reflexivity].
  apply parse_body_not_caught in H as [??]. by destruct e.
Qed.

End Propagation.

(** C7. Provided that neither opening a file nor the literal evaluator, on
    the texts that the lexer can hand out as a token, raises [NameError] or
    [TypeError] (the classes that [_parse_inlist] catches; the lexer and
    the integer parser raise [ValueError] only).  [Tokens.load_file] says
    what loading a file is without the loop of [_parse_inlist]: the tokens
    of its text taken three by three, each value typed by [_typer], and the
    first error met in reading order, be it of [open], of the lexer or of
    [_typer].  Then: the error that the defaults file meets is the outcome
    of [get_inlist_values]; with the defaults loaded, the error that the run
    file meets is the outcome; with both loaded, the outcome is the full
    merge, the entries of the whole run file laid over the mapping of the
    whole defaults file; and every call either raises or returns that full
    merge.  There is no third outcome: no [None], no partly built mapping,
    no run-away loop; and the load of a file always has an outcome. *)
Theorem C7_errors_propagate (lit : string -> result value)
    (fs : string -> result string) (inlist_path : string) :
  (forall s, token_shape s ->
             lit s <> Raise NameError /\ lit s <> Raise TypeError) ->
  (forall p, fs p <> Raise NameError /\ fs p <> Raise TypeError) ->
  (forall g1 g2 e,
      compiled_regex_defaults_match inlist_path = Some (g1, g2) ->
      Tokens.load_file lit fs (g1 ++ "/defaults/" ++ g2 ++ ".defaults") ∅
      = Some (Raise e) ->
      get_inlist_values lit fs inlist_path = Some (Raise e))
  /\ (forall g1 g2 D e,
        compiled_regex_defaults_match inlist_path = Some (g1, g2) ->
        Tokens.load_file lit fs (g1 ++ "/defaults/" ++ g2 ++ ".defaults") ∅
        = Some (Return D) ->
        Tokens.load_file lit fs inlist_path ∅ = Some (Raise e) ->
        get_inlist_values lit fs inlist_path = Some (Raise e))
  /\ (forall g1 g2 D E,
        compiled_regex_defaults_match inlist_path = Some (g1, g2) ->
        Tokens.load_file lit fs (g1 ++ "/defaults/" ++ g2 ++ ".defaults") ∅
        = Some (Return D) ->
        Tokens.load_file lit fs inlist_path ∅ = Some (Return E) ->
        get_inlist_values lit fs inlist_path = Some (Return (Some (E ∪ D))))
  /\ ((exists e, get_inlist_values lit fs inlist_path = Some (Raise e))
      \/ (exists g1 g2 D E,
            compiled_regex_defaults_match inlist_path = Some (g1, g2)
            /\ Tokens.load_file lit fs
                 (g1 ++ "/defaults/" ++ g2 ++ ".defaults") ∅
               = Some (Return D)
            /\ Tokens.load_file lit fs inlist_path ∅ = Some (Return E)
            /\ get_inlist_values lit fs inlist_path
               = Some (Return (Some (E ∪ D)))))
  /\ (forall p d, exists r, Tokens.load_file lit fs p d = Some r).
Proof.
  intros Hlit Hfs.
  assert (Hcaught : forall p d e,
             parse_body lit fs p d = Some (Raise e) -> e <> NameError).
  { intros p d e H. by apply (parse_body_not_caught lit fs Hlit Hfs) in H as [??]. }
  split; [|split; [|split; [|split]]].
  5: { intros p d. rewrite <- parse_body_tokens.
       destruct (parse_body_total lit fs p d) as [r ->]. by exists r. }
  - intros g1 g2 e Hm He. rewrite <- parse_body_tokens in He.
    unfold get_inlist_values, _get_default_inlist_values.
    rewrite Hm, (_parse_inlist_passes lit fs Hlit Hfs). simpl. by rewrite He.
  - intros g1 g2 D e Hm HD He. rewrite <- parse_body_tokens in HD, He.
    unfold get_inlist_values, _get_default_inlist_values.
    rewrite Hm, !(_parse_inlist_passes lit fs Hlit Hfs). simpl. rewrite HD.
    simpl. rewrite (_parse_inlist_passes lit fs Hlit Hfs). simpl.
    rewrite parse_body_union, He. simpl.
    apply Hcaught in He. by destruct e.
  - intros g1 g2 D E Hm HD HE. rewrite <- parse_body_tokens in HD, HE.
    unfold get_inlist_values, _get_default_inlist_values.
    rewrite Hm, !(_parse_inlist_passes lit fs Hlit Hfs). simpl. rewrite HD.
    simpl. rewrite (_parse_inlist_passes lit fs Hlit Hfs). simpl.
    by rewrite parse_body_union, HE.
  - unfold get_inlist_values, _get_default_inlist_values.
    destruct (compiled_regex_defaults_match inlist_path) as [[g1 g2]|];
      [|left; by eexists].
    rewrite !(_parse_inlist_passes lit fs Hlit Hfs). simpl.
    destruct (parse_body_total lit fs (g1 ++ "/defaults/" ++ g2 ++ ".defaults") ∅)
      as [[D|e] HD]; rewrite HD; simpl; [|left; by eexists].
    rewrite !(_parse_inlist_passes lit fs Hlit Hfs). simpl.
    rewrite parse_body_union.
    destruct (parse_body_total lit fs inlist_path ∅) as [[E|e] HE];
      rewrite HE; simpl.
    + right. exists g1, g2, D, E. by rewrite <- !parse_body_tokens.
    + left. exists e. apply Hcaught in HE. by destruct e.
Qed.

Lemma C7_errors_propagate_witness :
  Tokens.load_file LiteralEval.literal_eval Rejected.fs Rejected.run_path ∅
  = Some (Raise ValueError)
  /\ get_inlist_values LiteralEval.literal_eval Rejected.fs Rejected.run_path
     = Some (Raise ValueError).
Proof.
  split; [vm_compute; reflexivity|].
  apply (proj1 (proj2 (C7_errors_propagate LiteralEval.literal_eval
                         Rejected.fs Rejected.run_path
                         (fun s _ => literal_eval_not_caught s)
                         ltac:(intros p; unfold Rejected.fs;
                               by repeat case_match)))
           "work" "case" (<["a" := VInt 1]> ∅) ValueError);
    vm_compute; reflexivity.
Defined.

(** The loop of [_parse_inlist] always ends within its bound: the entry
    point has an outcome for every file system and every path. *)
Lemma get_inlist_values_total (lit : string -> result value)
    (fs : string -> result string) (inlist_path : string) :
  is_Some (get_inlist_values lit fs inlist_path).
Proof.
  assert (Htot : forall p d, is_Some (_parse_inlist lit fs p d)).
  { intros p d. unfold _parse_inlist.
    by destruct (parse_body_total lit fs p
                   match d with Some d => d | None => ∅ end) as [r ->]. }
  unfold get_inlist_values, _get_default_inlist_values.
  destruct (compiled_regex_defaults_match inlist_path) as [[g1 g2]|]; [|done].
  destruct (Htot (g1 ++ "/defaults/" ++ g2 ++ ".defaults") None) as [[d|e] ->];
    simpl; [|done].
  by destruct (Htot inlist_path d) as [r ->].
Qed.

(** ** The fixture, end to end *)

Lemma parse_body_text (lit : string -> result value)
    (fs : string -> result string) (path text : string)
    (d : gmap string value) :
  fs path = Return text ->
  parse_body lit fs path d
  = parse_loop lit (lex_fuel (lexer_for text)) (lexer_for text) d.
Proof. unfold parse_body. by intros ->. Qed.

Lemma fixture_fs_run (base : string) :
  Fixture.fs base (Fixture.my_path base) = Return Fixture.my_text.
Proof. unfold Fixture.fs. by rewrite String.eqb_refl. Qed.

Lemma fixture_fs_defaults (base : string) :
  Fixture.fs base (Fixture.my_path_default base) = Return Fixture.my_text.
Proof.
  unfold Fixture.fs. rewrite String.eqb_refl. by case_match.
Qed.

(** The text of the fixture, parsed on the empty dictionary. *)
Lemma fixture_text_parses :
  parse_loop LiteralEval.literal_eval (lex_fuel (lexer_for Fixture.my_text))
    (lexer_for Fixture.my_text) ∅
  = Some (Return Fixture.expected_output).
Proof. vm_compute. reflexivity. Qed.

Lemma fixture_parse_defaults (base : string) :
  _parse_inlist LiteralEval.literal_eval (Fixture.fs base)
    (Fixture.my_path_default base) None
  = Some (Return (Some Fixture.expected_output)).
Proof.
  unfold _parse_inlist.
  rewrite (parse_body_text _ _ _ _ _ (fixture_fs_defaults base)).
  by rewrite fixture_text_parses.
Qed.

Lemma fixture_parse_run (base : string) :
  _parse_inlist LiteralEval.literal_eval (Fixture.fs base)
    (Fixture.my_path base) (Some Fixture.expected_output)
  = Some (Return (Some Fixture.expected_output)).
Proof.
  unfold _parse_inlist.
  rewrite parse_body_union,
    (parse_body_text _ _ _ _ _ (fixture_fs_run base)), fixture_text_parses.
  cbn [fmap option_fmap option_map result_fmap mbind option_bind].
  by rewrite (idemp_L (∪)).
Qed.

(** C1. With the fixture text written to [<base>/my_data0/test.in] and to
    [<base>/defaults/test.defaults], [get_inlist_values] on the first path
    returns exactly the expected mapping of the test; the entry
    [my_comment_load = 8%7%6] gives the integer 8, the rest of the line
    being a comment. *)
Theorem C1_fixture_loads (base : string) :
  all_chars Re.dot base = true ->
  get_inlist_values LiteralEval.literal_eval (Fixture.fs base)
    (Fixture.my_path base)
  = Some (Return (Some Fixture.expected_output))
  /\ Fixture.expected_output !! "my_comment_load" = Some (VInt 8).
Proof.
  intros Hbase. split; [|vm_compute; reflexivity].
  unfold get_inlist_values, _get_default_inlist_values.
  change (Fixture.my_path base)
    with (base ++ String "/" ("my_data0" ++ String "/" ("test" ++ String "." "in"))).
  rewrite defaults_match_shape by (done || reflexivity).
  change (base ++ String "/" ("my_data0" ++ String "/" ("test" ++ String "." "in")))
    with (Fixture.my_path base).
  change (base ++ "/defaults/" ++ "test" ++ ".defaults")
    with (Fixture.my_path_default base).
  rewrite fixture_parse_defaults. cbn [mbind option_bind].
  by rewrite fixture_parse_run.
Qed.

Lemma C1_fixture_loads_witness :
  get_inlist_values LiteralEval.literal_eval (Fixture.fs Fixture.tmp)
    (Fixture.my_path Fixture.tmp)
  = Some (Return (Some Fixture.expected_output))
  /\ Fixture.expected_output !! "my_comment_load" = Some (VInt 8).
Proof. apply (C1_fixture_loads Fixture.tmp). reflexivity. Defined.

(** ** TOML: what the normalisation leaves behind *)

(** X1. Normalising twice is normalising once: after a call of
    [_adjust_for_none] that returned, another call changes nothing in the
    dictionary, whatever room it finds on the stack. *)
Theorem X1_adjust_for_none_idempotent
    (stack_overflow stack_overflow' : list string -> bool)
    (parsed_dict : Toml.dict) :
  (Toml._adjust_for_none stack_overflow parsed_dict).2 = Return tt ->
  (Toml._adjust_for_none stack_overflow'
     (Toml._adjust_for_none stack_overflow parsed_dict).1).1
  = (Toml._adjust_for_none stack_overflow parsed_dict).1.
Proof.
  intros Hret. rewrite (_adjust_for_none_Return _ _ Hret).
  unfold Toml._adjust_for_none.
  destruct (stack_overflow' []); [done|]. apply for_items_id.
  apply Forall_fmap, Forall_forall. intros [k v] _. cbn.
  apply adjust_normalised.
Qed.

Lemma X1_adjust_for_none_idempotent_witness :
  (Toml._adjust_for_none (depth_limit 1)
     (Toml._adjust_for_none (depth_limit 1000)
        [("a", TTable [("b", TTable [])])]).1).1
  = (Toml._adjust_for_none (depth_limit 1000)
       [("a", TTable [("b", TTable [])])]).1.
Proof.
  apply (X1_adjust_for_none_idempotent (depth_limit 1000) (depth_limit 1)
           [("a", TTable [("b", TTable [])])]).
  reflexivity.
Defined.

(** X2. After a call of [_adjust_for_none] that returned, no entry reached
    through nested tables holds an empty table any more; and the call
    returns when the stack has room for the nesting of the dictionary. *)
Theorem X2_no_empty_table_left (stack_overflow : list string -> bool)
    (parsed_dict : Toml.dict) :
  ((Toml._adjust_for_none stack_overflow parsed_dict).2 = Return tt ->
   forall ks : list string,
     ks <> [] ->
     Toml.lookup_pos (Toml.keys ks)
       (TTable (Toml._adjust_for_none stack_overflow parsed_dict).1)
     <> Some (TTable []))
  /\ ((forall ks, (length ks <= table_depth (TTable parsed_dict))%nat ->
                  stack_overflow ks = false) ->
      (Toml._adjust_for_none stack_overflow parsed_dict).2 = Return tt).
Proof.
  split; [|apply _adjust_for_none_room].
  intros Hret ks Hne. rewrite (_adjust_for_none_Return _ _ Hret).
  rewrite lookup_keys_normalised_dict by done.
  destruct (Toml.lookup_pos (Toml.keys ks) (TTable parsed_dict)) as [v|];
    [|discriminate].
  intros [= H]. by apply normalised_not_empty_table in H.
Qed.

Lemma X2_no_empty_table_left_witness :
  Toml.lookup_pos (Toml.keys ["a"; "b"])
    (TTable (Toml._adjust_for_none (depth_limit 1000)
               [("a", TTable [("b", TTable [])])]).1)
  <> Some (TTable []).
Proof.
  apply (proj1 (X2_no_empty_table_left (depth_limit 1000)
                  [("a", TTable [("b", TTable [])])])).
  - apply (proj2 (X2_no_empty_table_left (depth_limit 1000)
                    [("a", TTable [("b", TTable [])])])).
    intros ks Hks. cbn in Hks. unfold depth_limit. apply Nat.leb_gt. lia.
  - discriminate.
Defined.

(** X3. [_adjust_for_none] introduces Null only in place of an empty
    table: an entry reached through nested tables that is Null after the
    call, returned or stopped, was an empty table, or was Null already,
    before the call. *)
Theorem X3_null_only_from_empty_table (stack_overflow : list string -> bool)
    (parsed_dict : Toml.dict) (ks : list string) :
  ks <> [] ->
  Toml.lookup_pos (Toml.keys ks)
    (TTable (Toml._adjust_for_none stack_overflow parsed_dict).1)
  = Some TNone ->
  Toml.lookup_pos (Toml.keys ks) (TTable parsed_dict) = Some (TTable [])
  \/ Toml.lookup_pos (Toml.keys ks) (TTable parsed_dict) = Some TNone.
Proof.
  intros Hne.
  destruct (lookup_keys_adjust ks stack_overflow parsed_dict Hne)
    as [->|[so' ->]]; [auto|].
  destruct (Toml.lookup_pos (Toml.keys ks) (TTable parsed_dict)) as [v|];
    [|discriminate].
  intros [= H].
  destruct (adjust_entry_shape so' v)
    as [Hv|[[-> _]|(d0 & d' & _ & _ & Hv & _)]]; [|by left|congruence].
  right. congruence.
Qed.

Lemma X3_null_only_from_empty_table_witness :
  Toml.lookup_pos (Toml.keys ["my-table"; "my-none"])
    (TTable [("my-table", TTable [("my-none", TTable [])])])
  = Some (TTable [])
  \/ Toml.lookup_pos (Toml.keys ["my-table"; "my-none"])
       (TTable [("my-table", TTable [("my-none", TTable [])])])
     = Some TNone.
Proof.
  apply (X3_null_only_from_empty_table (depth_limit 1000)
           [("my-table", TTable [("my-none", TTable [])])]
           ["my-table"; "my-none"]).
  - discriminate.
  - vm_compute. reflexivity.
Defined.

(** ** What [_typer] produces by itself *)

(** X4. The outcome of [_typer] is either exactly the outcome of the
    literal evaluator on the same text, or one of its own: a String, a
    Boolean, Null, an Integer, or the [ValueError] of the integer parser.
    It never exits and never raises another exception of its own. *)
Theorem X4_typer_outcomes (lit : string -> result value) (s : string) :
  _typer lit s = lit s
  \/ (exists t, _typer lit s = Return (VStr t))
  \/ (exists b, _typer lit s = Return (VBool b))
  \/ _typer lit s = Return VNone
  \/ (exists z, _typer lit s = Return (VInt z))
  \/ _typer lit s = Raise ValueError.
Proof.
  rewrite _typer_unfold. repeat case_match; eauto 10.
  unfold PyInt.int. repeat case_match; simpl; eauto 10.
Qed.

Section DigitFacts.

(** A text whose characters all satisfy [p] holds no pattern that starts
    with a character outside [p]. *)
Lemma str_in_all_chars (p : ascii -> bool) (a : ascii) (pat s : string) :
  p a = false -> all_chars p s = true -> str_in (String a pat) s = false.
Proof.
  intros Ha. induction s as [|c s IH]; [reflexivity|].
  simpl. intros [Hc Hs]%andb_true_iff. rewrite (IH Hs), orb_false_r.
  unfold chr_eqb. destruct (Ascii.eqb a c) eqn:Hac; [|reflexivity].
  apply Ascii.eqb_eq in Hac as ->. congruence.
Qed.

Lemma float_prefix_all_chars (p : ascii -> bool) (s : string) :
  p "e"%char = false -> p "E"%char = false ->
  all_chars p s = true -> ~ float_prefix s.
Proof.
  intros He HE Hs (ds & c & ms & ds' & rest & -> & _ & _ & Hc & _).
  rewrite all_chars_app in Hs. apply andb_true_iff in Hs as [_ Hs].
  simpl in Hs. apply andb_true_iff in Hs as [Hpc _].
  unfold Re.e_or_E, chr_eqb in Hc.
  apply orb_true_iff in Hc as [Hc|Hc]; apply Ascii.eqb_eq in Hc as ->; congruence.
Qed.

Lemma lstrip_space_id (s : string) :
  all_chars (fun c => negb (PyInt.is_space c)) s = true ->
  PyInt.lstrip_space s = s.
Proof.
  destruct s as [|c s]; [reflexivity|]. simpl.
  intros [Hc _]%andb_true_iff. by destruct (PyInt.is_space c).
Qed.

Lemma rstrip_space_id (s : string) :
  all_chars (fun c => negb (PyInt.is_space c)) s = true ->
  PyInt.rstrip_space s = s.
Proof.
  induction s as [|c s IH]; [reflexivity|]. simpl.
  intros [Hc Hs]%andb_true_iff. rewrite (IH Hs).
  destruct s; [|reflexivity]. by destruct (PyInt.is_space c).
Qed.

Lemma all_chars_impl (p q : ascii -> bool) (s : string) :
  (forall c, p c = true -> q c = true) ->
  all_chars p s = true -> all_chars q s = true.
Proof.
  intros Hpq. induction s as [|c s IH]; [reflexivity|]. simpl.
  intros [Hc Hs]%andb_true_iff. by rewrite (Hpq c Hc), (IH Hs).
Qed.

Lemma digits_acc_digits (s : string) :
  forall (acc : Z) (prev : bool),
    all_chars is_digit s = true ->
    (s <> EmptyString \/ prev = true) ->
    PyInt.digits_acc acc prev s = Some (decimal_acc acc s).
Proof.
  induction s as [|c s IH]; intros acc prev Hs Hne.
  - destruct Hne as [?| ->]; [done|reflexivity].
  - simpl in *. apply andb_true_iff in Hs as [-> Hs]. apply IH; auto.
Qed.

End DigitFacts.

Section IntegerTokens.

Lemma digit_or_minus_not_space (c : ascii) :
  digit_or_minus c = true -> negb (PyInt.is_space c) = true.
Proof.
  destruct c as [[] [] [] [] [] [] [] []]; vm_compute; congruence.
Qed.

Lemma signed_digits_digits (ds : string) :
  ds <> EmptyString -> all_chars is_digit ds = true ->
  PyInt.signed_digits ds = Some (decimal_value ds)
  /\ PyInt.signed_digits (String "-" ds) = Some (- decimal_value ds).
Proof.
  intros Hne Hds. split.
  - destruct ds as [|c ds]; [done|].
    assert (Hc : is_digit c = true) by (simpl in Hds; by destruct (is_digit c)).
    transitivity (PyInt.digits_acc 0 false (String c ds)).
    + destruct c as [[] [] [] [] [] [] [] []]; try reflexivity;
        vm_compute in Hc; discriminate.
    + by apply digits_acc_digits; [|left].
  - cbn [PyInt.signed_digits]. rewrite digits_acc_digits by auto. reflexivity.
Qed.

Lemma int_digits (s : string) (z : Z) :
  all_chars digit_or_minus s = true ->
  PyInt.signed_digits s = Some z ->
  PyInt.int s
  = if (PyInt.count_digits s <=? PyInt.int_max_str_digits)%nat
    then Return z else Raise ValueError.
Proof.
  intros Hs Hz. unfold PyInt.int.
  assert (Hsp : all_chars (fun c => negb (PyInt.is_space c)) s = true).
  { eapply all_chars_impl; [apply digit_or_minus_not_space|done]. }
  by rewrite lstrip_space_id, rstrip_space_id, Hz.
Qed.

Lemma count_digits_digits (ds : string) :
  all_chars is_digit ds = true -> PyInt.count_digits ds = String.length ds.
Proof.
  induction ds as [|c ds IH]; [reflexivity|].
  cbn [all_chars PyInt.count_digits String.length].
  intros [-> Hds]%andb_true_iff. by rewrite (IH Hds).
Qed.

Lemma _typer_digit_or_minus (lit : string -> result value) (s : string) :
  all_chars digit_or_minus s = true ->
  _typer lit s = VInt <$> PyInt.int s.
Proof.
  intros Hs. rewrite _typer_unfold. unfold str1.
  rewrite !(str_in_all_chars digit_or_minus _ _ s) by (done || reflexivity).
  cbn [orb andb].
  destruct (truthy (compiled_float_regex_match s)) eqn:Hm; [|reflexivity].
  apply float_regex_spec in Hm.
  by apply (float_prefix_all_chars digit_or_minus) in Hm.
Qed.

(** X5. A token made of decimal digits, at least one and no more than the
    limit of the conversion, with or without a minus sign in front, is
    typed as the Integer it writes, whatever the literal evaluator does: no
    other rule applies to it and the integer parser accepts it.  With more
    digits than the limit the token is rejected with [ValueError]. *)
Theorem X5_decimal_tokens_are_integers (lit : string -> result value)
    (ds : string) :
  ds <> EmptyString ->
  all_chars is_digit ds = true ->
  ((String.length ds <= PyInt.int_max_str_digits)%nat ->
   _typer lit ds = Return (VInt (decimal_value ds))
   /\ _typer lit (String "-" ds) = Return (VInt (- decimal_value ds)))
  /\ ((PyInt.int_max_str_digits < String.length ds)%nat ->
      _typer lit ds = Raise ValueError
      /\ _typer lit (String "-" ds) = Raise ValueError).
Proof.
  intros Hne Hds.
  assert (Hdm : all_chars digit_or_minus ds = true).
  { eapply all_chars_impl; [|exact Hds]. intros c Hc. unfold digit_or_minus.
    by rewrite Hc. }
  assert (Hdm' : all_chars digit_or_minus (String "-" ds) = true)
    by (cbn [all_chars]; by rewrite Hdm).
  destruct (signed_digits_digits ds Hne Hds) as [Hpos Hneg].
  assert (Hn : PyInt.count_digits (String "-" ds) = String.length ds)
    by (cbn [PyInt.count_digits]; by rewrite count_digits_digits).
  rewrite !_typer_digit_or_minus by done.
  rewrite (int_digits _ _ Hdm Hpos), (int_digits _ _ Hdm' Hneg), Hn.
  rewrite count_digits_digits by done.
  split; intros Hlen.
  - apply Nat.leb_le in Hlen. by rewrite Hlen.
  - apply Nat.leb_gt in Hlen. by rewrite Hlen.
Qed.

Lemma X5_decimal_tokens_are_integers_witness :
  (_typer LiteralEval.literal_eval "2024" = Return (VInt 2024)
   /\ _typer LiteralEval.literal_eval (String "-" "2024") = Return (VInt (-2024)))
  /\ (_typer LiteralEval.literal_eval (repeat_char "1" 4301) = Raise ValueError
      /\ _typer LiteralEval.literal_eval (String "-" (repeat_char "1" 4301))
         = Raise ValueError).
Proof.
  split.
  - apply (proj1 (X5_decimal_tokens_are_integers LiteralEval.literal_eval "2024"
                    ltac:(discriminate) eq_refl)).
    unfold PyInt.int_max_str_digits. cbn [String.length]. lia.
  - apply (proj2 (X5_decimal_tokens_are_integers LiteralEval.literal_eval
                    (repeat_char "1" 4301) ltac:(discriminate)
                    ltac:(vm_compute; reflexivity))).
    apply Nat.ltb_lt. vm_compute. reflexivity.
Defined.

End IntegerTokens.

(** ** The text that the lexer reads *)

Section JoinFacts.

Lemma sapp_assoc (a b c : string) : (a ++ b) ++ c = a ++ (b ++ c).
Proof.
  induction a as [|x a IH]; [reflexivity|]. by rewrite !sapp_cons, IH.
Qed.

Lemma sapp_nil_r (a : string) : a ++ EmptyString = a.
Proof. induction a as [|x a IH]; [reflexivity|]. by rewrite sapp_cons, IH. Qed.

Lemma readlines_acc_nil_inv (cur s : string) :
  PyFile.readlines_acc cur s = [] -> cur = EmptyString /\ s = EmptyString.
Proof.
  revert cur. induction s as [|c s IH]; intros cur; simpl.
  - by destruct cur.
  - destruct (chr_eqb c newline); [done|]. intros H%IH. destruct H as [H _].
    by destruct cur.
Qed.

Lemma join_cons (sep x : string) (l : list string) :
  PyFile.join sep (x :: l)
  = x ++ match l with [] => EmptyString | _ => sep ++ PyFile.join sep l end.
Proof. destruct l; simpl; [by rewrite sapp_nil_r|reflexivity]. Qed.

Lemma join_readlines_acc (cur s : string) :
  PyFile.join (str1 newline) (PyFile.readlines_acc cur s) = cur ++ double_nl s.
Proof.
  revert cur. induction s as [|c s IH]; intros cur.
  - simpl. destruct cur; [reflexivity|]. simpl. by rewrite sapp_nil_r.
  - cbn [PyFile.readlines_acc double_nl].
    destruct (chr_eqb c newline) eqn:Hc.
    + apply Ascii.eqb_eq in Hc as ->. rewrite join_cons.
      destruct s as [|c' s].
      * simpl. by rewrite sapp_nil_r.
      * destruct (PyFile.readlines_acc EmptyString (String c' s)) as [|x l] eqn:Hl.
        { by apply readlines_acc_nil_inv in Hl as [_ ?]. }
        rewrite <- Hl, IH, sapp_nil, sapp_assoc. reflexivity.
    + rewrite IH, sapp_assoc. reflexivity.
Qed.

End JoinFacts.

(** X6. The text that [_parse_inlist] hands to the lexer, the lines of the
    file joined by newlines, is the text of the file with every newline
    doubled except a newline at its very end; a text without newline is
    handed over as it is. *)
Theorem X6_lexer_text_doubles_newlines (text : string) :
  PyFile.join (str1 newline) (PyFile.readlines text) = double_nl text
  /\ (count_char newline text = O -> double_nl text = text).
Proof.
  split.
  - unfold PyFile.readlines. by rewrite join_readlines_acc.
  - induction text as [|c text IH]; [reflexivity|]. simpl.
    destruct (chr_eqb c newline); [done|]. intros H. by rewrite IH.
Qed.

(** ** Reading a file line by line *)

Section LexRules.
Import Shlex Lines.

(** Character classes of the lexer of [_parse_inlist]. *)
Lemma pad_is_ws (c : ascii) : is_pad c = true -> is_ws c = true.
Proof. destruct c as [[] [] [] [] [] [] [] []]; vm_compute; congruence. Qed.

Lemma word_char_plain (c : ascii) :
  is_word_char c = true -> is_ws c = false /\ is_cmt c = false.
Proof. destruct c as [[] [] [] [] [] [] [] []]; vm_compute; intuition congruence. Qed.

Lemma quote_plain (c : ascii) :
  is_quote c = true ->
  is_ws c = false /\ is_cmt c = false /\ is_word_char c = false.
Proof. destruct c as [[] [] [] [] [] [] [] []]; vm_compute; intuition congruence. Qed.

Lemma token_char_plain (c : ascii) :
  is_token_char c = true -> is_ws c = false /\ is_cmt c = false.
Proof.
  unfold is_token_char. intros [H|H]%orb_true_iff.
  - by apply word_char_plain.
  - apply quote_plain in H. tauto.
Qed.

Lemma lexer_for_at_text (text : string) :
  lexer_for text
  = at_text (PyFile.join (str1 newline) (PyFile.readlines text)).
Proof. reflexivity. Qed.

(** Only the settings of the lexer matter to the loop. *)
Lemma read_loop_set_stream (lx : shlex) (a : string) (b : list string)
    (c : lex_state) (s : string) :
  forall in_comment st token pb,
    read_loop (set_stream lx a b c) in_comment st token pb s
    = read_loop lx in_comment st token pb s.
Proof.
  induction s as [|x s IH]; intros ic st token pb; [reflexivity|].
  cbn [read_loop]. destruct ic, st; rewrite ?IH; reflexivity.
Qed.

Ltac lex_fields :=
  change (wordchars base_lexer) with inlist_wordchars;
  change (quotes base_lexer) with (String squote (String dquote EmptyString));
  repeat match goal with
         | |- context [chr_in ?c (whitespace base_lexer)] =>
             change (chr_in c (whitespace base_lexer)) with (is_ws c)
         | |- context [chr_in ?c (commenters base_lexer)] =>
             change (chr_in c (commenters base_lexer)) with (is_cmt c)
         | |- context [chr_in ?c inlist_wordchars] =>
             change (chr_in c inlist_wordchars) with (is_word_char c)
         end;
  rewrite ?chr_in_quotes.

Lemma get_token_at (s : string) (st : lex_state) :
  get_token (set_stream base_lexer s [] st)
  = read_loop base_lexer false st EmptyString [] s.
Proof. unfold get_token, read_token. cbn. apply read_loop_set_stream. Qed.

Lemma get_token_pushed (s t : string) :
  get_token (set_stream base_lexer s [t] St_ws) = Return (t, at_text s).
Proof. reflexivity. Qed.

(** One character in each state. *)
Lemma R_ws_skip (c : ascii) (s : string) :
  is_ws c = true ->
  read_loop base_lexer false St_ws EmptyString [] (String c s)
  = read_loop base_lexer false St_ws EmptyString [] s.
Proof. intros H. cbn [read_loop]. lex_fields. by rewrite H. Qed.

Lemma R_ws_comment (s : string) :
  read_loop base_lexer false St_ws EmptyString [] (String "%" s)
  = read_loop base_lexer true St_ws EmptyString [] s.
Proof. reflexivity. Qed.

Lemma R_ws_word (c : ascii) (s : string) :
  is_word_char c = true ->
  read_loop base_lexer false St_ws EmptyString [] (String c s)
  = read_loop base_lexer false St_word (str1 c) [] s.
Proof.
  intros H. destruct (word_char_plain c H) as [Hw Hc].
  cbn [read_loop]. lex_fields. by rewrite Hw, Hc, H.
Qed.

Lemma R_ws_quote (q : ascii) (s : string) :
  is_quote q = true ->
  read_loop base_lexer false St_ws EmptyString [] (String q s)
  = read_loop base_lexer false (St_quote q) (str1 q) [] s.
Proof.
  intros H. destruct (quote_plain q H) as (Hw & Hc & Hwc).
  cbn [read_loop]. lex_fields. by rewrite Hw, Hc, Hwc, H.
Qed.

Lemma R_ws_equals (s : string) :
  read_loop base_lexer false St_ws EmptyString [] (String "=" s)
  = Return ("=", at_text s).
Proof. reflexivity. Qed.

Lemma R_word_char (tok : string) (c : ascii) (s : string) :
  is_token_char c = true ->
  read_loop base_lexer false St_word tok [] (String c s)
  = read_loop base_lexer false St_word (tok ++ str1 c) [] s.
Proof.
  intros H. destruct (token_char_plain c H) as [Hw Hc].
  cbn [read_loop]. lex_fields. rewrite Hw, Hc.
  change (is_word_char c || is_quote c) with (is_token_char c). by rewrite H.
Qed.

Lemma R_word_ws (tok : string) (c : ascii) (s : string) :
  nonempty tok = true -> is_ws c = true ->
  read_loop base_lexer false St_word tok [] (String c s)
  = Return (tok, at_text s).
Proof. intros Ht H. cbn [read_loop]. lex_fields. by rewrite H, Ht. Qed.

Lemma R_word_comment (tok : string) (s : string) :
  read_loop base_lexer false St_word tok [] (String "%" s)
  = read_loop base_lexer true St_word tok [] s.
Proof. reflexivity. Qed.

Lemma R_word_equals (tok : string) (s : string) :
  nonempty tok = true ->
  read_loop base_lexer false St_word tok [] (String "=" s)
  = Return (tok, set_stream base_lexer s ["="] St_ws).
Proof. intros Ht. cbn. by rewrite Ht. Qed.

Lemma R_word_eof (tok : string) :
  read_loop base_lexer false St_word tok [] EmptyString = Return (tok, at_eof).
Proof. reflexivity. Qed.

Lemma R_ws_eof :
  read_loop base_lexer false St_ws EmptyString [] EmptyString
  = Return (EmptyString, at_eof).
Proof. reflexivity. Qed.

End LexRules.

Section LexRuns.
Import Shlex Lines.

Lemma count_char_cons_zero (c x : ascii) (s : string) :
  count_char c (String x s) = O -> chr_eqb x c = false /\ count_char c s = O.
Proof. simpl. destruct (chr_eqb x c); [done|]. simpl. by intros H. Qed.

(** A comment runs to the end of its line, or to the end of the text. *)
Lemma RC_line (st : lex_state) (tok c s : string) :
  count_char newline c = O ->
  read_loop base_lexer true st tok [] (c ++ String newline s)
  = read_loop base_lexer false st tok [] s.
Proof.
  induction c as [|x c IH]; intros Hc; [reflexivity|].
  apply count_char_cons_zero in Hc as [Hx Hc].
  rewrite ?sapp_cons. cbn [read_loop]. rewrite Hx. by apply IH.
Qed.

Lemma RC_eof (st : lex_state) (tok c : string) :
  count_char newline c = O ->
  read_loop base_lexer true st tok [] c
  = read_loop base_lexer false st tok [] EmptyString.
Proof.
  induction c as [|x c IH]; intros Hc; [reflexivity|].
  apply count_char_cons_zero in Hc as [Hx Hc].
  cbn [read_loop]. rewrite Hx. by apply IH.
Qed.

(** Blanks before a token are skipped. *)
Lemma R_ws_pads (p s : string) :
  all_chars is_pad p = true ->
  read_loop base_lexer false St_ws EmptyString [] (p ++ s)
  = read_loop base_lexer false St_ws EmptyString [] s.
Proof.
  induction p as [|c p IH]; [done|]. intros Hp. simpl in Hp.
  apply andb_true_iff in Hp as [Hc Hp].
  rewrite ?sapp_cons, R_ws_skip by by apply pad_is_ws. by apply IH.
Qed.

(** A run of word and quote characters extends the word. *)
Lemma R_word_run (w s tok : string) :
  all_chars is_token_char w = true ->
  read_loop base_lexer false St_word tok [] (w ++ s)
  = read_loop base_lexer false St_word (tok ++ w) [] s.
Proof.
  revert tok. induction w as [|c w IH]; intros tok.
  - intros _. by rewrite sapp_nil, sapp_nil_r.
  - intros Hw. simpl in Hw. apply andb_true_iff in Hw as [Hc Hw].
    rewrite ?sapp_cons, R_word_char, IH by done.
    by rewrite sapp_assoc.
Qed.

(** A quotation runs to the next occurrence of its quote character. *)
Lemma R_quote_run (q : ascii) (t s tok : string) :
  count_char q t = O ->
  read_loop base_lexer false (St_quote q) tok [] (t ++ String q s)
  = Return (tok ++ t ++ str1 q, at_text s).
Proof.
  revert tok. induction t as [|c t IH]; intros tok Ht.
  - rewrite !sapp_nil. cbn [read_loop]. by rewrite chr_eqb_refl.
  - apply count_char_cons_zero in Ht as [Hc Ht].
    rewrite ?sapp_cons. cbn [read_loop]. rewrite Hc, IH by done.
    by rewrite sapp_assoc.
Qed.

Lemma wf_word_inv (w : string) :
  wf_token (Word w) ->
  exists c w', w = String c w' /\ is_word_char c = true
               /\ all_chars is_token_char w' = true.
Proof.
  intros [Hf Ha]. destruct w as [|c w]; [done|]. exists c, w.
  simpl in *. apply andb_true_iff in Ha as [_ Ha]. done.
Qed.

Lemma nonempty_token_text (t : tokn) :
  wf_token t -> nonempty (token_text t) = true.
Proof.
  destruct t as [w|q t]; [|done]. intros (c & w' & -> & _)%wf_word_inv. done.
Qed.

(** Reading a word and reading a quotation from the start of a token. *)
Lemma R_token_word (w s : string) :
  wf_token (Word w) ->
  read_loop base_lexer false St_ws EmptyString [] (w ++ s)
  = read_loop base_lexer false St_word w [] s.
Proof.
  intros (c & w' & -> & Hc & Hw)%wf_word_inv.
  rewrite ?sapp_cons, R_ws_word, R_word_run by done. reflexivity.
Qed.

Lemma R_token_quoted (q : ascii) (t s : string) :
  wf_token (Quoted q t) ->
  read_loop base_lexer false St_ws EmptyString [] (quoted q t ++ s)
  = Return (quoted q t, at_text s).
Proof.
  intros (Hq & Ht & _). unfold quoted.
  rewrite ?sapp_cons, R_ws_quote, sapp_assoc by done.
  change (str1 q ++ s) with (String q s). by rewrite R_quote_run.
Qed.

(** What the next call of [get_token] skips. *)
Lemma G_pads (p s : string) :
  all_chars is_pad p = true ->
  get_token (at_text (p ++ s)) = get_token (at_text s).
Proof. intros Hp. unfold at_text. by rewrite !get_token_at, R_ws_pads. Qed.

Lemma G_newline (s : string) :
  get_token (at_text (String newline s)) = get_token (at_text s).
Proof. unfold at_text. by rewrite !get_token_at, R_ws_skip. Qed.

Lemma G_eof : get_token at_eof = get_token (at_text EmptyString).
Proof. reflexivity. Qed.

Lemma G_rest (ls : list line) (rest : string) :
  get_token (at_text (rest_after ls rest)) = get_token (at_text (stream ls rest)).
Proof.
  destruct ls; [|apply G_newline]. cbn [rest_after stream].
  destruct rest; [reflexivity|]. apply G_newline.
Qed.

(** The end of a line, from the start of a token: blanks, a comment if
    there is one, the newline. *)
Lemma G_tail (pad : string) (cm : option string) (ls : list line)
    (rest : string) :
  all_chars is_pad pad = true -> wf_comment cm ->
  get_token
    (at_text (pad ++ comment_text cm ++ String newline (rest_after ls rest)))
  = get_token (at_text (stream ls rest)).
Proof.
  intros Hp Hc. rewrite G_pads by done.
  destruct cm as [c|]; cbn [comment_text wf_comment] in *.
  - rewrite sapp_cons. unfold at_text at 1.
    rewrite get_token_at, R_ws_comment, RC_line by done.
    rewrite <- get_token_at. apply G_rest.
  - rewrite sapp_nil, G_newline. apply G_rest.
Qed.

(** The end of a line, from inside a word: the word is handed out and
    the next call starts at the following line. *)
Lemma R_word_tail (w pad : string) (cm : option string) (ls : list line)
    (rest : string) :
  nonempty w = true -> all_chars is_pad pad = true -> wf_comment cm ->
  exists lx,
    read_loop base_lexer false St_word w []
      (pad ++ comment_text cm ++ String newline (rest_after ls rest))
    = Return (w, lx)
    /\ get_token lx = get_token (at_text (stream ls rest)).
Proof.
  intros Hw Hp Hc. destruct pad as [|c pad].
  - rewrite sapp_nil. destruct cm as [c|]; cbn [comment_text wf_comment] in *.
    + rewrite sapp_cons, R_word_comment, RC_line by done.
      destruct ls as [|l ls]; cbn [rest_after stream].
      * destruct rest as [|x rest]; cbn [nonempty].
        -- eexists. split; [apply R_word_eof|apply G_eof].
        -- rewrite R_word_ws by done. by eexists.
      * rewrite R_word_ws by done. by eexists.
    + rewrite sapp_nil, R_word_ws by done.
      eexists. split; [reflexivity|apply G_rest].
  - simpl in Hp. apply andb_true_iff in Hp as [Hc' Hp].
    rewrite ?sapp_cons, R_word_ws by (done || by apply pad_is_ws).
    eexists. split; [reflexivity|]. by apply G_tail.
Qed.

End LexRuns.

Section LineSteps.
Import Shlex Lines.

Lemma stream_cons (l : line) (ls : list line) (rest : string) :
  stream (l :: ls) rest = line_text l ++ String newline (rest_after ls rest).
Proof. reflexivity. Qed.

(** The keyword of an entry line and its [=]. *)
Lemma key_step (ind : string) (key : tokn) (s1 r : string) :
  all_chars is_pad ind = true -> wf_token key -> all_chars is_pad s1 = true ->
  exists lx1,
    get_token (at_text (ind ++ token_text key ++ s1 ++ String "=" r))
    = Return (token_text key, lx1)
    /\ get_token lx1 = Return ("=", at_text r).
Proof.
  intros Hind Hkey Hs1. rewrite G_pads by done.
  unfold at_text at 1. rewrite get_token_at.
  destruct key as [w|q t]; cbn [token_text].
  - rewrite R_token_word by done.
    pose proof (nonempty_token_text (Word w) Hkey) as Hne. cbn in Hne.
    destruct s1 as [|c s1].
    + rewrite sapp_nil, R_word_equals by done. eexists. split; [reflexivity|].
      apply get_token_pushed.
    + simpl in Hs1. apply andb_true_iff in Hs1 as [Hc Hs1].
      rewrite sapp_cons, R_word_ws by (done || by apply pad_is_ws).
      eexists. split; [reflexivity|]. rewrite G_pads by done.
      unfold at_text at 1. by rewrite get_token_at, R_ws_equals.
  - rewrite R_token_quoted by done. eexists. split; [reflexivity|].
    rewrite G_pads by done. unfold at_text at 1.
    by rewrite get_token_at, R_ws_equals.
Qed.

(** The value of an entry line and the rest of the line. *)
Lemma value_step (s2 : string) (value : tokn) (pad : string)
    (cm : option string) (ls : list line) (rest : string) :
  all_chars is_pad s2 = true -> wf_token value ->
  all_chars is_pad pad = true -> wf_comment cm ->
  exists lx3,
    get_token
      (at_text (s2 ++ token_text value ++ pad ++ comment_text cm
                ++ String newline (rest_after ls rest)))
    = Return (token_text value, lx3)
    /\ get_token lx3 = get_token (at_text (stream ls rest)).
Proof.
  intros Hs2 Hv Hpad Hcm. rewrite G_pads by done.
  unfold at_text at 1. rewrite get_token_at.
  destruct value as [w|q t]; cbn [token_text].
  - rewrite R_token_word by done.
    apply R_word_tail; [|done|done].
    exact (nonempty_token_text (Word w) Hv).
  - rewrite R_token_quoted by done. eexists. split; [reflexivity|].
    by apply G_tail.
Qed.

Lemma slength_app (a b : string) :
  String.length (a ++ b) = (String.length a + String.length b)%nat.
Proof.
  induction a as [|c a IH]; [reflexivity|].
  rewrite sapp_cons. cbn [String.length]. by rewrite IH.
Qed.

Lemma rest_after_length (ls : list line) (rest : string) :
  (String.length (stream ls rest) <= String.length (rest_after ls rest))%nat.
Proof.
  destruct ls; cbn [rest_after stream String.length]; [|lia].
  destruct rest; cbn [nonempty String.length]; lia.
Qed.

Lemma stream_shrinks (l : line) (ls : list line) (rest : string) :
  (String.length (stream ls rest) < String.length (stream (l :: ls) rest))%nat.
Proof.
  rewrite stream_cons, slength_app. cbn [String.length].
  pose proof (rest_after_length ls rest) as H. lia.
Qed.

Lemma stream_length_rest (ls : list line) (rest : string) :
  (String.length rest <= String.length (stream ls rest))%nat.
Proof.
  induction ls as [|l ls IH]; [reflexivity|].
  pose proof (stream_shrinks l ls rest). lia.
Qed.

End LineSteps.

Section ParseLines.
Import Shlex Lines.
Variable lit : string -> result value.

(** Two lexers that answer the next call alike are parsed alike. *)
Lemma parse_loop_same_next (fuel : nat) (lx lx' : shlex)
    (d : gmap string value) :
  get_token lx = get_token lx' ->
  parse_loop lit fuel lx d = parse_loop lit fuel lx' d.
Proof. intros H. destruct fuel; [reflexivity|]. simpl. by rewrite H. Qed.

(** Above the bound the amount of fuel does not matter. *)
Lemma parse_loop_fuel (f1 : nat) :
  forall (f2 : nat) (lx : shlex) (d : gmap string value),
    (lex_measure lx < f1)%nat -> (lex_measure lx < f2)%nat ->
    parse_loop lit f1 lx d = parse_loop lit f2 lx d.
Proof.
  induction f1 as [|f1 IH]; intros f2 lx d H1 H2; [lia|].
  destruct f2 as [|f2]; [lia|]. simpl.
  destruct (get_token lx) as [[i lx1]|e] eqn:E1; [|done].
  destruct (nonempty i) eqn:Hi; [|done].
  destruct (get_token lx1) as [[? lx2]|e] eqn:E2; [|done].
  destruct (get_token lx2) as [[tok lx3]|e] eqn:E3; [|done].
  destruct (_typer lit tok) as [v|e]; [|done].
  apply get_token_measure in E1, E2, E3. rewrite Hi in E1. simpl in E1.
  apply IH; lia.
Qed.

Lemma and_then_ext {A : Type} (r : option (result A))
    (k1 k2 : A -> option (result A)) :
  (forall a, k1 a = k2 a) -> and_then r k1 = and_then r k2.
Proof. intros H. destruct r as [[a|e]|]; simpl; auto. Qed.

(** The loop of [_parse_inlist] on the text of well-formed lines followed
    by any text: the entries of the lines are typed and stored in order,
    then the loop goes on with the text that follows. *)
Lemma parse_loop_lines (rest : string) (ls : list line) :
  Forall wf_line ls ->
  forall (d : gmap string value) (fuel : nat),
    (String.length (stream ls rest) < fuel)%nat ->
    parse_loop lit fuel (at_text (stream ls rest)) d
    = and_then (load_entries lit (entries ls) d)
        (fun d' => parse_loop lit fuel (at_text rest) d').
Proof.
  induction 1 as [|l ls Hl Hls IH]; intros d fuel Hfuel; [reflexivity|].
  pose proof (stream_shrinks l ls rest) as Hlt.
  pose proof (stream_length_rest ls rest) as Hrest.
  destruct l as [ind key s1 s2 value pad cm|ind cm].
  - destruct Hl as (Hind & Hkey & Hs1 & Hs2 & Hval & Hpad & Hcm).
    destruct fuel as [|fuel]; [lia|].
    rewrite stream_cons. cbn [line_text].
    repeat (rewrite sapp_assoc || rewrite sapp_cons).
    destruct (key_step ind key s1
                (s2 ++ token_text value ++ pad ++ comment_text cm
                 ++ String newline (rest_after ls rest)) Hind Hkey Hs1)
      as (lx1 & H1 & H2).
    destruct (value_step s2 value pad cm ls rest Hs2 Hval Hpad Hcm)
      as (lx3 & H3 & Hnext).
    set (K := fun d' => parse_loop lit (S fuel) (at_text rest) d').
    cbn [parse_loop entries load_entries].
    rewrite H1, (nonempty_token_text key Hkey), H2, H3.
    destruct (_typer lit (token_text value)) as [x|e]; [|reflexivity].
    rewrite (parse_loop_same_next _ _ _ _ Hnext), IH by lia.
    apply and_then_ext. intros d'. subst K. apply parse_loop_fuel; cbn; lia.
  - destruct Hl as (Hind & Hcm). cbn [entries].
    rewrite stream_cons in *. cbn [line_text] in *.
    rewrite sapp_assoc.
    rewrite (parse_loop_same_next _ _ _ _ (G_tail ind cm ls rest Hind Hcm)).
    apply IH. lia.
Qed.

End ParseLines.

Section FileOfLines.
Import Shlex Lines.

Lemma nonempty_double_nl (s : string) : nonempty (double_nl s) = nonempty s.
Proof.
  destruct s as [|c s]; [reflexivity|]. cbn [double_nl].
  destruct (chr_eqb c newline); [|reflexivity]. by destruct s.
Qed.

Lemma double_nl_line (t r : string) :
  count_char newline t = O ->
  double_nl (t ++ String newline r)
  = t ++ String newline
          (if nonempty r then String newline (double_nl r) else EmptyString).
Proof.
  induction t as [|x t IH]; intros Ht.
  - rewrite !sapp_nil. cbn [double_nl]. rewrite chr_eqb_refl. by destruct r.
  - apply count_char_cons_zero in Ht as [Hx Ht].
    rewrite !sapp_cons. cbn [double_nl]. rewrite Hx. by rewrite IH.
Qed.

Lemma all_chars_count_zero (p : ascii -> bool) (x : ascii) (s : string) :
  (forall c, p c = true -> chr_eqb c x = false) ->
  all_chars p s = true -> count_char x s = O.
Proof.
  intros Hp. induction s as [|c s IH]; [reflexivity|]. simpl.
  intros [Hc Hs]%andb_true_iff. by rewrite (Hp c Hc), (IH Hs).
Qed.

Lemma pad_not_newline (c : ascii) : is_pad c = true -> chr_eqb c newline = false.
Proof. destruct c as [[] [] [] [] [] [] [] []]; vm_compute; congruence. Qed.

Lemma token_char_not_newline (c : ascii) :
  is_token_char c = true -> chr_eqb c newline = false.
Proof. destruct c as [[] [] [] [] [] [] [] []]; vm_compute; congruence. Qed.

Lemma quote_not_newline (c : ascii) :
  is_quote c = true -> chr_eqb c newline = false.
Proof. destruct c as [[] [] [] [] [] [] [] []]; vm_compute; congruence. Qed.

Lemma token_text_no_newline (t : tokn) :
  wf_token t -> count_char newline (token_text t) = O.
Proof.
  destruct t as [w|q t]; cbn [wf_token token_text].
  - intros [_ Hw]. by apply (all_chars_count_zero is_token_char);
      [apply token_char_not_newline|].
  - intros (Hq & _ & Ht). unfold quoted. simpl.
    rewrite (quote_not_newline q Hq), count_char_app, Ht. simpl.
    by rewrite (quote_not_newline q Hq).
Qed.

Lemma pads_no_newline (p : string) :
  all_chars is_pad p = true -> count_char newline p = O.
Proof. by apply all_chars_count_zero, pad_not_newline. Qed.

Lemma comment_text_no_newline (cm : option string) :
  wf_comment cm -> count_char newline (comment_text cm) = O.
Proof. destruct cm; simpl; auto. Qed.

Lemma line_text_no_newline (l : line) :
  wf_line l -> count_char newline (line_text l) = O.
Proof.
  destruct l as [ind key s1 s2 value pad cm|ind cm]; cbn [wf_line line_text].
  - intros (Hind & Hkey & Hs1 & Hs2 & Hval & Hpad & Hcm).
    rewrite !count_char_app. cbn [count_char]. rewrite !count_char_app.
    rewrite (pads_no_newline _ Hind), (pads_no_newline _ Hs1),
      (pads_no_newline _ Hs2), (pads_no_newline _ Hpad),
      (token_text_no_newline _ Hkey), (token_text_no_newline _ Hval),
      (comment_text_no_newline _ Hcm).
    reflexivity.
  - intros (Hind & Hcm). rewrite count_char_app.
    by rewrite (pads_no_newline _ Hind), (comment_text_no_newline _ Hcm).
Qed.

Lemma nonempty_app_cons (a : string) (c : ascii) (b : string) :
  nonempty (a ++ String c b) = true.
Proof. by destruct a. Qed.

(** The lines of a file as they reach the lexer. *)
Lemma double_nl_render (ls : list line) (rest0 : string) :
  Forall wf_line ls ->
  double_nl (render ls ++ rest0) = stream ls (double_nl rest0).
Proof.
  induction 1 as [|l ls Hl Hls IH]; [reflexivity|].
  cbn [render]. rewrite sapp_assoc, sapp_cons.
  rewrite double_nl_line by by apply line_text_no_newline.
  rewrite stream_cons. f_equal. f_equal.
  destruct ls as [|l' ls]; cbn [rest_after].
  - cbn [render]. rewrite sapp_nil. by rewrite nonempty_double_nl.
  - rewrite IH. cbn [render]. by rewrite sapp_assoc, sapp_cons, nonempty_app_cons.
Qed.

Variable lit : string -> result value.
Variable fs : string -> result string.

Lemma parse_body_at_text (path text : string) (d : gmap string value) :
  fs path = Return text ->
  parse_body lit fs path d
  = parse_loop lit (S (String.length (double_nl text)))
      (at_text (double_nl text)) d.
Proof.
  intros H. rewrite (parse_body_text _ _ _ _ _ H), lexer_for_at_text.
  unfold PyFile.readlines. rewrite join_readlines_acc, sapp_nil.
  unfold lex_fuel. cbn. by rewrite Nat.add_0_r.
Qed.

(** A file that starts with well-formed lines: their entries are loaded
    in order, then the rest of the file is parsed on top. *)
Lemma parse_body_lines_then (path path2 : string) (ls : list line)
    (rest0 : string) (d : gmap string value) :
  fs path = Return (render ls ++ rest0) ->
  fs path2 = Return rest0 ->
  Forall wf_line ls ->
  parse_body lit fs path d
  = and_then (load_entries lit (entries ls) d)
      (fun d' => parse_body lit fs path2 d').
Proof.
  intros H1 H2 Hls.
  rewrite (parse_body_at_text _ _ _ H1), double_nl_render by done.
  rewrite parse_loop_lines by (done || lia).
  apply and_then_ext. intros d'. rewrite (parse_body_at_text _ _ _ H2).
  pose proof (stream_length_rest ls (double_nl rest0)).
  apply parse_loop_fuel; cbn; lia.
Qed.

(** A file of well-formed lines. *)
Lemma parse_body_lines (path : string) (ls : list line)
    (d : gmap string value) :
  fs path = Return (render ls) ->
  Forall wf_line ls ->
  parse_body lit fs path d = load_entries lit (entries ls) d.
Proof.
  intros H1 Hls. rewrite (parse_body_at_text _ _ _ H1).
  rewrite <- (sapp_nil_r (render ls)), double_nl_render by done.
  rewrite parse_loop_lines by (done || lia). cbn [double_nl].
  by destruct (load_entries lit (entries ls) d) as [[m|e]|].
Qed.

End FileOfLines.

Section LoadEntriesFacts.
Import Lines.
Variable lit : string -> result value.

Lemma load_entries_app (es1 es2 : list (string * string))
    (d : gmap string value) :
  load_entries lit (es1 ++ es2) d
  = and_then (load_entries lit es1 d) (fun d' => load_entries lit es2 d').
Proof.
  revert d. induction es1 as [|[k v] es1 IH]; intros d; [reflexivity|].
  cbn [app load_entries]. destruct (_typer lit v) as [x|e]; [|reflexivity].
  apply IH.
Qed.

Lemma load_entries_lookup_other (es : list (string * string))
    (d m : gmap string value) (k : string) :
  load_entries lit es d = Some (Return m) ->
  k ∉ (fst <$> es) -> m !! k = d !! k.
Proof.
  revert d. induction es as [|[k' v] es IH]; intros d H Hk.
  - by injection H as ->.
  - cbn [load_entries] in H. destruct (_typer lit v) as [x|e]; [|done].
    cbn in Hk. apply not_elem_of_cons in Hk as [Hne Hk].
    rewrite (IH _ H Hk). by apply lookup_insert_ne.
Qed.

Lemma _typer_empty : _typer lit EmptyString = Raise ValueError.
Proof. reflexivity. Qed.

End LoadEntriesFacts.

Lemma _parse_inlist_of_Return (lit : string -> result value)
    (fs : string -> result string) (path : string)
    (d0 : option (gmap string value)) (m : gmap string value) :
  parse_body lit fs path (default ∅ d0) = Some (Return m) ->
  _parse_inlist lit fs path d0 = Some (Return (Some m)).
Proof.
  unfold _parse_inlist.
  replace (match d0 with Some d => d | None => ∅ end) with (default ∅ d0)
    by by destruct d0.
  by intros ->.
Qed.

(** X7. On a file made of well-formed lines (entries [key = value] with or
    without blanks around [=], values and keywords that are words or
    quotations, comments after [%], blank lines, indentation)
    [_parse_inlist] types the values with [_typer] and stores them under
    the text of their keywords, line after line, starting from the
    dictionary it was given; it stops at the first value that [_typer]
    rejects, with that error. *)
Theorem X7_file_of_lines (lit : string -> result value)
    (fs : string -> result string) (inlist_path : string)
    (ls : list Lines.line) (d0 : option (gmap string value)) :
  fs inlist_path = Return (Lines.render ls) ->
  Forall Lines.wf_line ls ->
  parse_body lit fs inlist_path (default ∅ d0)
  = Lines.load_entries lit (Lines.entries ls) (default ∅ d0)
  /\ (forall m,
        Lines.load_entries lit (Lines.entries ls) (default ∅ d0)
        = Some (Return m) ->
        _parse_inlist lit fs inlist_path d0 = Some (Return (Some m))).
Proof.
  intros Hfs Hls. rewrite <- (parse_body_lines lit fs _ _ _ Hfs Hls).
  split; [reflexivity|]. intros m. apply _parse_inlist_of_Return.
Qed.

Lemma X7_file_of_lines_witness :
  let ls :=
    [Lines.NoEntry "" (Some " settings");
     Lines.Entry "  " (Lines.Word "n") " " " " (Lines.Word "8") ""
       (Some "7%6");
     Lines.Entry "" (Lines.Word "s") "" "" (Lines.Quoted squote "a % b") " "
       None] in
  _parse_inlist LiteralEval.literal_eval (fun _ => Return (Lines.render ls))
    "run.in" None
  = Some (Return (Some (<["s" := VStr "a % b"]> (<["n" := VInt 8]> ∅)))).
Proof.
  intros ls.
  apply (proj2 (X7_file_of_lines LiteralEval.literal_eval
                  (fun _ => Return (Lines.render ls)) "run.in" ls None
                  eq_refl
                  ltac:(repeat constructor; vm_compute; reflexivity))).
  vm_compute. reflexivity.
Defined.

(** X8. Parsing composes along the text of a file: when a file starts with
    well-formed lines, [_parse_inlist] loads their entries and then goes on
    exactly as if it parsed the rest of the file, as a file of its own, on
    top of the dictionary reached so far. *)
Theorem X8_parse_composes (lit : string -> result value)
    (fs : string -> result string) (path path2 : string)
    (ls : list Lines.line) (rest : string) (d : gmap string value) :
  fs path = Return (Lines.render ls ++ rest) ->
  fs path2 = Return rest ->
  Forall Lines.wf_line ls ->
  parse_body lit fs path d
  = Lines.and_then (Lines.load_entries lit (Lines.entries ls) d)
      (fun d' => parse_body lit fs path2 d').
Proof. apply parse_body_lines_then. Qed.

Lemma X8_parse_composes_witness :
  let ls := [Lines.Entry "" (Lines.Word "a") " " " " (Lines.Word "1") "" None] in
  let fs := fun p : string =>
              if String.eqb p "tail.in" then Return "b = [2,3]"
              else Return (Lines.render ls ++ "b = [2,3]") in
  parse_body LiteralEval.literal_eval fs "whole.in" ∅
  = Lines.and_then
      (Lines.load_entries LiteralEval.literal_eval (Lines.entries ls) ∅)
      (fun d' => parse_body LiteralEval.literal_eval fs "tail.in" d').
Proof.
  intros ls fs.
  apply (X8_parse_composes LiteralEval.literal_eval fs "whole.in" "tail.in"
           ls "b = [2,3]" ∅); [reflexivity|reflexivity|].
  repeat constructor; vm_compute; reflexivity.
Defined.

(** X9. A file without entries (empty, or made of blank lines and comment
    lines only) leaves the dictionary as it is: [_parse_inlist] returns the
    dictionary it was given, the empty one when it was given none. *)
Theorem X9_no_entries_no_change (lit : string -> result value)
    (fs : string -> result string) (inlist_path : string)
    (ls : list Lines.line) (d0 : option (gmap string value)) :
  fs inlist_path = Return (Lines.render ls) ->
  Forall Lines.wf_line ls ->
  Lines.entries ls = [] ->
  _parse_inlist lit fs inlist_path d0 = Some (Return (Some (default ∅ d0))).
Proof.
  intros Hfs Hls Hes. apply _parse_inlist_of_Return.
  by rewrite (parse_body_lines lit fs _ _ _ Hfs Hls), Hes.
Qed.

Lemma X9_no_entries_no_change_witness :
  let ls := [Lines.NoEntry "    " (Some " Test inlist");
             Lines.NoEntry "    " None;
             Lines.NoEntry "" (Some "%%%%")] in
  _parse_inlist LiteralEval.literal_eval (fun _ => Return (Lines.render ls))
    "run.in" (Some {[ "a" := VInt 1 ]})
  = Some (Return (Some {[ "a" := VInt 1 ]})).
Proof.
  intros ls.
  exact (X9_no_entries_no_change LiteralEval.literal_eval
           (fun _ => Return (Lines.render ls)) "run.in" ls
           (Some {[ "a" := VInt 1 ]}) eq_refl
           ltac:(repeat constructor; vm_compute; reflexivity) eq_refl).
Defined.

(** X10. The last entry of a keyword wins: when a file of well-formed lines
    loads to the mapping [m], a keyword holds in [m] the typed value of its
    last entry in the file. *)
Theorem X10_last_entry_wins (lit : string -> result value)
    (fs : string -> result string) (inlist_path : string)
    (ls : list Lines.line) (d0 : option (gmap string value))
    (m : gmap string value) (es1 es2 : list (string * string))
    (k v : string) :
  fs inlist_path = Return (Lines.render ls) ->
  Forall Lines.wf_line ls ->
  _parse_inlist lit fs inlist_path d0 = Some (Return (Some m)) ->
  Lines.entries ls = (es1 ++ (k, v) :: es2)%list ->
  k ∉ (fst <$> es2) ->
  exists x, _typer lit v = Return x /\ m !! k = Some x.
Proof.
  intros Hfs Hls Hm Hes Hk.
  apply _parse_inlist_Return_inv in Hm.
  rewrite (parse_body_lines lit fs _ _ _ Hfs Hls), Hes, load_entries_app in Hm.
  destruct (Lines.load_entries lit es1 (default ∅ d0)) as [[d1|e]|];
    [|done|done].
  cbn [Lines.and_then Lines.load_entries] in Hm.
  destruct (_typer lit v) as [x|e]; [|done].
  exists x. split; [reflexivity|].
  rewrite (load_entries_lookup_other lit _ _ _ _ Hm Hk).
  apply lookup_insert_eq.
Qed.

Lemma X10_last_entry_wins_witness :
  let ls := [Lines.Entry "" (Lines.Word "k") " " " " (Lines.Word "1") "" None;
             Lines.Entry "" (Lines.Word "j") " " " " (Lines.Word "True") "" None;
             Lines.Entry "" (Lines.Word "k") "" "" (Lines.Word "2.5") "" None] in
  exists x, _typer LiteralEval.literal_eval "2.5" = Return x
            /\ (<["k" := VFloat (5 # 2)]> (<["j" := VBool true]> ∅) : gmap string value)
               !! "k" = Some x.
Proof.
  intros ls.
  apply (X10_last_entry_wins LiteralEval.literal_eval
           (fun _ => Return (Lines.render ls)) "run.in" ls None
           (<["k" := VFloat (5 # 2)]> (<["j" := VBool true]> ∅))
           [("k", "1"); ("j", "True")] [] "k" "2.5").
  - reflexivity.
  - repeat constructor; vm_compute; reflexivity.
  - vm_compute. reflexivity.
  - reflexivity.
  - cbn. apply not_elem_of_nil.
Defined.

Section AfterLines.
Import Shlex Lines.
Variable lit : string -> result value.
Variable fs : string -> result string.

Lemma parse_body_lines_rest (path : string) (ls : list line)
    (rest0 : string) (d : gmap string value) :
  fs path = Return (render ls ++ rest0) ->
  Forall wf_line ls ->
  parse_body lit fs path d
  = and_then (load_entries lit (entries ls) d)
      (fun d' => parse_loop lit (S (String.length (double_nl rest0)))
                   (at_text (double_nl rest0)) d').
Proof.
  intros H1 Hls.
  rewrite (parse_body_at_text _ _ _ _ _ H1), double_nl_render by done.
  rewrite parse_loop_lines by (done || lia).
  apply and_then_ext. intros d'.
  pose proof (stream_length_rest ls (double_nl rest0)).
  apply parse_loop_fuel; cbn; lia.
Qed.

Lemma entries_app (ls1 ls2 : list line) :
  entries (ls1 ++ ls2) = (entries ls1 ++ entries ls2)%list.
Proof.
  induction ls1 as [|[] ls1 IH]; [reflexivity| |]; cbn [app entries];
    by rewrite ?IH.
Qed.



End AfterLines.

(** X11. The first value that [_typer] rejects ends the parse with its
    error, whatever the file holds after that line: the lines before it
    are well-formed and load, the text after it is not even looked at. *)
Theorem X11_first_rejected_value_aborts (lit : string -> result value)
    (fs : string -> result string) (inlist_path : string)
    (ls : list Lines.line) (ind : string) (key : Lines.tokn) (s1 s2 : string)
    (val : Lines.tokn) (pad : string) (cm : option string) (rest : string)
    (d d1 : gmap string value) (e : exn) :
  let bad := Lines.Entry ind key s1 s2 val pad cm in
  fs inlist_path = Return (Lines.render (ls ++ [bad]) ++ rest) ->
  Forall Lines.wf_line ls ->
  Lines.wf_line bad ->
  Lines.load_entries lit (Lines.entries ls) d = Some (Return d1) ->
  _typer lit (Lines.token_text val) = Raise e ->
  parse_body lit fs inlist_path d = Some (Raise e).
Proof.
  intros bad Hfs Hls Hbad Hload He.
  rewrite (parse_body_lines_rest lit fs _ _ _ _ Hfs)
    by (apply Forall_app; split; [done|by constructor]).
  rewrite entries_app, load_entries_app, Hload.
  cbn [Lines.and_then Lines.entries Lines.load_entries bad app].
  by rewrite He.
Qed.

Lemma X11_first_rejected_value_aborts_witness :
  let ls := [Lines.Entry "" (Lines.Word "a") " " " " (Lines.Word "1") "" None] in
  let bad := Lines.Entry "" (Lines.Word "b") " " " " (Lines.Word "1x") "" None in
  parse_body LiteralEval.literal_eval
    (fun _ => Return (Lines.render (ls ++ [bad]) ++ "c = 'not closed"))
    "run.in" ∅
  = Some (Raise ValueError).
Proof.
  intros ls bad.
  apply (X11_first_rejected_value_aborts LiteralEval.literal_eval
           (fun _ => Return (Lines.render (ls ++ [bad]) ++ "c = 'not closed"))
           "run.in" ls "" (Lines.Word "b") " " " " (Lines.Word "1x") "" None
           "c = 'not closed" ∅ (<["a" := VInt 1]> ∅) ValueError).
  - reflexivity.
  - repeat constructor; vm_compute; reflexivity.
  - repeat split; vm_compute; reflexivity.
  - vm_compute. reflexivity.
  - reflexivity.
Defined.



(** ** Defaults: errors and reloading *)

(** X13. What the two handlers of [_parse_inlist] do: when the parse of
    the defaults file ends in [NameError] or [TypeError], the error is
    swallowed, [_get_default_inlist_values] returns [None], and
    [get_inlist_values] returns what the run file gives when parsed on its
    own, from the empty dictionary. *)
Theorem X13_caught_defaults_error (lit : string -> result value)
    (fs : string -> result string) (inlist_path g1 g2 : string) (e : exn) :
  compiled_regex_defaults_match inlist_path = Some (g1, g2) ->
  parse_body lit fs (g1 ++ "/defaults/" ++ g2 ++ ".defaults") ∅
  = Some (Raise e) ->
  e = NameError \/ e = TypeError ->
  _get_default_inlist_values lit fs inlist_path = Some (Return None)
  /\ get_inlist_values lit fs inlist_path = _parse_inlist lit fs inlist_path None.
Proof.
  intros Hm He Hcaught.
  assert (Hd : _get_default_inlist_values lit fs inlist_path
               = Some (Return None)).
  { unfold _get_default_inlist_values, _parse_inlist. rewrite Hm, He.
    by destruct Hcaught as [-> | ->]. }
  split; [exact Hd|].
  unfold get_inlist_values. rewrite Hd. cbn [mbind option_bind].
  pose proof (_parse_inlist_not_NameError lit fs inlist_path None) as Hn.
  destruct (_parse_inlist lit fs inlist_path None) as [[m|e']|];
    cbn [mbind option_bind]; [reflexivity| |reflexivity].
  by destruct e'.
Qed.

Lemma X13_caught_defaults_error_witness :
  let fs := fun p : string =>
              if String.eqb p "d/defaults/n.defaults" then Raise TypeError
              else Return "a = 1" in
  _get_default_inlist_values LiteralEval.literal_eval fs "d/s/n.in"
  = Some (Return None)
  /\ get_inlist_values LiteralEval.literal_eval fs "d/s/n.in"
     = _parse_inlist LiteralEval.literal_eval fs "d/s/n.in" None.
Proof.
  intros fs.
  apply (X13_caught_defaults_error LiteralEval.literal_eval fs "d/s/n.in"
           "d" "n" TypeError); [reflexivity|reflexivity|by right].
Defined.

(** X14. The defaults file is required: for a run-file path of the
    conventional shape, when opening [<dir>/defaults/<name>.defaults]
    raises an error other than [NameError] and [TypeError] (a missing file
    raises an [OSError]), [get_inlist_values] raises that error, whatever
    the run file holds. *)
Theorem X14_defaults_file_is_required (lit : string -> result value)
    (fs : string -> result string) (dir sub name ext : string) (e : exn) :
  all_chars Re.dot dir = true ->
  all_chars Re.dot sub = true ->
  all_chars Re.dot name = true ->
  count_char "/" sub = O ->
  count_char "/" name = O ->
  count_char "/" ext = O ->
  count_char "." ext = O ->
  fs (dir ++ "/defaults/" ++ name ++ ".defaults") = Raise e ->
  e <> NameError -> e <> TypeError ->
  get_inlist_values lit fs (dir ++ "/" ++ sub ++ "/" ++ name ++ "." ++ ext)
  = Some (Raise e).
Proof.
  intros Hdir Hsub Hname Hs1 Hs2 Hs3 Hdot Hfs Hn Ht.
  unfold get_inlist_values, _get_default_inlist_values.
  change (dir ++ "/" ++ sub ++ "/" ++ name ++ "." ++ ext)
    with (dir ++ String "/" (sub ++ String "/" (name ++ String "." ext))).
  rewrite defaults_match_shape by done.
  assert (Hd : _parse_inlist lit fs (dir ++ "/defaults/" ++ name ++ ".defaults")
                 None = Some (Raise e)).
  { unfold _parse_inlist, parse_body. rewrite Hfs. cbn [mbind option_bind].
    by destruct e. }
  by rewrite Hd.
Qed.

Lemma X14_defaults_file_is_required_witness :
  get_inlist_values LiteralEval.literal_eval
    (fun p : string =>
       if String.eqb p "work/runs/case.in" then Return "a = 1"
       else Raise OSError)
    ("work" ++ "/" ++ "runs" ++ "/" ++ "case" ++ "." ++ "in")
  = Some (Raise OSError).
Proof.
  apply (X14_defaults_file_is_required LiteralEval.literal_eval _
           "work" "runs" "case" "in" OSError);
    (reflexivity || discriminate).
Defined.

(** X15. Reloading is idempotent: when a file parses on its own to the
    entries [E], parsing it again on top of a mapping that these entries
    were already laid over, [E] itself included, returns that mapping
    unchanged. *)
Theorem X15_reload_is_idempotent (lit : string -> result value)
    (fs : string -> result string) (inlist_path : string)
    (E D : gmap string value) :
  _parse_inlist lit fs inlist_path None = Some (Return (Some E)) ->
  _parse_inlist lit fs inlist_path (Some (E ∪ D)) = Some (Return (Some (E ∪ D)))
  /\ _parse_inlist lit fs inlist_path (Some E) = Some (Return (Some E)).
Proof.
  intros HE. apply _parse_inlist_Return_inv in HE. simpl in HE.
  split; apply _parse_inlist_of_Return; cbn [default from_option id];
    rewrite parse_body_union, HE; cbn; do 2 f_equal.
  - by rewrite (assoc_L (∪)), (idemp_L (∪)).
  - by rewrite (idemp_L (∪)).
Qed.

Lemma X15_reload_is_idempotent_witness :
  _parse_inlist LiteralEval.literal_eval Overlay.fs Overlay.run_path
    (Some (Overlay.entries ∪ Overlay.defaults))
  = Some (Return (Some (Overlay.entries ∪ Overlay.defaults)))
  /\ _parse_inlist LiteralEval.literal_eval Overlay.fs Overlay.run_path
       (Some Overlay.entries)
     = Some (Return (Some Overlay.entries)).
Proof.
  apply (X15_reload_is_idempotent LiteralEval.literal_eval Overlay.fs
           Overlay.run_path Overlay.entries Overlay.defaults).
  vm_compute. reflexivity.
Defined.

(** X16. The sub-directory and the extension of the run file do not
    matter to the defaults: two run files of the same name under the same
    directory, in whatever sub-directories and with whatever extensions,
    get their defaults from the same file. *)
Theorem X16_defaults_shared (lit : string -> result value)
    (fs : string -> result string)
    (dir name sub1 ext1 sub2 ext2 : string) :
  all_chars Re.dot dir = true ->
  all_chars Re.dot name = true ->
  count_char "/" name = O ->
  all_chars Re.dot sub1 = true -> count_char "/" sub1 = O ->
  count_char "/" ext1 = O -> count_char "." ext1 = O ->
  all_chars Re.dot sub2 = true -> count_char "/" sub2 = O ->
  count_char "/" ext2 = O -> count_char "." ext2 = O ->
  _get_default_inlist_values lit fs
    (dir ++ "/" ++ sub1 ++ "/" ++ name ++ "." ++ ext1)
  = _get_default_inlist_values lit fs
      (dir ++ "/" ++ sub2 ++ "/" ++ name ++ "." ++ ext2).
Proof.
  intros. unfold _get_default_inlist_values.
  change (dir ++ "/" ++ sub1 ++ "/" ++ name ++ "." ++ ext1)
    with (dir ++ String "/" (sub1 ++ String "/" (name ++ String "." ext1))).
  change (dir ++ "/" ++ sub2 ++ "/" ++ name ++ "." ++ ext2)
    with (dir ++ String "/" (sub2 ++ String "/" (name ++ String "." ext2))).
  by rewrite !defaults_match_shape.
Qed.

Lemma X16_defaults_shared_witness :
  _get_default_inlist_values LiteralEval.literal_eval Overlay.fs
    ("work" ++ "/" ++ "runs" ++ "/" ++ "case" ++ "." ++ "in")
  = _get_default_inlist_values LiteralEval.literal_eval Overlay.fs
      ("work" ++ "/" ++ "old" ++ "/" ++ "case" ++ "." ++ "txt").
Proof.
  apply (X16_defaults_shared LiteralEval.literal_eval Overlay.fs
           "work" "case" "runs" "in" "old" "txt"); reflexivity.
Defined.

(** X17. The [try] of [get_inlist_values] never changes the outcome:
    [_parse_inlist] catches [NameError] itself, so once the defaults are
    there [get_inlist_values] returns or raises exactly what
    [_parse_inlist] does on the run file with the defaults as its starting
    dictionary. *)
Theorem X17_outer_handler_is_dead (lit : string -> result value)
    (fs : string -> result string) (inlist_path : string)
    (dflt : option (gmap string value)) :
  _get_default_inlist_values lit fs inlist_path = Some (Return dflt) ->
  get_inlist_values lit fs inlist_path = _parse_inlist lit fs inlist_path dflt.
Proof.
  intros Hd. unfold get_inlist_values. rewrite Hd. cbn [mbind option_bind].
  pose proof (_parse_inlist_not_NameError lit fs inlist_path dflt) as Hn.
  destruct (_parse_inlist lit fs inlist_path dflt) as [[m|e]|];
    cbn [mbind option_bind]; [reflexivity| |reflexivity].
  by destruct e.
Qed.

Lemma X17_outer_handler_is_dead_witness :
  get_inlist_values LiteralEval.literal_eval Overlay.fs Overlay.run_path
  = _parse_inlist LiteralEval.literal_eval Overlay.fs Overlay.run_path
      (Some Overlay.defaults).
Proof.
  apply (X17_outer_handler_is_dead LiteralEval.literal_eval Overlay.fs
           Overlay.run_path (Some Overlay.defaults)).
  vm_compute. reflexivity.
Defined.

Section Quotations.
Import Shlex Lines.
Variable lit : string -> result value.

Lemma double_nl_prefix (p r : string) :
  count_char newline p = O -> double_nl (p ++ r) = p ++ double_nl r.
Proof.
  induction p as [|x p IH]; intros Hp; [reflexivity|].
  apply count_char_cons_zero in Hp as [Hx Hp].
  rewrite !sapp_cons. cbn [double_nl]. by rewrite Hx, IH.
Qed.



Lemma quote_newline (q : ascii) :
  is_quote q = true -> chr_eqb newline q = false /\ chr_eqb q newline = false.
Proof. destruct q as [[] [] [] [] [] [] [] []]; vm_compute; intuition congruence. Qed.

(** A quotation that is still open at the end of the text. *)
Lemma R_quote_open (q : ascii) (t tok : string) :
  count_char q t = O ->
  read_loop base_lexer false (St_quote q) tok [] t = Raise ValueError.
Proof.
  revert tok. induction t as [|c t IH]; intros tok Ht; [reflexivity|].
  apply count_char_cons_zero in Ht as [Hc Ht].
  cbn [read_loop]. rewrite Hc. by apply IH.
Qed.

Lemma parse_loop_open_quote (fuel : nat) (ind : string) (key : tokn)
    (s1 s2 : string) (q : ascii) (t : string) (d : gmap string value) :
  all_chars is_pad ind = true -> wf_token key ->
  all_chars is_pad s1 = true -> all_chars is_pad s2 = true ->
  is_quote q = true -> count_char q t = O ->
  parse_loop lit (S fuel)
    (at_text (ind ++ token_text key ++ s1 ++ String "=" (s2 ++ String q t))) d
  = Some (Raise ValueError).
Proof.
  intros Hind Hkey Hs1 Hs2 Hq Ht.
  destruct (key_step ind key s1 (s2 ++ String q t) Hind Hkey Hs1)
    as (lx1 & H1 & H2).
  cbn [parse_loop]. rewrite H1, (nonempty_token_text key Hkey), H2.
  rewrite G_pads by done. unfold at_text.
  by rewrite get_token_at, R_ws_quote, R_quote_open.
Qed.


End Quotations.

Section LastEntry.
Import Shlex Lines.
Variable lit : string -> result value.
Variable fs : string -> result string.

Lemma entry_prefix_assoc (ind k s1 s2 r : string) :
  ind ++ k ++ s1 ++ String "=" (s2 ++ r)
  = (ind ++ k ++ s1 ++ String "=" s2) ++ r.
Proof. by rewrite !sapp_assoc, sapp_cons. Qed.

Lemma entry_prefix_no_newline (ind : string) (key : tokn) (s1 s2 : string) :
  all_chars is_pad ind = true -> wf_token key ->
  all_chars is_pad s1 = true -> all_chars is_pad s2 = true ->
  count_char newline (ind ++ token_text key ++ s1 ++ String "=" s2) = O.
Proof.
  intros Hind Hkey Hs1 Hs2. rewrite !count_char_app. cbn [count_char].
  by rewrite (pads_no_newline _ Hind), (pads_no_newline _ Hs1),
    (pads_no_newline _ Hs2), (token_text_no_newline _ Hkey).
Qed.

Lemma count_char_double_nl (q : ascii) (t : string) :
  chr_eqb newline q = false -> count_char q (double_nl t) = count_char q t.
Proof.
  intros Hq. induction t as [|x t IH]; [reflexivity|].
  cbn [double_nl]. destruct (chr_eqb x newline) eqn:Hx.
  - apply Ascii.eqb_eq in Hx as ->. destruct t as [|y t].
    + reflexivity.
    + cbn [count_char] in *. rewrite Hq in *. cbn. by rewrite <- IH.
  - cbn [count_char]. by rewrite IH.
Qed.

Lemma parse_body_open_quote (path : string) (ls : list line) (ind : string)
    (key : tokn) (s1 s2 : string) (q : ascii) (t : string)
    (d d1 : gmap string value) :
  fs path
  = Return (render ls ++ ind ++ token_text key ++ s1
            ++ String "=" (s2 ++ String q t)) ->
  Forall wf_line ls ->
  all_chars is_pad ind = true -> wf_token key ->
  all_chars is_pad s1 = true -> all_chars is_pad s2 = true ->
  is_quote q = true -> count_char q t = O ->
  load_entries lit (entries ls) d = Some (Return d1) ->
  parse_body lit fs path d = Some (Raise ValueError).
Proof.
  intros Hfs Hls Hind Hkey Hs1 Hs2 Hq Ht Hload.
  destruct (quote_newline q Hq) as [Hnq Hqn].
  rewrite (parse_body_lines_rest lit fs _ _ _ _ Hfs Hls), Hload.
  cbn [and_then].
  rewrite entry_prefix_assoc, double_nl_prefix
    by by apply entry_prefix_no_newline.
  cbn [double_nl]. rewrite Hqn, <- entry_prefix_assoc.
  apply parse_loop_open_quote; try done.
  by rewrite count_char_double_nl.
Qed.


End LastEntry.

(** X18. A quotation that is opened in a value and never closed makes the
    parse raise [ValueError] (the lexer's "no closing quotation"), once
    the lines before it have loaded. *)
Theorem X18_open_quotation_raises (lit : string -> result value)
    (fs : string -> result string) (inlist_path : string)
    (ls : list Lines.line) (ind : string) (key : Lines.tokn) (s1 s2 : string)
    (q : ascii) (t : string) (d d1 : gmap string value) :
  fs inlist_path
  = Return (Lines.render ls ++ ind ++ Lines.token_text key ++ s1
            ++ "=" ++ s2 ++ String q t) ->
  Forall Lines.wf_line ls ->
  all_chars Lines.is_pad ind = true -> Lines.wf_token key ->
  all_chars Lines.is_pad s1 = true -> all_chars Lines.is_pad s2 = true ->
  is_quote q = true -> count_char q t = O ->
  Lines.load_entries lit (Lines.entries ls) d = Some (Return d1) ->
  parse_body lit fs inlist_path d = Some (Raise ValueError).
Proof. apply parse_body_open_quote. Qed.

Lemma X18_open_quotation_raises_witness :
  parse_body LiteralEval.literal_eval
    (fun _ => Return (Lines.render [] ++ "" ++ "name" ++ " " ++ "=" ++ " "
                      ++ String squote "never closed"))
    "run.in" ∅
  = Some (Raise ValueError).
Proof.
  apply (X18_open_quotation_raises LiteralEval.literal_eval _ "run.in" []
           "" (Lines.Word "name") " " " " squote "never closed" ∅ ∅);
    try reflexivity.
  - constructor.
  - split; reflexivity.
Defined.



Lemma X6_lexer_text_doubles_newlines_witness :
  double_nl "a = 1" = "a = 1".
Proof.
  apply (proj2 (X6_lexer_text_doubles_newlines "a = 1")). reflexivity.
Defined.
